(** * The resilient README generation pipeline of [src/lib/ai-agent.ts]

    A shallow embedding of the TypeScript module: the error class, the
    backoff scheduler [withExponentialBackoff], the prompt builder
    [buildSystemPrompt], the validator [validateReadmeOutput], the two
    generation clients [generateReadmeStreaming] and [generateReadme], and
    the orchestrator [generateReadmeWithFallback].

    Conventions of the embedding:
    - a JavaScript string is the list of its UTF-16 code units;
    - a JavaScript number is a double: a rational with 53 significant
      bits, NaN or an infinity; a product or a sum is the exact one
      rounded to the nearest double, ties to even;
    - [async] functions are run to completion: a promise that rejects is a
      result [Err], [await] is sequencing;
    - effects are explicit: the environment, the provider and the console
      live in a [World], the timer and [Math.random] in a [Clock]. *)

From Stdlib Require Import List Bool Arith NArith ZArith QArith Lia Lqa.
From Stdlib Require Import Qround Qabs Qpower.
From Stdlib Require Import Ascii String DecimalString.
From Equations Require Import Equations.
Import ListNotations.

Set Implicit Arguments.
Set Warnings "-register-all".
Close Scope Q_scope.

(* ================================================================== *)
(** ** JavaScript strings *)
(* ================================================================== *)

Module Js.

(** A string is its sequence of UTF-16 code units. *)
Definition JsString := list N.

(** The code units of an ASCII literal. *)
Definition lit (s : string) : JsString :=
  List.map N_of_ascii (list_ascii_of_string s).

Definition nl : JsString := [10%N].
Definition dquote : JsString := [34%N].

Definition eqb (a b : JsString) : bool :=
  if list_eq_dec N.eq_dec a b then true else false.

(** [s.length] *)
Definition length (s : JsString) : nat := List.length s.

(** [s.slice(0, n)] for a non-negative [n]. *)
Definition slice0 (n : nat) (s : JsString) : JsString := firstn n s.

(** ECMAScript [LineTerminator]: LF, CR, LS, PS. *)
Definition is_line_terminator (c : N) : bool :=
  (c =? 10)%N || (c =? 13)%N || (c =? 8232)%N || (c =? 8233)%N.

(** ECMAScript [WhiteSpace] and [LineTerminator], the class of [\s] and of
    [String.prototype.trim]: TAB, LF, VT, FF, CR, SP, NBSP, U+1680,
    U+2000..U+200A, LS, PS, U+202F, U+205F, U+3000, BOM. *)
Definition is_space (c : N) : bool :=
  ((9 <=? c) && (c <=? 13))%N || (c =? 32)%N || (c =? 160)%N ||
  (c =? 5760)%N || ((8192 <=? c) && (c <=? 8202))%N ||
  (c =? 8232)%N || (c =? 8233)%N || (c =? 8239)%N || (c =? 8287)%N ||
  (c =? 12288)%N || (c =? 65279)%N.

(** [s.startsWith(p)] as a prefix test on code units. *)
Fixpoint starts_with (p s : JsString) : bool :=
  match p, s with
  | [], _ => true
  | a :: p', b :: s' => (a =? b)%N && starts_with p' s'
  | _ :: _, [] => false
  end.

(** [s.includes(p)]: [p] occurs somewhere in [s]. *)
Fixpoint includes (s p : JsString) : bool :=
  starts_with p s ||
  match s with
  | [] => false
  | _ :: s' => includes s' p
  end.

Fixpoint trim_start (s : JsString) : JsString :=
  match s with
  | c :: s' => if is_space c then trim_start s' else s
  | [] => []
  end.

Definition trim_end (s : JsString) : JsString := rev (trim_start (rev s)).

(** [s.trim()] *)
Definition trim (s : JsString) : JsString := trim_end (trim_start s).

(** [a.join(sep)] *)
Fixpoint join (sep : JsString) (l : list JsString) : JsString :=
  match l with
  | [] => []
  | [x] => x
  | x :: r => x ++ sep ++ join sep r
  end.

End Js.

Abbreviation JsString := Js.JsString.

(* ================================================================== *)
(** ** The regular expressions of the module

    A backtracking matcher for the fragment the source uses: a pattern is
    an alternation of sequences of atoms; an atom is an assertion ([^],
    [$]) or a greedily quantified character class.  The flags [i], [m] and
    [g] are those of the literal. *)
(* ================================================================== *)

Module Regex.

Inductive CharClass :=
| Chr (c : N)      (* a literal character *)
| Space            (* \s *)
| Dot.             (* .  : anything but a line terminator *)

Inductive Atom :=
| Bol                                               (* ^ *)
| Eol                                               (* $ *)
| Rep (cls : CharClass) (lo : nat) (hi : option nat). (* cls{lo,hi}, greedy *)

Record Flags := { ignoreCase : bool; multiline : bool }.

Record t := { alternatives : list (list Atom); flags : Flags }.

(** One literal character per atom. *)
Definition str (s : string) : list Atom :=
  List.map (fun c => Rep (Chr c) 1 (Some 1)) (Js.lit s).
Definition one (cls : CharClass) : Atom := Rep cls 1 (Some 1).
Definition plus (cls : CharClass) : Atom := Rep cls 1 None.

(** Canonicalize of the [i] flag without [u]: the patterns of the module
    are ASCII, and a code unit of 128 or more never folds onto ASCII. *)
Definition canon (c : N) : N :=
  if ((97 <=? c) && (c <=? 122))%N then (c - 32)%N else c.

Definition class_matches (fl : Flags) (cls : CharClass) (c : N) : bool :=
  match cls with
  | Chr p => if ignoreCase fl then (canon p =? canon c)%N else (p =? c)%N
  | Space => Js.is_space c
  | Dot => negb (Js.is_line_terminator c)
  end.

(** [^] holds at the start of the input and, with [m], after a line
    terminator; [prev] is the character before the current position. *)
Definition at_bol (fl : Flags) (prev : option N) : bool :=
  match prev with
  | None => true
  | Some c => multiline fl && Js.is_line_terminator c
  end.

(** [$] holds at the end of the input and, with [m], before a line
    terminator. *)
Definition at_eol (fl : Flags) (s : JsString) : bool :=
  match s with
  | [] => true
  | c :: _ => multiline fl && Js.is_line_terminator c
  end.

Definition hi_allows (hi : option nat) : bool :=
  match hi with Some 0 => false | _ => true end.

(** Greedy repetition with backtracking: take one more character when the
    class and the upper bound allow it and the rest of the pattern then
    matches; otherwise stop here, which needs the lower bound met.  [k] is
    the rest of the pattern; the result is the number of characters
    consumed from [s]. *)
Fixpoint rep (fl : Flags) (cls : CharClass)
    (k : option N -> JsString -> option nat)
    (lo : nat) (hi : option nat) (prev : option N) (s : JsString)
    {struct s} : option nat :=
  let stop := match lo with 0 => k prev s | S _ => None end in
  match s with
  | c :: s' =>
      if hi_allows hi && class_matches fl cls c then
        match rep fl cls k (pred lo) (option_map pred hi) (Some c) s' with
        | Some n => Some (S n)
        | None => stop
        end
      else stop
  | [] => stop
  end.

Fixpoint match_atoms (fl : Flags) (atoms : list Atom)
    (prev : option N) (s : JsString) : option nat :=
  match atoms with
  | [] => Some 0
  | Bol :: r => if at_bol fl prev then match_atoms fl r prev s else None
  | Eol :: r => if at_eol fl s then match_atoms fl r prev s else None
  | Rep cls lo hi :: r => rep fl cls (match_atoms fl r) lo hi prev s
  end.

(** The alternatives are tried in order at one position. *)
Fixpoint match_alts (fl : Flags) (alts : list (list Atom))
    (prev : option N) (s : JsString) : option nat :=
  match alts with
  | [] => None
  | a :: r =>
      match match_atoms fl a prev s with
      | Some n => Some n
      | None => match_alts fl r prev s
      end
  end.

Definition match_here (re : t) (prev : option N) (s : JsString) : option nat :=
  match_alts (flags re) (alternatives re) prev s.

(** The leftmost match at or after the current position: its offset and
    its length. *)
Fixpoint search (re : t) (prev : option N) (s : JsString) : option (nat * nat) :=
  match match_here re prev s with
  | Some n => Some (0, n)
  | None =>
      match s with
      | [] => None
      | c :: s' =>
          match search re (Some c) s' with
          | Some (i, n) => Some (S i, n)
          | None => None
          end
      end
  end.

(** [re.test(s)] on a fresh regular expression ([lastIndex] is 0). *)
Definition test (re : t) (s : JsString) : bool :=
  match search re None s with Some _ => true | None => false end.

(** The lengths of all the matches of a [g] regular expression, from left
    to right: after a match of length [n] the search resumes [n]
    characters later (one character later after an empty match); [skip]
    counts the characters of the last match still to be passed. *)
Fixpoint all_matches (re : t) (skip : nat) (prev : option N) (s : JsString)
    : list nat :=
  match skip with
  | S k =>
      match s with
      | [] => []
      | c :: s' => all_matches re k (Some c) s'
      end
  | 0 =>
      match match_here re prev s with
      | Some n =>
          n :: match s with
               | [] => []
               | c :: s' => all_matches re (pred n) (Some c) s'
               end
      | None =>
          match s with
          | [] => []
          | c :: s' => all_matches re 0 (Some c) s'
          end
      end
  end.

(** [s.match(re)] for a [g] regular expression: [null] when nothing
    matches, otherwise the array of the matches (kept as their lengths). *)
Definition match_g (re : t) (s : JsString) : option (list nat) :=
  match all_matches re 0 None s with
  | [] => None
  | l => Some l
  end.

(** [s.replace(re, '')] for a regular expression without [g]: the first
    match is removed. *)
Definition remove_first (re : t) (s : JsString) : JsString :=
  match search re None s with
  | Some (i, n) => firstn i s ++ skipn (i + n) s
  | None => s
  end.

End Regex.

(* ================================================================== *)
(** ** JavaScript values *)
(* ================================================================== *)

Module Value.

(** A number, as far as the module looks at it. *)
Inductive JsNumber :=
| NaN
| Infinity (negative : bool)
| Finite (q : Q).

(** The data a provider can send back: the values of JSON, and
    [undefined]. An object is the list of its own properties (keys are
    unique, as after [JSON.parse]). *)
Inductive JsValue :=
| VUndefined
| VNull
| VBool (b : bool)
| VNum (n : JsNumber)
| VStr (s : JsString)
| VArr (items : list JsValue)
| VObj (fields : list (JsString * JsValue)).

(** ToBoolean, used by [if (v)], [!v] and [a || b]. *)
Definition number_truthy (n : JsNumber) : bool :=
  match n with
  | NaN => false
  | Infinity _ => true
  | Finite q => negb (Qeq_bool q 0)
  end.

Definition truthy (v : JsValue) : bool :=
  match v with
  | VUndefined | VNull => false
  | VBool b => b
  | VNum n => number_truthy n
  | VStr s => negb (Js.eqb s [])
  | VArr _ | VObj _ => true
  end.

(** [typeof v === 'string'] and [typeof v === 'object']. *)
Definition is_string (v : JsValue) : bool :=
  match v with VStr _ => true | _ => false end.

Definition typeof_object (v : JsValue) : bool :=
  match v with VNull | VArr _ | VObj _ => true | _ => false end.

Fixpoint lookup (key : JsString) (fields : list (JsString * JsValue)) : option JsValue :=
  match fields with
  | [] => None
  | (k, v) :: r => if Js.eqb k key then Some v else lookup key r
  end.

(** [v.key] for one of the property names the module reads ([content],
    [choices], [message], [error], [output], [code], [retryable]) on a
    value that is neither [null] nor [undefined]: only objects own such a
    property. *)
Definition get (v : JsValue) (key : JsString) : JsValue :=
  match v with
  | VObj fields =>
      match lookup key fields with Some x => x | None => VUndefined end
  | _ => VUndefined
  end.

(** [v[0]] on a value that is neither [null] nor [undefined]. *)
Definition get0 (v : JsValue) : JsValue :=
  match v with
  | VArr (x :: _) => x
  | VStr (c :: _) => VStr [c]
  | VObj fields =>
      match lookup (Js.lit "0") fields with Some x => x | None => VUndefined end
  | _ => VUndefined
  end.

Definition nullish (v : JsValue) : bool :=
  match v with VUndefined | VNull => true | _ => false end.

(** [null] or [undefined], when the value is one of them. *)
Inductive Nullish := Null | Undefined.

Definition nullish_of (v : JsValue) : option Nullish :=
  match v with
  | VNull => Some Null
  | VUndefined => Some Undefined
  | _ => None
  end.

(** Optional chaining: [v?.key] and [v?.[0]]. *)
Definition opt_get (v : JsValue) (key : JsString) : JsValue :=
  if nullish v then VUndefined else get v key.

Definition opt_get0 (v : JsValue) : JsValue :=
  if nullish v then VUndefined else get0 v.

(** ['key' in v] on an object. *)
Definition has_key (key : JsString) (v : JsValue) : bool :=
  match v with
  | VObj fields => match lookup key fields with Some _ => true | None => false end
  | _ => false
  end.

End Value.

Import Value.

(* ================================================================== *)
(** ** Numbers: the arithmetic of doubles *)
(* ================================================================== *)

Module Double.

(** The integer nearest to [x], the even one of two at the same
    distance. *)
Definition rne (x : Q) : Z :=
  let f := Qfloor x in
  match (x - inject_Z f ?= 1 # 2)%Q with
  | Lt => f
  | Gt => (f + 1)%Z
  | Eq => if Z.even f then f else (f + 1)%Z
  end.

(** The binary exponent of a positive number: [2^e <= q < 2^(e+1)]. *)
Definition ilog2 (q : Q) : Z :=
  let a := (Z.log2 (Qnum q) - Z.log2 (Zpos (Qden q)))%Z in
  if Qle_bool (2 ^ a) q then a else (a - 1)%Z.

(** The exponent of the last place of the doubles next to [q]: 52 places
    below the leading one, and no lower than that of the subnormals. *)
Definition last_place (q : Q) : Z :=
  (Z.max (ilog2 (Qabs q)) (-1022) - 52)%Z.

(** The nearest number with 53 significant bits, exponent unbounded. *)
Definition nearest (q : Q) : Q :=
  (inject_Z (rne (q / 2 ^ last_place q)) * 2 ^ last_place q)%Q.

(** Rounding to the nearest double, ties to even; what reaches [2^1024]
    overflows. The sign of a zero is not kept. *)
Definition round (q : Q) : JsNumber :=
  if Qeq_bool q 0 then Finite 0
  else
    let v := nearest q in
    if Qle_bool (2 ^ 1024) (Qabs v) then Infinity (Qle_bool v 0)
    else Finite (Qred v).

Definition negative (q : Q) : bool := negb (Qle_bool 0 q).

(** [x * y] *)
Definition mul (x y : JsNumber) : JsNumber :=
  match x, y with
  | NaN, _ | _, NaN => NaN
  | Infinity s, Infinity t => Infinity (xorb s t)
  | Infinity s, Finite q | Finite q, Infinity s =>
      if Qeq_bool q 0 then NaN else Infinity (xorb s (negative q))
  | Finite a, Finite b => round (a * b)
  end.

(** [x + y] *)
Definition add (x y : JsNumber) : JsNumber :=
  match x, y with
  | NaN, _ | _, NaN => NaN
  | Infinity s, Infinity t => if Bool.eqb s t then Infinity s else NaN
  | Infinity s, Finite _ | Finite _, Infinity s => Infinity s
  | Finite a, Finite b => round (a + b)
  end.

(** [Math.pow(2, n)] for a counter [n]. *)
Definition pow2 (n : nat) : JsNumber :=
  if n <? 1024 then Finite (inject_Z (2 ^ Z.of_nat n)) else Infinity false.

(** A decimal literal of the source: the double nearest to it. *)
Definition literal (q : Q) : JsNumber := round q.

End Double.

(* ================================================================== *)
(** ** Errors *)
(* ================================================================== *)

(** The [code] of a [ReadmeGenerationError]. *)
Inductive ErrorCode :=
| AUTH_ERROR | RATE_LIMIT | NETWORK_ERROR | INVALID_OUTPUT | UNKNOWN.

(** A [TypeError] of the runtime, by what raised it; its message is the
    engine's. *)
Inductive Fault :=
| ReadOfNullish (v : Nullish) (property : JsString)
    (* v.property, for [null] or [undefined] *)
| NotAFunction (callee : JsString)
    (* callee(...), for a callee that is not a function *)
| DestructureOfNullish (v : Nullish).
    (* const { error, output } = v *)

(** An exception that is not a [ReadmeGenerationError]: a value thrown,
    or a promise rejected, by the provider call, the stream or the
    callback (any value can be thrown, [null] and [undefined] too), or a
    [TypeError] of the runtime. *)
Inductive RawError :=
| ThrownValue (v : JsValue)
| TypeError (f : Fault).

(** [originalError]: the caught exception, or the [error] of a reply. *)
Inductive Cause :=
| CausedBy (e : RawError)
| Reported (v : JsValue).

(** [class ReadmeGenerationError extends Error] *)
Record ReadmeGenerationError := {
  message : JsString;
  code : ErrorCode;
  retryable : bool;
  originalError : option Cause
}.

(** Whatever a function of the module can throw. *)
Inductive Thrown :=
| Gen (e : ReadmeGenerationError)
| Raw (e : RawError).

(** The outcome of a call: the value returned, or the exception thrown. *)
Inductive Result (T : Type) :=
| Ok (v : T)
| Err (e : Thrown).
Arguments Ok {T} v.
Arguments Err {T} e.

(** [err.retryable] read as a condition, on whatever was caught: the flag
    of a [ReadmeGenerationError]; the property of that name of a thrown
    value, when it has one; [undefined], which is falsy, otherwise. *)
Definition retryable_of (e : Thrown) : bool :=
  match e with
  | Gen g => retryable g
  | Raw (ThrownValue v) => truthy (get v (Js.lit "retryable"))
  | Raw (TypeError _) => false
  end.

(** Reading a property of a caught [null] or [undefined] throws. *)
Definition read_fault (e : Thrown) (property : string) : option Fault :=
  match e with
  | Raw (ThrownValue v) =>
      option_map (fun n => ReadOfNullish n (Js.lit property)) (nullish_of v)
  | _ => None
  end.

Definition is_generation_error (e : Thrown) : bool :=
  match e with Gen _ => true | Raw _ => false end.

(* ================================================================== *)
(** ** Output validation: [validateReadmeOutput] *)
(* ================================================================== *)

Module Validator.

(** [/^#{1,3}\s+.+$/gm] *)
Definition header_re : Regex.t :=
  {| Regex.alternatives :=
       [[Regex.Bol; Regex.Rep (Regex.Chr 35) 1 (Some 3);
         Regex.plus Regex.Space; Regex.plus Regex.Dot; Regex.Eol]];
     Regex.flags := {| Regex.ignoreCase := false; Regex.multiline := true |} |}.

(** [/```/g] *)
Definition fence_re : Regex.t :=
  {| Regex.alternatives := [Regex.str "```"];
     Regex.flags := {| Regex.ignoreCase := false; Regex.multiline := false |} |}.

(** [/here is|i have generated|i've created|below is/gi] *)
Definition metaCommentary : Regex.t :=
  {| Regex.alternatives :=
       [Regex.str "here is"; Regex.str "i have generated";
        Regex.str "i've created"; Regex.str "below is"];
     Regex.flags := {| Regex.ignoreCase := true; Regex.multiline := false |} |}.

Definition too_short : JsString :=
  Js.lit "README is too short (less than 200 characters)".
Definition missing_headers : JsString :=
  Js.lit "Missing essential section headers".
Definition unclosed_block : JsString :=
  Js.lit "Unclosed code block detected".
Definition meta_detected : JsString :=
  Js.lit "AI meta-commentary detected in output".

Record Validation := { valid : bool; errors : list JsString }.

(** [errors.push(msg)] *)
Definition push (errors : list JsString) (msg : JsString) : list JsString :=
  errors ++ [msg].

Definition header_check_fails (markdown : JsString) : bool :=
  match Regex.match_g header_re markdown with
  | None => true                         (* !headerMatches *)
  | Some l => List.length l <? 2         (* headerMatches.length < 2 *)
  end.

(** [(markdown.match(/```/g) || []).length] *)
Definition codeBlockCount (markdown : JsString) : nat :=
  List.length (match Regex.match_g fence_re markdown with
               | Some l => l
               | None => []
               end).

Definition validateReadmeOutput (markdown : JsString) : Validation :=
  let errors := [] in
  let errors :=
    if Js.length markdown <? 200 then push errors too_short else errors in
  let errors :=
    if header_check_fails markdown then push errors missing_headers
    else errors in
  let errors :=
    if negb (codeBlockCount markdown mod 2 =? 0) then push errors unclosed_block
    else errors in
  let errors :=
    if Regex.test metaCommentary (Js.slice0 500 markdown)
    then push errors meta_detected else errors in
  {| valid := (List.length errors =? 0); errors := errors |}.

End Validator.

(* ================================================================== *)
(** ** Prompt builder: [buildSystemPrompt] *)
(* ================================================================== *)

Inductive Style := minimal | standard | enterprise.

(** [interface ReadmeConfig]: every field is optional. *)
Record ReadmeConfig := {
  style : option Style;
  includeArchitecture : option bool;
  includeSecurity : option bool;
  includeContributing : option bool;
  model : option JsString;
  temperature : option JsNumber;
  streaming : option bool
}.

(** [{}], the default of the [config] parameter. *)
Definition empty_config : ReadmeConfig :=
  {| style := None; includeArchitecture := None; includeSecurity := None;
     includeContributing := None; model := None; temperature := None;
     streaming := None |}.

(** An optional boolean read as a condition. *)
Definition flag (b : option bool) : bool :=
  match b with Some true => true | _ => false end.

Module Prompt.

Definition basePrompt : JsString :=
  Js.lit "You are a Senior Principal Engineer at a top-tier tech firm (like Vercel or Stripe). " ++ Js.nl ++
  Js.lit "Your goal is to generate an ELITE, industry-standard README.md." ++ Js.nl ++
  Js.nl ++
  Js.lit "STYLE GUIDELINES:" ++ Js.nl ++
  Js.lit "- Use modern SVG icons (e.g., skill-icons or simple icons) for the Tech Stack." ++ Js.nl ++
  Js.lit "- Include professional Shields.io badges (Stars, Forks, License, Version)." ++ Js.nl ++
  Js.lit "- Structure with deep hierarchy: Features (with emojis), Roadmap, Architecture (Mermaid), and Detailed Installation." ++ Js.nl ++
  Js.lit "- Create a " ++ Js.dquote ++ Js.lit "Quick Start" ++ Js.dquote ++
  Js.lit " vs " ++ Js.dquote ++ Js.lit "Full Documentation" ++ Js.dquote ++
  Js.lit " section." ++ Js.nl ++
  Js.lit "- Use clean Markdown tables for API documentation or Config options." ++ Js.nl ++
  Js.lit "- Ensure any code blocks are accurately syntax-highlighted." ++ Js.nl ++
  Js.lit "- NEVER include meta-talk like " ++ Js.dquote ++
  Js.lit "Here is your readme" ++ Js.dquote ++
  Js.lit ". ONLY output the raw markdown.".

(** [styleAdditions[key]] *)
Definition styleAdditions (key : Style) : JsString :=
  match key with
  | minimal =>
      Js.nl ++ Js.lit "- Keep it concise: 5-7 sections max, focus on Quick Start."
  | standard =>
      Js.nl ++ Js.lit "- Balance detail with readability: Include all essential sections."
  | enterprise =>
      Js.nl ++ Js.lit "- Maximum detail: Architecture diagrams, security policies, CI/CD, deployment guides, monitoring setup."
  end.

Definition architecture_clause : JsString :=
  Js.nl ++ Js.lit "- MUST include a Mermaid architecture diagram showing system components.".
Definition security_clause : JsString :=
  Js.nl ++ Js.lit "- MUST include a Security section with vulnerability reporting and best practices.".
Definition contributing_clause : JsString :=
  Js.nl ++ Js.lit "- MUST include detailed Contributing guidelines with PR process and code standards.".

(** [a || b] on strings: the first when it is not empty. *)
Definition or_string (a b : JsString) : JsString :=
  if negb (Js.eqb a []) then a else b.

Definition buildSystemPrompt (config : ReadmeConfig) : JsString :=
  let enhancedPrompt :=
    basePrompt ++
    or_string
      (styleAdditions (match style config with Some s => s | None => standard end))
      [] in
  let enhancedPrompt :=
    if flag (includeArchitecture config)
    then enhancedPrompt ++ architecture_clause else enhancedPrompt in
  let enhancedPrompt :=
    if flag (includeSecurity config)
    then enhancedPrompt ++ security_clause else enhancedPrompt in
  let enhancedPrompt :=
    if flag (includeContributing config)
    then enhancedPrompt ++ contributing_clause else enhancedPrompt in
  enhancedPrompt.

End Prompt.

(* ================================================================== *)
(** ** Retry with exponential backoff: [withExponentialBackoff] *)
(* ================================================================== *)

Module Backoff.

(** What the scheduler does that an observer can see, in order. *)
Inductive TimerEvent :=
| Invoked                                  (* operation() was called *)
| Warned (retry : nat) (maxRetries : Z) (totalDelay : JsNumber)
    (* console.warn(`Retry attempt ${retry}/${maxRetries} after ...ms`) *)
| Slept (totalDelay : JsNumber).           (* the setTimeout promise awaited *)

(** The timer and the random source: [random i] is the value of the
    [i]-th call of [Math.random], a double in [[0, 1)]. *)
Record Clock := {
  random : nat -> Q;
  drawn : nat;
  timeline : list TimerEvent
}.

Definition record (ev : TimerEvent) (k : Clock) : Clock :=
  {| random := random k; drawn := drawn k; timeline := timeline k ++ [ev] |}.

(** [Math.random()] *)
Definition Math_random (k : Clock) : Q * Clock :=
  (random k (drawn k),
   {| random := random k; drawn := S (drawn k); timeline := timeline k |}).

(** [baseDelay * Math.pow(2, attempt)], for a base delay that is a
    finite double. *)
Definition exponentialDelay (baseDelay : Q) (attempt : nat) : JsNumber :=
  Double.mul (Finite baseDelay) (Double.pow2 attempt).

(** [Math.random() * exponentialDelay * 0.3] for the draw [r]. *)
Definition jitter (baseDelay : Q) (attempt : nat) (r : Q) : JsNumber :=
  Double.mul (Double.mul (Finite r) (exponentialDelay baseDelay attempt))
             (Double.literal (3 # 10)).

(** [exponentialDelay + jitter] *)
Definition totalDelay (baseDelay : Q) (attempt : nat) (r : Q) : JsNumber :=
  Double.add (exponentialDelay baseDelay attempt) (jitter baseDelay attempt r).

(** The body of the [catch] block below the test: draw the jitter, warn,
    sleep. *)
Definition wait (maxRetries : Z) (baseDelay : Q) (attempt : nat) (k : Clock)
    : Clock :=
  let (r, k) := Math_random k in
  let d := totalDelay baseDelay attempt r in
  record (Slept d) (record (Warned (attempt + 1) maxRetries d) k).

(** Keeps the equation of a case analysis, for the termination proof. *)
Definition inspect {A : Type} (x : A) : {y : A | x = y} := exist _ x eq_refl.

Section WithOperation.

(** The operation works on a state of its own; the retry limit is an
    integer and the base delay a finite number of milliseconds. *)
Context {St T : Type}.
Variable operation : St -> Result T * St.
Variable maxRetries : Z.
Variable baseDelay : Q.

(** The [while (true)] loop, from the value [attempt] of its counter. A
    retry happens only while [attempt < maxRetries], which bounds the
    number of iterations. *)
Equations? loop (attempt : nat) (s : St) (k : Clock) : Result T * St * Clock
  by wf (Z.to_nat (maxRetries - Z.of_nat attempt)) lt :=
loop attempt s k with inspect (operation s) := {
  | exist _ (Ok v, s') _ => (Ok v, s', record Invoked k)
  | exist _ (Err error, s') _
      with inspect (Z.geb (Z.of_nat attempt) maxRetries) := {
      | exist _ true _ => (Err error, s', record Invoked k)
      | exist _ false _ =>
          loop (S attempt) s'
               (wait maxRetries baseDelay attempt (record Invoked k)) } }.
Proof.
  rewrite Z.geb_leb in *.
  match goal with H : (_ <=? _)%Z = false |- _ => apply Z.leb_gt in H end.
  lia.
Qed.

Definition withExponentialBackoff (s : St) (k : Clock) : Result T * St * Clock :=
  loop 0 s k.

End WithOperation.

End Backoff.

(* ================================================================== *)
(** ** The provider and the world around a request *)
(* ================================================================== *)

Record Message := { msg_role : JsString; msg_content : JsString }.

(** The second argument of [model.run]. *)
Record RunOptions := { opt_stream : bool; opt_temperature : JsNumber }.

(** One call [new Bytez(key).model(name).run(messages, options)]. *)
Record Call := {
  call_key : JsString;
  call_model : JsString;
  call_messages : list Message;
  call_options : option RunOptions
}.

(** An item of a streamed response: a string, [null], [undefined], or
    another value with the outcome of its [toString()], which returns a
    string or throws (a [toString] that is not a function included). *)
Inductive Chunk :=
| ChunkString (s : JsString)
| ChunkNull
| ChunkUndefined
| ChunkObject (toString : Result JsString).

(** What the promise of [run] resolves to: an async iterable, which
    yields its items and then ends or throws, or a plain value. *)
Inductive Response :=
| AsyncIterable (items : list Chunk) (failure : option RawError)
| Plain (v : JsValue).

(** The outcome of [new Bytez(key).model(name).run(...)] awaited: an
    exception of any of the three steps, or the value the promise
    resolves to. *)
Inductive Reply :=
| Rejects (e : RawError)
| Resolves (r : Response).

(** [onChunk], when it is given: called with a value after the values of
    its earlier calls, it returns, or throws. *)
Definition Callback := list JsValue -> JsValue -> option RawError.

Inductive ConsoleLine :=
| LogAttempting (model : JsString)
    (* console.log(`Attempting README generation with ${model}...`) *)
| WarnFailed (model : JsString)
    (* console.warn(`${model} failed, trying next model...`) *)
| WarnValidation (errors : list JsString).
    (* console.warn('README validation warnings:', validation.errors) *)

(** The environment of a request: the two variables of [process.env], the
    provider (its reply may depend on the calls made so far), the calls
    attempted, the console, and the arguments [onChunk] was called
    with. *)
Record World := {
  BYTEZ_API_KEY : option JsString;
  OPENAI_API_KEY : option JsString;
  provider : list Call -> Call -> Reply;
  calls : list Call;
  console : list ConsoleLine;
  delivered : list JsValue
}.

Definition with_call (c : Call) (w : World) : World :=
  {| BYTEZ_API_KEY := BYTEZ_API_KEY w; OPENAI_API_KEY := OPENAI_API_KEY w;
     provider := provider w; calls := calls w ++ [c];
     console := console w; delivered := delivered w |}.

Definition console_warn (l : ConsoleLine) (w : World) : World :=
  {| BYTEZ_API_KEY := BYTEZ_API_KEY w; OPENAI_API_KEY := OPENAI_API_KEY w;
     provider := provider w; calls := calls w;
     console := console w ++ [l]; delivered := delivered w |}.

(** The record of a call [onChunk(v)]. *)
Definition deliver (v : JsValue) (w : World) : World :=
  {| BYTEZ_API_KEY := BYTEZ_API_KEY w; OPENAI_API_KEY := OPENAI_API_KEY w;
     provider := provider w; calls := calls w;
     console := console w; delivered := delivered w ++ [v] |}.

(** [if (onChunk) { onChunk(v); }]: what the callback throws, if
    anything. *)
Definition call_onChunk (onChunk : option Callback) (v : JsValue) (w : World)
    : option RawError * World :=
  match onChunk with
  | Some callback => (callback (delivered w) v, deliver v w)
  | None => (None, w)
  end.

(** [await model.run(messages, options)] *)
Definition run (c : Call) (w : World) : Reply * World :=
  (provider w (calls w) c, with_call c w).

(** An optional string read as a condition: [undefined] and [''] are
    falsy. *)
Definition present (s : option JsString) : bool :=
  match s with
  | Some (_ :: _) => true
  | _ => false
  end.

(** [a || b] on optional strings. *)
Definition or_else (a b : option JsString) : option JsString :=
  if present a then a else b.

(** [process.env.BYTEZ_API_KEY || process.env.OPENAI_API_KEY] *)
Definition BYTEZ_KEY (w : World) : option JsString :=
  or_else (BYTEZ_API_KEY w) (OPENAI_API_KEY w).

Definition key_text (key : option JsString) : JsString :=
  match key with Some s => s | None => [] end.

Definition missing_key_error : ReadmeGenerationError :=
  {| message := Js.lit "Missing BYTEZ_API_KEY in environment variables";
     code := AUTH_ERROR; retryable := false; originalError := None |}.

(** [config.model || "openai/gpt-4o"] *)
Definition modelName (config : ReadmeConfig) : JsString :=
  match or_else (model config) (Some (Js.lit "openai/gpt-4o")) with
  | Some m => m
  | None => Js.lit "openai/gpt-4o"
  end.

(** The two messages of a request. *)
Definition request_messages (prompt : JsString) (config : ReadmeConfig)
    : list Message :=
  [ {| msg_role := Js.lit "system";
       msg_content := Prompt.buildSystemPrompt config |};
    {| msg_role := Js.lit "user";
       msg_content :=
         Js.lit "Analyze the following project data and build a high-conversion, professional README:"
         ++ Js.nl ++ prompt |} ].

(** [/^```markdown\n/i], [/^```\n/i] and [/\n```$/i] *)
Definition fence_markdown_re : Regex.t :=
  {| Regex.alternatives :=
       [Regex.Bol :: Regex.str "```markdown" ++ [Regex.one (Regex.Chr 10)]];
     Regex.flags := {| Regex.ignoreCase := true; Regex.multiline := false |} |}.
Definition fence_open_re : Regex.t :=
  {| Regex.alternatives :=
       [Regex.Bol :: Regex.str "```" ++ [Regex.one (Regex.Chr 10)]];
     Regex.flags := {| Regex.ignoreCase := true; Regex.multiline := false |} |}.
Definition fence_close_re : Regex.t :=
  {| Regex.alternatives :=
       [Regex.one (Regex.Chr 10) :: Regex.str "```" ++ [Regex.Eol]];
     Regex.flags := {| Regex.ignoreCase := true; Regex.multiline := false |} |}.

(** The cleanup of both clients, on a string. *)
Definition cleanup (markdown : JsString) : JsString :=
  Js.trim
    (Regex.remove_first fence_close_re
       (Regex.remove_first fence_open_re
          (Regex.remove_first fence_markdown_re markdown))).

(** The cleanup on whatever the variable of the given name holds:
    [replace] is a method of strings only, so any other value makes the
    first call of the chain throw a [TypeError]. *)
Definition cleanup_value (variable : string) (v : JsValue) : Result JsString :=
  match v with
  | VStr s => Ok (cleanup s)
  | _ =>
      match nullish_of v with
      | Some n => Err (Raw (TypeError (ReadOfNullish n (Js.lit "replace"))))
      | None =>
          Err (Raw (TypeError
                      (NotAFunction (Js.lit variable ++ Js.lit ".replace"))))
      end
  end.

(* ================================================================== *)
(** ** The generation clients *)
(* ================================================================== *)

(** What the engine decides: the message of a [TypeError] of the
    runtime, and the text [String(v)] of a value that is not a string;
    built-ins of the language. *)
Record Engine := {
  TypeError_message : Fault -> JsString;
  ToString : JsValue -> JsString
}.

(** The classification of the [catch] block of the streaming client. *)
Module Classify.

Section WithEngine.

Variable engine : Engine.

(** [err.message]: reading it from [null] or [undefined] throws. *)
Definition message_of (err : RawError) : Result JsValue :=
  match err with
  | TypeError f => Ok (VStr (TypeError_message engine f))
  | ThrownValue v =>
      match nullish_of v with
      | Some n => Err (Raw (TypeError (ReadOfNullish n (Js.lit "message"))))
      | None => Ok (get v (Js.lit "message"))
      end
  end.

(** Whether [m?.includes(...)] can be evaluated: [m] is [null] or
    [undefined], a string or an array; on any other value [includes] is
    not a function. *)
Definition searchable (m : JsValue) : bool :=
  match m with
  | VUndefined | VNull | VStr _ | VArr _ => true
  | _ => false
  end.

Definition is_text (p : JsString) (v : JsValue) : bool :=
  match v with VStr s => Js.eqb s p | _ => false end.

(** [m?.includes(p)] read as a condition, for a searchable [m]. *)
Definition includes (m : JsValue) (p : string) : bool :=
  match m with
  | VStr s => Js.includes s (Js.lit p)
  | VArr items => existsb (is_text (Js.lit p)) items
  | _ => false
  end.

(** [err.code === c] *)
Definition code_is (err : RawError) (c : string) : bool :=
  match err with
  | ThrownValue v => is_text (Js.lit c) (get v (Js.lit "code"))
  | TypeError _ => false
  end.

(** [`${m}`] *)
Definition message_text (m : JsValue) : JsString :=
  match m with
  | VStr s => s
  | VUndefined => Js.lit "undefined"
  | VNull => Js.lit "null"
  | _ => ToString engine m
  end.

(** The four branches, for the message [m] of [err]. *)
Definition classified (err : RawError) (m : JsValue) : ReadmeGenerationError :=
  if includes m "rate limit" then
    {| message := Js.lit "API rate limit exceeded. Please try again later.";
       code := RATE_LIMIT; retryable := true;
       originalError := Some (CausedBy err) |}
  else if includes m "authentication" || includes m "API key" then
    {| message := Js.lit "Invalid API key or authentication failed";
       code := AUTH_ERROR; retryable := false;
       originalError := Some (CausedBy err) |}
  else if includes m "network" || code_is err "ECONNREFUSED" then
    {| message := Js.lit "Network error occurred. Check your connection.";
       code := NETWORK_ERROR; retryable := true;
       originalError := Some (CausedBy err) |}
  else
    {| message := Js.lit "README generation failed: " ++ message_text m;
       code := UNKNOWN; retryable := false;
       originalError := Some (CausedBy err) |}.

(** The [catch] block: what it throws. Its first test reads
    [err.message] and calls [includes] on it, and either can throw. *)
Definition classify (err : RawError) : Thrown :=
  match message_of err with
  | Err fault => fault
  | Ok m =>
      if searchable m then Gen (classified err m)
      else Raw (TypeError (NotAFunction (Js.lit "err.message?.includes")))
  end.

End WithEngine.

End Classify.

Section Clients.

(** [JSON.stringify], on the values it is applied to here (objects, and
    truthy [error] fields): a built-in of the language. *)
Variable JSON_stringify : JsValue -> JsString.

Variable engine : Engine.

(* ------------------------------------------------------------------ *)
(** *** [generateReadmeStreaming] *)

(** [typeof chunk === 'string' ? chunk : chunk.toString()] *)
Definition chunk_text (chunk : Chunk) : Result JsString :=
  match chunk with
  | ChunkString s => Ok s
  | ChunkNull =>
      Err (Raw (TypeError (ReadOfNullish Null (Js.lit "toString"))))
  | ChunkUndefined =>
      Err (Raw (TypeError (ReadOfNullish Undefined (Js.lit "toString"))))
  | ChunkObject toString => toString
  end.

(** The [for await] loop: [failure] is what the iterator throws after its
    last item, if anything. *)
Fixpoint consume (onChunk : option Callback) (items : list Chunk)
    (failure : option RawError) (fullMarkdown : JsString) (w : World)
    : Result JsString * World :=
  match items with
  | [] =>
      match failure with
      | Some e => (Err (Raw e), w)
      | None => (Ok fullMarkdown, w)
      end
  | chunk :: rest =>
      match chunk_text chunk with
      | Err e => (Err e, w)
      | Ok text =>
          let fullMarkdown := fullMarkdown ++ text in
          match call_onChunk onChunk (VStr text) w with
          | (Some e, w) => (Err (Raw e), w)
          | (None, w) => consume onChunk rest failure fullMarkdown w
          end
      end
  end.

(** The options of the streaming call: [config.temperature || 0.7]. *)
Definition streaming_options (config : ReadmeConfig) : RunOptions :=
  {| opt_stream := true;
     opt_temperature :=
       match temperature config with
       | Some t => if number_truthy t then t else Finite (7 # 10)
       | None => Finite (7 # 10)
       end |}.

(** The call of the streaming client. *)
Definition streaming_call (key prompt : JsString) (config : ReadmeConfig) : Call :=
  {| call_key := key; call_model := modelName config;
     call_messages := request_messages prompt config;
     call_options := Some (streaming_options config) |}.

(** The three shapes of the response: what [fullMarkdown] holds after
    them. *)
Definition collect (onChunk : option Callback) (response : Response)
    (w : World) : Result JsValue * World :=
  match response with
  | AsyncIterable items failure =>
      match consume onChunk items failure [] w with
      | (Ok s, w) => (Ok (VStr s), w)
      | (Err e, w) => (Err e, w)
      end
  | Plain v =>
      if is_string v then
        match call_onChunk onChunk v w with
        | (Some e, w) => (Err (Raw e), w)
        | (None, w) => (Ok v, w)
        end
      else if truthy v && typeof_object v
              && has_key (Js.lit "content") v then
        let fullMarkdown := get v (Js.lit "content") in
        match call_onChunk onChunk fullMarkdown w with
        | (Some e, w) => (Err (Raw e), w)
        | (None, w) => (Ok fullMarkdown, w)
        end
      else (Ok (VStr []), w)
  end.

(** The [try] block. *)
Definition streaming_try (key prompt : JsString) (config : ReadmeConfig)
    (onChunk : option Callback) (w : World) : Result JsString * World :=
  let (reply, w) := run (streaming_call key prompt config) w in
  match reply with
  | Rejects e => (Err (Raw e), w)
  | Resolves response =>
      match collect onChunk response w with
      | (Err e, w) => (Err e, w)
      | (Ok fullMarkdown, w) =>
          match cleanup_value "fullMarkdown" fullMarkdown with
          | Err e => (Err e, w)
          | Ok fullMarkdown =>
              let validation := Validator.validateReadmeOutput fullMarkdown in
              let w :=
                if negb (Validator.valid validation)
                then console_warn (WarnValidation (Validator.errors validation)) w
                else w in
              (Ok fullMarkdown, w)
          end
      end
  end.

(** The name of a code, as the string it is. *)
Definition code_name (c : ErrorCode) : JsString :=
  match c with
  | AUTH_ERROR => Js.lit "AUTH_ERROR"
  | RATE_LIMIT => Js.lit "RATE_LIMIT"
  | NETWORK_ERROR => Js.lit "NETWORK_ERROR"
  | INVALID_OUTPUT => Js.lit "INVALID_OUTPUT"
  | UNKNOWN => Js.lit "UNKNOWN"
  end.

(** What was thrown in the [try] block, as the [catch] block reads it:
    nothing there throws a [ReadmeGenerationError], which would be read
    as the object it is. *)
Definition caught (err : Thrown) : RawError :=
  match err with
  | Raw e => e
  | Gen g =>
      ThrownValue (VObj [ (Js.lit "message", VStr (message g));
                          (Js.lit "code", VStr (code_name (code g)));
                          (Js.lit "retryable", VBool (retryable g)) ])
  end.

(** The [catch] block. *)
Definition streaming_catch (err : Thrown) : Thrown :=
  Classify.classify engine (caught err).

Definition generateReadmeStreaming (prompt : JsString) (config : ReadmeConfig)
    (onChunk : option Callback) (w : World) : Result JsString * World :=
  let key := BYTEZ_KEY w in
  if negb (present key) then (Err (Gen missing_key_error), w)
  else
    match streaming_try (key_text key) prompt config onChunk w with
    | (Ok markdown, w) => (Ok markdown, w)
    | (Err err, w) => (Err (streaming_catch err), w)
    end.

(* ------------------------------------------------------------------ *)
(** *** [generateReadme] *)

(** [const { error, output } = ...]: destructuring [null] or [undefined]
    throws. *)
Definition destructure (r : Response) : Result (JsValue * JsValue) :=
  match r with
  | Plain v =>
      match nullish_of v with
      | Some n => Err (Raw (TypeError (DestructureOfNullish n)))
      | None => Ok (get v (Js.lit "error"), get v (Js.lit "output"))
      end
  | AsyncIterable _ _ => Ok (VUndefined, VUndefined)
  end.

(** The "robust output parsing": the value of [finalMarkdown] after it. *)
Definition normalize (output : JsValue) : JsValue :=
  let finalMarkdown := VStr [] in
  if is_string output then output
  else if truthy output && typeof_object output then
    if truthy (get output (Js.lit "content")) then
      get output (Js.lit "content")
    else if truthy
              (opt_get
                 (opt_get (opt_get0 (get output (Js.lit "choices")))
                          (Js.lit "message"))
                 (Js.lit "content")) then
      get (get (get0 (get output (Js.lit "choices"))) (Js.lit "message"))
          (Js.lit "content")
    else VStr (JSON_stringify output)
  else finalMarkdown.

Definition provider_error (error : JsValue) : ReadmeGenerationError :=
  {| message := Js.lit "Bytez API Error: " ++ JSON_stringify error;
     code := UNKNOWN; retryable := true;
     originalError := Some (Reported error) |}.

Definition invalid_output (errors : list JsString) : ReadmeGenerationError :=
  {| message :=
       Js.lit "Generated README failed validation: "
       ++ Js.join (Js.lit ", ") errors;
     code := INVALID_OUTPUT; retryable := true; originalError := None |}.

(** The call of the non-streaming client: no options. *)
Definition plain_call (key prompt : JsString) (config : ReadmeConfig) : Call :=
  {| call_key := key; call_model := modelName config;
     call_messages := request_messages prompt config;
     call_options := None |}.

(** The closure handed to [withExponentialBackoff]. *)
Definition operation (prompt : JsString) (config : ReadmeConfig) (w : World)
    : Result JsString * World :=
  let key := BYTEZ_KEY w in
  if negb (present key) then (Err (Gen missing_key_error), w)
  else
    let (reply, w) := run (plain_call (key_text key) prompt config) w in
    match reply with
    | Rejects e => (Err (Raw e), w)
    | Resolves response =>
        match destructure response with
        | Err e => (Err e, w)
        | Ok (error, output) =>
            if truthy error then (Err (Gen (provider_error error)), w)
            else
              match cleanup_value "finalMarkdown" (normalize output) with
              | Err e => (Err e, w)
              | Ok finalMarkdown =>
                  let validation :=
                    Validator.validateReadmeOutput finalMarkdown in
                  if negb (Validator.valid validation)
                  then (Err (Gen (invalid_output
                                    (Validator.errors validation))), w)
                  else (Ok finalMarkdown, w)
              end
        end
    end.

(** 3 retries with 1s base delay. *)
Definition generateReadme (prompt : JsString) (config : ReadmeConfig)
    (w : World) (k : Backoff.Clock)
    : Result JsString * World * Backoff.Clock :=
  Backoff.withExponentialBackoff (operation prompt config) 3 1000 w k.

End Clients.

(* ================================================================== *)
(** ** Multi-model fallback: [generateReadmeWithFallback] *)
(* ================================================================== *)

Module Fallback.

(** [{ markdown, modelUsed }] *)
Record Generated := { markdown : JsString; modelUsed : JsString }.

(** [{ ...config, model }] *)
Definition with_model (config : ReadmeConfig) (m : JsString) : ReadmeConfig :=
  {| style := style config;
     includeArchitecture := includeArchitecture config;
     includeSecurity := includeSecurity config;
     includeContributing := includeContributing config;
     model := Some m;
     temperature := temperature config;
     streaming := streaming config |}.

Definition all_failed : ReadmeGenerationError :=
  {| message := Js.lit "All fallback models failed";
     code := UNKNOWN; retryable := false; originalError := None |}.

(** [err.retryable] in the [catch] block, evaluated before anything else
    there: on a caught [null] or [undefined] the read throws. *)
Definition read_retryable (err : Thrown) : Result bool :=
  match read_fault err "retryable" with
  | Some fault => Err (Raw (TypeError fault))
  | None => Ok (retryable_of err)
  end.

Section Orchestrator.

(** The state the client works on, and the client itself. *)
Context {St : Type}.
Variable generate : JsString -> ReadmeConfig -> St -> Result JsString * St.

(** The list of the candidates. *)
Variable models : list JsString.

(** [model === models[models.length - 1]] *)
Definition is_last_model (m : JsString) : bool :=
  match nth_error models (List.length models - 1) with
  | Some l => Js.eqb m l
  | None => false
  end.

(** The [for (const model of models)] loop over the candidates still to
    be tried, and the [throw] after it; [out] is what the orchestrator
    has written on the console. *)
Fixpoint attempt_from (prompt : JsString) (config : ReadmeConfig)
    (rest : list JsString) (s : St) (out : list ConsoleLine)
    : Result Generated * St * list ConsoleLine :=
  match rest with
  | [] => (Err (Gen all_failed), s, out)
  | m :: rest' =>
      let out := out ++ [LogAttempting m] in
      match generate prompt (with_model config m) s with
      | (Ok md, s) => (Ok {| markdown := md; modelUsed := m |}, s, out)
      | (Err err, s) =>
          match read_retryable err with
          | Err fault => (Err fault, s, out)
          | Ok retryable =>
              if negb retryable || is_last_model m
              then (Err err, s, out)
              else attempt_from prompt config rest' s (out ++ [WarnFailed m])
          end
      end
  end.

Definition run_fallback (prompt : JsString) (config : ReadmeConfig) (s : St)
    : Result Generated * St * list ConsoleLine :=
  attempt_from prompt config models s [].

End Orchestrator.

Definition models : list JsString :=
  [ Js.lit "openai/gpt-4o";
    Js.lit "openai/gpt-4-turbo";
    Js.lit "anthropic/claude-3-5-sonnet-20241022";
    Js.lit "openai/gpt-3.5-turbo" ].

(** The client of the module on a world and a clock. *)
Definition client (JSON_stringify : JsValue -> JsString)
    (prompt : JsString) (config : ReadmeConfig)
    (s : World * Backoff.Clock)
    : Result JsString * (World * Backoff.Clock) :=
  let '(r, w, k) := generateReadme JSON_stringify prompt config (fst s) (snd s) in
  (r, (w, k)).

Definition generateReadmeWithFallback (JSON_stringify : JsValue -> JsString)
    (prompt : JsString) (config : ReadmeConfig) (w : World) (k : Backoff.Clock)
    : Result Generated * (World * Backoff.Clock) * list ConsoleLine :=
  run_fallback (client JSON_stringify) models prompt config (w, k).

End Fallback.

(* ================================================================== *)
(** ** The words of the specification, as definitions *)
(* ================================================================== *)

Module PromptSpec.
Import Prompt.

(** The style clause: the one of the style given, of [standard] without. *)
Definition style_clause (config : ReadmeConfig) : JsString :=
  styleAdditions (match style config with Some s => s | None => standard end).

Definition optional (b : option bool) (clause : JsString) : JsString :=
  if flag b then clause else [].

(** The configuration with one flag replaced. *)
Definition set_architecture (b : option bool) (c : ReadmeConfig) : ReadmeConfig :=
  {| style := style c; includeArchitecture := b;
     includeSecurity := includeSecurity c;
     includeContributing := includeContributing c;
     model := model c; temperature := temperature c;
     streaming := streaming c |}.

Definition set_security (b : option bool) (c : ReadmeConfig) : ReadmeConfig :=
  {| style := style c; includeArchitecture := includeArchitecture c;
     includeSecurity := b;
     includeContributing := includeContributing c;
     model := model c; temperature := temperature c;
     streaming := streaming c |}.

Definition set_contributing (b : option bool) (c : ReadmeConfig) : ReadmeConfig :=
  {| style := style c; includeArchitecture := includeArchitecture c;
     includeSecurity := includeSecurity c;
     includeContributing := b;
     model := model c; temperature := temperature c;
     streaming := streaming c |}.

End PromptSpec.

Module ValidatorSpec.
Import Validator.

(** The four checks, as conditions of failure. *)
Definition length_check_fails (markdown : JsString) : bool :=
  Js.length markdown <? 200.
Definition fence_check_fails (markdown : JsString) : bool :=
  negb (codeBlockCount markdown mod 2 =? 0).
Definition meta_check_fails (markdown : JsString) : bool :=
  Regex.test metaCommentary (Js.slice0 500 markdown).

(** The number of matches of the heading pattern, as the engine finds
    them. *)
Definition header_count (markdown : JsString) : nat :=
  List.length (Regex.all_matches header_re 0 None markdown).

(** The headings read directly, without regular expressions. *)











(** The problem of a check, when it fails. *)
Definition report (failed : bool) (problem : JsString) : list JsString :=
  if failed then [problem] else [].

(** A fence read directly: three backticks, counted from left to right
    without overlap. *)
Definition is_backtick (c : N) : bool := (c =? 96)%N.

Fixpoint count_fences (s : JsString) : nat :=
  match s with
  | a :: ((b :: c :: r) as t) =>
      if is_backtick a && is_backtick b && is_backtick c
      then S (count_fences r)
      else count_fences t
  | _ => 0
  end.

(** A phrase read directly: it stands at the head of [s], or somewhere in
    [s], letters compared without their case. *)
Fixpoint starts_with_ci (p s : JsString) : bool :=
  match p, s with
  | [], _ => true
  | a :: p', b :: s' => (Regex.canon a =? Regex.canon b)%N && starts_with_ci p' s'
  | _ :: _, [] => false
  end.

Fixpoint includes_ci (s p : JsString) : bool :=
  starts_with_ci p s ||
  match s with
  | [] => false
  | _ :: s' => includes_ci s' p
  end.

Definition banned_phrases : list JsString :=
  [Js.lit "here is"; Js.lit "i have generated"; Js.lit "i've created";
   Js.lit "below is"].

Definition contains_banned (s : JsString) : bool :=
  existsb (includes_ci s) banned_phrases.

(** The character before the position reached after [taken]. *)
Definition prev_after (prev : option N) (taken : JsString) : option N :=
  List.last (List.map Some taken) prev.

(** A heading as the pattern reads it: one to three [#], then white space,
    then text up to the end of a line. *)
Definition heading_shape (hashes space text : JsString) : Prop :=
  1 <= List.length hashes <= 3
  /\ Forall (fun c => c = 35%N) hashes
  /\ 1 <= List.length space
  /\ Forall (fun c => Js.is_space c = true) space
  /\ 1 <= List.length text
  /\ Forall (fun c => Js.is_line_terminator c = false) text.

Definition is_some {A : Type} (o : option A) : bool :=
  match o with Some _ => true | None => false end.

Definition literal (c : N) : Regex.Atom := Regex.Rep (Regex.Chr c) 1 (Some 1).

Definition ci : Regex.Flags :=
  {| Regex.ignoreCase := true; Regex.multiline := false |}.


End ValidatorSpec.

Module NormalizeSpec.

(** [output.choices?.[0]?.message?.content] *)
Definition choices_content (output : JsValue) : JsValue :=
  opt_get (opt_get (opt_get0 (get output (Js.lit "choices"))) (Js.lit "message"))
          (Js.lit "content").

End NormalizeSpec.

Module ClientSpec.

(** The callback called with each of the values, in order. *)
Definition deliver_all (values : list JsValue) (w : World) : World :=
  fold_left (fun w v => deliver v w) values w.

(** What the streaming client writes on the console for a document. *)
Definition validation_warning (markdown : JsString) : list ConsoleLine :=
  let validation := Validator.validateReadmeOutput markdown in
  if Validator.valid validation then []
  else [WarnValidation (Validator.errors validation)].

(** The temperature of a call, when it carries options. *)
Definition call_temperature (c : Call) : option JsNumber :=
  option_map opt_temperature (call_options c).

(** A provider that rejects every call with the same exception. *)
Definition always_rejects (w : World) (e : RawError) : Prop :=
  forall history c, provider w history c = Rejects e.

(** What a callback that is given has been called with. *)
Definition heard (onChunk : option Callback) (values : list JsValue)
    : list JsValue :=
  match onChunk with Some _ => values | None => [] end.

(** A callback that returns whatever it is called with. *)
Definition never_throws (onChunk : option Callback) : Prop :=
  forall callback, onChunk = Some callback ->
    forall history v, callback history v = None.

End ClientSpec.

Module FallbackSpec.
Import Fallback.

(** The candidates of [before] are attempted in turn from the state [s] and
    each fails with a retryable error: the state they leave behind. *)
Fixpoint failed_through {St : Type}
    (generate : JsString -> ReadmeConfig -> St -> Result JsString * St)
    (prompt : JsString) (config : ReadmeConfig)
    (before : list JsString) (s : St) : option St :=
  match before with
  | [] => Some s
  | m :: rest =>
      match generate prompt (with_model config m) s with
      | (Err err, s') =>
          if retryable_of err
          then failed_through generate prompt config rest s'
          else None
      | (Ok _, _) => None
      end
  end.

(** What the console shows of candidates that failed and were passed. *)
Definition trail (before : list JsString) : list ConsoleLine :=
  flat_map (fun m => [LogAttempting m; WarnFailed m]) before.

(** What leaves the [catch] block for a caught [err] that is not passed:
    [err] itself, or the [TypeError] of reading [retryable] from [null]
    or [undefined]. *)
Definition rethrown (err : Thrown) : Thrown :=
  match read_retryable err with
  | Err fault => fault
  | Ok _ => err
  end.

End FallbackSpec.

(* ================================================================== *)
(** ** Reading numbers *)
(* ================================================================== *)

Module DoubleSpec.

(** The order of the numbers: [NaN] is not compared. *)
Definition le (x y : JsNumber) : Prop :=
  match x, y with
  | NaN, _ | _, NaN => False
  | Infinity true, _ => True
  | _, Infinity false => True
  | Finite a, Finite b => (a <= b)%Q
  | _, _ => False
  end.

(** A number with at most 53 significant bits, whose last place is not
    below that of the subnormals: a double, when it is below [2^1024]. *)
Definition representable (q : Q) : Prop :=
  exists m e : Z,
    (Z.abs m < 2 ^ 53)%Z /\ (-1074 <= e)%Z /\ (q == inject_Z m * 2 ^ e)%Q.

(** The double nearest to 0.3. *)
Definition three_tenths : Q := 5404319552844595 # 18014398509481984.

End DoubleSpec.

(* ================================================================== *)
(** ** Reading a timeline *)
(* ================================================================== *)

Module Schedule.
Import Backoff.

(** How many times the operation was called. *)
Fixpoint invocations (l : list TimerEvent) : nat :=
  match l with
  | [] => 0
  | Invoked :: r => S (invocations r)
  | _ :: r => invocations r
  end.

(** The delays slept, in order. *)
Fixpoint sleeps (l : list TimerEvent) : list JsNumber :=
  match l with
  | [] => []
  | Slept d :: r => d :: sleeps r
  | _ :: r => sleeps r
  end.

(** The window of the specification: the delay of attempt [n] is a
    number of [[baseDelay * 2^n, baseDelay * 2^n * 1.3)]. *)
Definition in_window (baseDelay : Q) (n : nat) (d : JsNumber) : Prop :=
  exists q : Q,
    d = Finite q
    /\ (baseDelay * inject_Z (2 ^ Z.of_nat n) <= q
        /\ q < baseDelay * inject_Z (2 ^ Z.of_nat n) * (13 # 10))%Q.

(** The window with its upper end, and the room the three roundings of
    the computation take: a number of
    [[baseDelay * 2^n, baseDelay * 2^n * 1.3 * (1 + 2^-52)]]. *)
Definition in_closed_window (baseDelay : Q) (n : nat) (d : JsNumber) : Prop :=
  exists q : Q,
    d = Finite q
    /\ (baseDelay * inject_Z (2 ^ Z.of_nat n) <= q
        /\ q <= baseDelay * inject_Z (2 ^ Z.of_nat n) * (13 # 10)
                * (1 + 2 ^ (-52)))%Q.

(** The events of [n] failed attempts, each followed by its warning and
    its sleep, from the attempt [attempt] and the draw [drawn] on. *)
Fixpoint retries (maxRetries : Z) (baseDelay : Q) (rand : nat -> Q)
    (drawn attempt n : nat) : list TimerEvent :=
  match n with
  | 0 => []
  | S n' =>
      let d := totalDelay baseDelay attempt (rand drawn) in
      Invoked :: Warned (attempt + 1) maxRetries d :: Slept d
      :: retries maxRetries baseDelay rand (S drawn) (S attempt) n'
  end.

(** An operation that fails in every state. *)
Definition always_fails {St T : Type} (operation : St -> Result T * St) : Prop :=
  forall s, exists e s', operation s = (Err e, s').

(** The state before the call number [n] (from 0) of the operation. *)
Definition state_before {St T : Type} (operation : St -> Result T * St)
    (n : nat) (s : St) : St :=
  Nat.iter n (fun s => snd (operation s)) s.

End Schedule.

(* ================================================================== *)
(** ** Concrete data for the examples *)
(* ================================================================== *)

Module Sample.

(** [JSON.stringify] on the values of the examples: exact on [null],
    booleans, integers, strings without control characters, arrays and
    objects of these. *)
Definition escape (c : N) : JsString :=
  if (c =? 34)%N then Js.lit "\" ++ Js.dquote
  else if (c =? 92)%N then Js.lit "\\"
  else if (c =? 10)%N then Js.lit "\n"
  else [c].

Definition quote (s : JsString) : JsString :=
  Js.dquote ++ List.concat (List.map escape s) ++ Js.dquote.

Definition number_text (n : JsNumber) : JsString :=
  match n with
  | Finite q =>
      if (Z.pos (Qden q) =? 1)%Z
      then Js.lit (NilZero.string_of_int (Z.to_int (Qnum q)))
      else Js.lit (NilZero.string_of_int (Z.to_int (Qnum q))) ++ Js.lit "/"
           ++ Js.lit (NilZero.string_of_int (Z.to_int (Z.pos (Qden q))))
  | _ => Js.lit "null"
  end.

Fixpoint stringify (v : JsValue) : JsString :=
  match v with
  | VUndefined => Js.lit "undefined"
  | VNull => Js.lit "null"
  | VBool true => Js.lit "true"
  | VBool false => Js.lit "false"
  | VNum n => number_text n
  | VStr s => quote s
  | VArr items =>
      Js.lit "["
      ++ Js.join (Js.lit ",")
           (List.map (fun x => match x with
                               | VUndefined => Js.lit "null"
                               | _ => stringify x
                               end) items)
      ++ Js.lit "]"
  | VObj fields =>
      Js.lit "{"
      ++ Js.join (Js.lit ",")
           ((fix members (l : list (JsString * JsValue)) : list JsString :=
               match l with
               | [] => []
               | (_, VUndefined) :: r => members r
               | (k, x) :: r => (quote k ++ Js.lit ":" ++ stringify x) :: members r
               end) fields)
      ++ Js.lit "}"
  end.

(** An operation without state that throws at every call. *)
Definition failing : unit -> Result unit * unit :=
  fun _ => (Err (Raw (ThrownValue (VStr (Js.lit "boom")))), tt).

(** The messages of V8 for the [TypeError]s of the runtime, and
    [String(v)] on the values of the examples. *)
Definition nullish_name (n : Nullish) : JsString :=
  match n with Null => Js.lit "null" | Undefined => Js.lit "undefined" end.

Definition v8_message (f : Fault) : JsString :=
  match f with
  | ReadOfNullish n property =>
      Js.lit "Cannot read properties of " ++ nullish_name n
      ++ Js.lit " (reading '" ++ property ++ Js.lit "')"
  | NotAFunction callee => callee ++ Js.lit " is not a function"
  | DestructureOfNullish n =>
      Js.lit "Cannot destructure property 'error' of '(intermediate value)' as it is "
      ++ nullish_name n ++ Js.lit "."
  end.

Fixpoint text_of (v : JsValue) : JsString :=
  match v with
  | VUndefined => Js.lit "undefined"
  | VNull => Js.lit "null"
  | VBool true => Js.lit "true"
  | VBool false => Js.lit "false"
  | VNum n => number_text n
  | VStr s => s
  | VArr items =>
      Js.join (Js.lit ",")
        (List.map (fun x => match x with
                            | VUndefined | VNull => []
                            | _ => text_of x
                            end) items)
  | VObj _ => Js.lit "[object Object]"
  end.

Definition v8 : Engine :=
  {| TypeError_message := v8_message; ToString := text_of |}.

(** A callback that only records. *)
Definition recording : Callback := fun _ _ => None.

(** A callback that throws at its second call. *)
Definition impatient : Callback :=
  fun history _ =>
    match history with
    | [] => None
    | _ :: _ => Some (ThrownValue (VStr (Js.lit "enough")))
    end.

(** The largest value of [Math.random] in V8: [1 - 2^-52]. *)
Definition largest_draw : Q := 4503599627370495 # 4503599627370496.

(** The double 141.73835426255502. *)
Definition odd_delay : Q := 4986974995632423 # 35184372088832.

(** A clock before anything happened, whose draws are all [r]. *)
Definition clock (r : Q) : Backoff.Clock :=
  {| Backoff.random := fun _ => r; Backoff.drawn := 0; Backoff.timeline := [] |}.

(** A world with the given environment and provider, before anything
    happened. *)
Definition world (key : option JsString)
    (provider : list Call -> Call -> Reply) : World :=
  {| BYTEZ_API_KEY := key; OPENAI_API_KEY := None; provider := provider;
     calls := []; console := []; delivered := [] |}.

(** [new Error('network timeout')] *)
Definition network_down : RawError :=
  ThrownValue (VObj [(Js.lit "message", VStr (Js.lit "network timeout"))]).

(** No credential at all; the provider would answer. *)
Definition no_key_world : World :=
  world None (fun _ _ => Resolves (Plain (VStr (Js.lit "# Title")))).

(** A credential, and a provider whose every call throws. *)
Definition offline_world : World :=
  world (Some (Js.lit "key")) (fun _ _ => Rejects network_down).

(** A credential, and a provider whose every call rejects with [null]. *)
Definition null_world : World :=
  world (Some (Js.lit "key")) (fun _ _ => Rejects (ThrownValue VNull)).

(** The fragments of the example of the specification. *)
Definition fragments : list JsString :=
  [ Js.lit "# Title" ++ Js.nl;
    Js.nl ++ Js.lit "Body text that is long enough..." ].

(** Fragments of a document in its fence, with a line break at the end. *)
Definition fenced_fragments : list JsString :=
  [ Js.lit "```markdown" ++ Js.nl ++ Js.lit "# Title" ++ Js.nl;
    Js.lit "Body" ++ Js.nl ++ Js.lit "```" ++ Js.nl ].

Definition fenced_world : World :=
  world (Some (Js.lit "key"))
        (fun _ _ =>
           Resolves (AsyncIterable (List.map ChunkString fenced_fragments) None)).

Definition streaming_world : World :=
  world (Some (Js.lit "key"))
        (fun _ _ => Resolves (AsyncIterable (List.map ChunkString fragments) None)).

(** A credential, and a provider whose stream yields the fragments and
    then throws. *)
Definition broken_stream_world : World :=
  world (Some (Js.lit "key"))
        (fun _ _ => Resolves (AsyncIterable (List.map ChunkString fragments)
                                (Some network_down))).

(** A configuration whose temperature is 0. *)
Definition cold_config : ReadmeConfig :=
  {| style := None; includeArchitecture := None; includeSecurity := None;
     includeContributing := None; model := None;
     temperature := Some (Finite 0); streaming := None |}.

(** A credential, and a provider whose answer carries a number where the
    text is expected: [{ output: { content: 42 } }]. *)
Definition numeric_world : World :=
  world (Some (Js.lit "key"))
        (fun _ _ =>
           Resolves (Plain (VObj [(Js.lit "output",
                                   VObj [(Js.lit "content", VNum (Finite 42))])]))).

(** Two candidates. *)
Definition model_a : JsString := Js.lit "a".
Definition model_b : JsString := Js.lit "b".



(** A document that passes the validator. *)
Definition readme : JsString :=
  Js.lit "# Project" ++ Js.nl ++ Js.nl ++ Js.lit "## Usage" ++ Js.nl ++ Js.nl
  ++ List.repeat 120%N 200.

(** A credential, and a provider that reports an error for the first
    candidate and answers with a document for the others. *)
Definition overloaded_world : World :=
  world (Some (Js.lit "key"))
        (fun _ c =>
           if Js.eqb (call_model c) (Js.lit "openai/gpt-4o")
           then Resolves (Plain (VObj [(Js.lit "error", VStr (Js.lit "overloaded"))]))
           else Resolves (Plain (VObj [(Js.lit "output", VStr readme)]))).

(** [{ content: "", choices: [{ message: { content: "hi" } }] }] *)
Definition empty_content_payload : JsValue :=
  VObj [ (Js.lit "content", VStr []);
         (Js.lit "choices",
          VArr [ VObj [ (Js.lit "message",
                         VObj [ (Js.lit "content", VStr (Js.lit "hi")) ]) ] ]) ].

End Sample.

(* ================================================================== *)
(** ** Sums of delays *)
(* ================================================================== *)

Module Delays.

(** The time slept in all. *)
Definition total (delays : list Q) : Q := fold_right Qplus 0%Q delays.

(** The delays, all of them finite, as the numbers they are. *)
Definition finite (delays : list Q) : list JsNumber := List.map Finite delays.

End Delays.

(* ================================================================== *)
(** ** Reading a stream and a console *)
(* ================================================================== *)

Module Stream.

(** The texts of the items a stream yields before the first item that
    has none: [null], [undefined], or a value whose [toString()] throws. *)
Fixpoint received (items : list Chunk) : list JsString :=
  match items with
  | [] => []
  | chunk :: rest =>
      match chunk_text chunk with
      | Ok text => text :: received rest
      | Err _ => []
      end
  end.

(** Whether every item has a text. *)
Fixpoint well_formed (items : list Chunk) : bool :=
  match items with
  | [] => true
  | chunk :: rest =>
      match chunk_text chunk with
      | Ok _ => well_formed rest
      | Err _ => false
      end
  end.

(** The outcome of the loop over a stream whose callback, if any, never
    throws. *)
Fixpoint stream_result (items : list Chunk) (failure : option RawError)
    (fullMarkdown : JsString) : Result JsString :=
  match items with
  | [] =>
      match failure with
      | Some e => Err (Raw e)
      | None => Ok fullMarkdown
      end
  | chunk :: rest =>
      match chunk_text chunk with
      | Err e => Err e
      | Ok text => stream_result rest failure (fullMarkdown ++ text)
      end
  end.

(** A world with the record of the callback left out. *)
Definition forget_delivered (w : World) : World :=
  {| BYTEZ_API_KEY := BYTEZ_API_KEY w; OPENAI_API_KEY := OPENAI_API_KEY w;
     provider := provider w; calls := calls w;
     console := console w; delivered := [] |}.



End Stream.

(* ================================================================== *)
(** ** The outcomes of the non-streaming client *)
(* ================================================================== *)

Module Outcome.

Section WithSerializer.

Variable JSON_stringify : JsValue -> JsString.

(** The errors the closure builds itself. *)
Definition own_error (g : ReadmeGenerationError) : Prop :=
  g = missing_key_error
  \/ (exists error, truthy error = true /\ g = provider_error JSON_stringify error)
  \/ (exists markdown,
         Validator.valid (Validator.validateReadmeOutput markdown) = false
         /\ g = invalid_output
                  (Validator.errors (Validator.validateReadmeOutput markdown))).

Definition good_outcome (r : Result JsString) : Prop :=
  match r with
  | Ok markdown =>
      Validator.valid (Validator.validateReadmeOutput markdown) = true
      /\ exists text, markdown = cleanup text
  | Err (Gen g) => own_error g
  | Err (Raw _) => True
  end.

End WithSerializer.

End Outcome.

(* ================================================================== *)
(** ** The routes: reading the repository URL ([api/generate/route.ts])

    The three handlers ([POST] and [GET] of [api/generate/route.ts], and
    the [POST] that takes the token of the session) read the owner and the
    repository off [repoUrl] with the same five lines. *)
(* ================================================================== *)

Module Replace.

(** [s.replace(re, replacement)] for a regular expression without [g] and
    a replacement without [$]: the first match is replaced. *)
Definition replace_first (re : Regex.t) (replacement s : JsString) : JsString :=
  match Regex.search re None s with
  | Some (i, n) => firstn i s ++ replacement ++ skipn (i + n) s
  | None => s
  end.

(** [s.replace(re, '')] for a [g] regular expression: every match is
    removed, the search resuming after each match (one character later
    after an empty one); [skip] counts the characters of the last match
    still to be dropped. *)
Fixpoint remove_all (re : Regex.t) (skip : nat) (prev : option N)
    (s : JsString) : JsString :=
  match skip with
  | S k =>
      match s with
      | [] => []
      | c :: s' => remove_all re k (Some c) s'
      end
  | 0 =>
      match s with
      | [] => []
      | c :: s' =>
          match Regex.match_here re prev s with
          | Some (S n) => remove_all re n (Some c) s'
          | Some 0 | None => c :: remove_all re 0 (Some c) s'
          end
      end
  end.

(** [s.replace(p, '')] for a string [p]: its first occurrence is removed. *)
Fixpoint remove_first_occurrence (p s : JsString) : JsString :=
  if Js.starts_with p s then skipn (List.length p) s
  else
    match s with
    | [] => []
    | c :: s' => c :: remove_first_occurrence p s'
    end.

(** [s.split(sep)] for a separator of one character. *)
Fixpoint split (sep : N) (s : JsString) : list JsString :=
  match s with
  | [] => [[]]
  | c :: s' =>
      if (c =? sep)%N then [] :: split sep s'
      else
        match split sep s' with
        | segment :: rest => (c :: segment) :: rest
        | [] => [[c]]
        end
  end.

End Replace.

Module Route.
Import Replace.

(** [/^git@github.com:/]: the dot is not escaped. *)
Definition ssh_prefix_re : Regex.t :=
  {| Regex.alternatives :=
       [Regex.Bol :: Regex.str "git@github" ++ [Regex.one Regex.Dot]
          ++ Regex.str "com:"];
     Regex.flags := {| Regex.ignoreCase := false; Regex.multiline := false |} |}.

(** [/\.git$/i] *)
Definition git_suffix_re : Regex.t :=
  {| Regex.alternatives := [Regex.str ".git" ++ [Regex.Eol]];
     Regex.flags := {| Regex.ignoreCase := true; Regex.multiline := false |} |}.

(** [/\/+$/g] *)
Definition trailing_slashes_re : Regex.t :=
  {| Regex.alternatives := [[Regex.plus (Regex.Chr 47); Regex.Eol]];
     Regex.flags := {| Regex.ignoreCase := false; Regex.multiline := false |} |}.

Definition github : JsString := Js.lit "https://github.com/".

(** [const cleaned = repoUrl.replace(...).replace(...).replace(...)] *)
Definition cleaned (repoUrl : JsString) : JsString :=
  remove_all trailing_slashes_re 0 None
    (Regex.remove_first git_suffix_re
       (replace_first ssh_prefix_re github repoUrl)).

(** [cleaned.replace('https://github.com/', '').split('/')] *)
Definition parts (repoUrl : JsString) : list JsString :=
  split 47 (remove_first_occurrence github (cleaned repoUrl)).

(** What the handlers make of the URL: the owner and the repository, or
    the answer 400 "Invalid GitHub URL format". *)
Inductive Parsed :=
| Repository (owner repo : JsString)
| InvalidUrl.

Definition parse (repoUrl : JsString) : Parsed :=
  let owner := nth_error (parts repoUrl) 0 in
  let repo := nth_error (parts repoUrl) 1 in
  if negb (present owner) || negb (present repo) then InvalidUrl
  else Repository (key_text owner) (key_text repo).

End Route.

(* ================================================================== *)
(** ** The routes: the files of the repository ([analyzeRepository]) *)
(* ================================================================== *)

Module Files.

(** [fileNames.includes(name)] *)
Definition includes (fileNames : list JsString) (name : JsString) : bool :=
  existsb (Js.eqb name) fileNames.

Definition well_known : list JsString :=
  [Js.lit "package.json"; Js.lit "tsconfig.json"; Js.lit "Dockerfile";
   Js.lit ".env.example"; Js.lit "requirements.txt"].

Record Structure := {
  hasPackageJson : bool;
  hasDockerfile : bool;
  hasTsConfig : bool;
  mainFiles : list JsString
}.

(** [const structure = { ... }] *)
Definition structure (fileNames : list JsString) : Structure :=
  {| hasPackageJson := includes fileNames (Js.lit "package.json");
     hasDockerfile :=
       includes fileNames (Js.lit "Dockerfile")
       || includes fileNames (Js.lit "docker-compose.yml");
     hasTsConfig := includes fileNames (Js.lit "tsconfig.json");
     mainFiles := filter (fun name => includes well_known name) fileNames |}.

(** [/^readme\.md$/i] *)
Definition readme_re : Regex.t :=
  {| Regex.alternatives := [Regex.Bol :: Regex.str "readme.md" ++ [Regex.Eol]];
     Regex.flags := {| Regex.ignoreCase := true; Regex.multiline := false |} |}.

(** [fileNames.some(name => /^readme\.md$/i.test(name))] *)
Definition readmeExists (fileNames : list JsString) : bool :=
  existsb (Regex.test readme_re) fileNames.

End Files.

(* ================================================================== *)
(** ** Direct readings of the steps of the routes *)
(* ================================================================== *)

Module RouteSpec.

(** The text ends with [p], letters compared without their case. *)
Definition ends_with_ci (p s : JsString) : bool :=
  (List.length p <=? List.length s)
  && ValidatorSpec.starts_with_ci p (skipn (List.length s - List.length p) s).

(** The text is [p], letters compared without their case. *)
Definition equal_ci (p s : JsString) : bool :=
  (List.length s =? List.length p) && ValidatorSpec.starts_with_ci p s.

(** The text without its ending [p], when it has it. *)
Definition without_suffix_ci (p s : JsString) : JsString :=
  if ends_with_ci p s then firstn (List.length s - List.length p) s else s.

Definition is_slash (c : N) : bool := (c =? 47)%N.

(** The text without the slashes at its end. *)
Fixpoint without_trailing_slashes (s : JsString) : JsString :=
  match s with
  | [] => []
  | c :: s' =>
      if forallb is_slash s then [] else c :: without_trailing_slashes s'
  end.

(** A name of an owner or of a repository: not empty, without slash. *)
Definition plain_name (s : JsString) : Prop := s <> [] /\ ~ In 47%N s.

Definition ssh : JsString := Js.lit "git@github.com:".

(** The ssh prefix with any character that is not a line terminator in
    the place of its dot. *)
Definition ssh_with (d : N) : JsString :=
  Js.lit "git@github" ++ [d] ++ Js.lit "com:".

(** The prefixes under which the handlers find the owner and the
    repository. *)
Definition accepted_prefix (p : JsString) : Prop :=
  p = Route.github
  \/ exists d, Js.is_line_terminator d = false /\ p = ssh_with d.

End RouteSpec.

(* ================================================================== *)
(** ** Direct readings of the cleanup *)
(* ================================================================== *)

Module CleanupSpec.

(** The text does not start with white space. *)
Definition starts_clean (t : JsString) : Prop :=
  match t with
  | [] => True
  | c :: _ => Js.is_space c = false
  end.

(** The text without its beginning [p], when it has it, letters compared
    without their case. *)
Definition without_prefix_ci (p s : JsString) : JsString :=
  if ValidatorSpec.starts_with_ci p s then skipn (List.length p) s else s.

(** The two opening fences with the line break after them, and the
    closing fence with the line break before it. *)
Definition opening_markdown : JsString := Js.lit "```markdown" ++ Js.nl.
Definition opening_fence : JsString := Js.lit "```" ++ Js.nl.
Definition closing_fence : JsString := Js.nl ++ Js.lit "```".

(** The text after the two replacements at its start, one after the
    other. *)
Definition stripped_start (s : JsString) : JsString :=
  without_prefix_ci opening_fence (without_prefix_ci opening_markdown s).

(** The cleanup read directly, without regular expressions: the opening
    fences are taken from the very start of the text, the closing fence
    from its very end, and only then is the white space around trimmed. *)
Definition direct_cleanup (s : JsString) : JsString :=
  Js.trim (RouteSpec.without_suffix_ci closing_fence (stripped_start s)).

(** The cleanup in the words of the specification: a leading fence line
    and a trailing fence line are stripped, when present, and the white
    space around is trimmed. The first line is a fence line when it is
    the fence, with or without [markdown]; the last line is one when it
    is the fence, be it terminated by a line break or not. *)
Definition without_leading_fence_line (s : JsString) : JsString :=
  if ValidatorSpec.starts_with_ci opening_markdown s
  then skipn (List.length opening_markdown) s
  else without_prefix_ci opening_fence s.

Definition without_trailing_fence_line (s : JsString) : JsString :=
  let t := RouteSpec.without_suffix_ci Js.nl s in
  if RouteSpec.ends_with_ci closing_fence t
  then firstn (List.length t - List.length closing_fence) t
  else s.

Definition specified_cleanup (s : JsString) : JsString :=
  Js.trim (without_trailing_fence_line (without_leading_fence_line s)).

End CleanupSpec.

(* ================================================================== *)
(** * Properties *)
(* ================================================================== *)

(** ** Strings *)

Lemma Js_eqb_eq (a b : JsString) : Js.eqb a b = true <-> a = b.
Proof.
  unfold Js.eqb. destruct (list_eq_dec N.eq_dec a b); split; congruence.
Qed.

Lemma Js_eqb_refl (a : JsString) : Js.eqb a a = true.
Proof. now apply Js_eqb_eq. Qed.

Lemma Js_eqb_neq (a b : JsString) : Js.eqb a b = false <-> a <> b.
Proof.
  unfold Js.eqb. destruct (list_eq_dec N.eq_dec a b); split; congruence.
Qed.

(* ------------------------------------------------------------------ *)
(** ** The arithmetic of doubles *)

Module DoubleFacts.
Import Double DoubleSpec.
Local Open Scope Q_scope.
Local Unset Implicit Arguments.

Lemma pow_pos (e : Z) : 0 < 2 ^ e.
Proof. now apply Qpower_0_lt. Qed.

Lemma pow_add (a b : Z) : 2 ^ (a + b) == 2 ^ a * 2 ^ b.
Proof. apply Qpower_plus. discriminate. Qed.

Lemma pow_succ (a : Z) : 2 ^ (a + 1) == 2 * 2 ^ a.
Proof. rewrite pow_add. change (2 ^ 1) with 2. ring. Qed.

Lemma pow_le (a b : Z) : (a <= b)%Z -> 2 ^ a <= 2 ^ b.
Proof. intros H. apply Qpower_le_compat_l; [exact H | discriminate]. Qed.

Lemma pow_lt (a b : Z) : (a < b)%Z -> 2 ^ a < 2 ^ b.
Proof. intros H. apply Qpower_lt_compat_l; [exact H | reflexivity]. Qed.

Lemma pow_lt_inv (a b : Z) : 2 ^ a < 2 ^ b -> (a < b)%Z.
Proof. intros H. apply (Qpower_lt_compat_l_inv 2); [exact H | reflexivity]. Qed.

Lemma pow_inject (n : Z) : (0 <= n)%Z -> inject_Z (2 ^ n) == 2 ^ n.
Proof. intros H. now rewrite Zpower_Qpower. Qed.

(** *** The binary exponent *)

Lemma ilog2_spec (q : Q) :
  0 < q -> 2 ^ ilog2 q <= q /\ q < 2 ^ (ilog2 q + 1).
Proof.
  intros Hq. unfold ilog2.
  destruct q as [n d]. cbn [Qnum Qden].
  assert (Hn : (0 < n)%Z) by (unfold Qlt in Hq; cbn in Hq; lia).
  set (ln := Z.log2 n). set (ld := Z.log2 (Z.pos d)).
  assert (Hln : (0 <= ln)%Z) by apply Z.log2_nonneg.
  assert (Hld : (0 <= ld)%Z) by apply Z.log2_nonneg.
  destruct (Z.log2_spec n Hn) as [Hn1 Hn2].
  destruct (Z.log2_spec (Z.pos d) ltac:(lia)) as [Hd1 Hd2].
  fold ln in Hn1, Hn2. fold ld in Hd1, Hd2.
  set (N := inject_Z n). set (D := inject_Z (Z.pos d)).
  assert (HD : 0 < D) by (unfold D; change 0 with (inject_Z 0);
                          rewrite <- Zlt_Qlt; lia).
  assert (Hq' : n # d == N / D) by apply Qmake_Qdiv.
  assert (HqD : (n # d) * D == N).
  { rewrite Hq'. field. intros E. rewrite E in HD. discriminate. }
  assert (B1 : 2 ^ ln <= N).
  { rewrite <- pow_inject by lia. unfold N. now rewrite <- Zle_Qle. }
  assert (B2 : N < 2 ^ (ln + 1)).
  { rewrite <- pow_inject by lia. unfold N. rewrite <- Zlt_Qlt.
    now rewrite <- Z.add_1_r in Hn2. }
  assert (B3 : 2 ^ ld <= D).
  { rewrite <- pow_inject by lia. unfold D. now rewrite <- Zle_Qle. }
  assert (B4 : D < 2 ^ (ld + 1)).
  { rewrite <- pow_inject by lia. unfold D. rewrite <- Zlt_Qlt.
    now rewrite <- Z.add_1_r in Hd2. }
  set (a := (ln - ld)%Z).
  destruct (Qle_bool (2 ^ a) (n # d)) eqn:E.
  - apply Qle_bool_iff in E. split; [exact E |].
    assert (P : 2 ^ (ln + 1) == 2 ^ (a + 1) * 2 ^ ld).
    { rewrite <- pow_add. now replace (a + 1 + ld)%Z with (ln + 1)%Z by lia. }
    pose proof (pow_pos (a + 1)) as Ha. pose proof (pow_pos ld) as Hl.
    set (A := 2 ^ (a + 1)) in *. set (L := 2 ^ ld) in *.
    set (x := n # d) in *. set (M := 2 ^ (ln + 1)) in *.
    apply Qnot_le_lt. intros C.
    assert (A * L <= x * D) by (apply Qmult_le_compat_nonneg; split;
                                 [apply Qlt_le_weak | | apply Qlt_le_weak |]; assumption).
    lra.
  - assert (E' : n # d < 2 ^ a).
    { apply Qnot_le_lt. intros C. apply Qle_bool_iff in C. congruence. }
    split.
    + assert (P : 2 ^ ln == 2 ^ (a - 1) * 2 ^ (ld + 1)).
      { rewrite <- pow_add. now replace (a - 1 + (ld + 1))%Z with ln by lia. }
      pose proof (pow_pos (a - 1)) as Ha. pose proof (pow_pos (ld + 1)) as Hl.
      set (A := 2 ^ (a - 1)) in *. set (L := 2 ^ (ld + 1)) in *.
      set (x := n # d) in *. set (M := 2 ^ ln) in *.
      apply Qnot_lt_le. intros C.
      assert (x * D <= A * L).
      { apply Qmult_le_compat_nonneg; split;
          [apply Qlt_le_weak | apply Qlt_le_weak | apply Qlt_le_weak | apply Qlt_le_weak]; assumption. }
      assert (x * D < x * L) by (apply Qmult_lt_l; assumption).
      assert (x * L < A * L) by (apply Qmult_lt_r; assumption).
      lra.
    + now replace (a - 1 + 1)%Z with a by lia.
Qed.

Lemma ilog2_unique (q : Q) (e : Z) :
  0 < q -> 2 ^ e <= q -> q < 2 ^ (e + 1) -> ilog2 q = e.
Proof.
  intros Hq H1 H2. destruct (ilog2_spec q Hq) as [S1 S2].
  assert (2 ^ e < 2 ^ (ilog2 q + 1)) by lra.
  assert (2 ^ ilog2 q < 2 ^ (e + 1)) by lra.
  apply pow_lt_inv in H, H0. lia.
Qed.

Lemma ilog2_mono (q1 q2 : Q) :
  0 < q1 -> q1 <= q2 -> (ilog2 q1 <= ilog2 q2)%Z.
Proof.
  intros H1 H12.
  destruct (ilog2_spec q1 H1) as [S1 _].
  destruct (ilog2_spec q2 ltac:(lra)) as [_ S2].
  assert (2 ^ ilog2 q1 < 2 ^ (ilog2 q2 + 1)) by lra.
  apply pow_lt_inv in H. lia.
Qed.

(** *** Rounding to an integer *)

Lemma rne_cases (x : Q) : rne x = Qfloor x \/ rne x = (Qfloor x + 1)%Z.
Proof.
  unfold rne. destruct (x - inject_Z (Qfloor x) ?= 1 # 2); auto.
  destruct (Z.even (Qfloor x)); auto.
Qed.

Lemma rne_Z (z : Z) : rne (inject_Z z) = z.
Proof.
  unfold rne. rewrite Qfloor_Z.
  destruct (Qcompare_spec (inject_Z z - inject_Z z) (1 # 2)) as [E | E | E];
    [exfalso; lra | reflexivity | exfalso; lra].
Qed.

Lemma rne_proper (x y : Q) : x == y -> rne x = rne y.
Proof.
  intros E. unfold rne.
  assert (F : Qfloor x = Qfloor y) by now rewrite E.
  rewrite F.
  assert (C : (x - inject_Z (Qfloor y) ?= 1 # 2) = (y - inject_Z (Qfloor y) ?= 1 # 2)).
  { now rewrite E. }
  now rewrite C.
Qed.

Lemma rne_mono (x y : Q) : x <= y -> (rne x <= rne y)%Z.
Proof.
  intros H. pose proof (Qfloor_resp_le _ _ H) as Hf.
  destruct (Z.eq_dec (Qfloor x) (Qfloor y)) as [E | NE].
  - unfold rne. rewrite E.
    set (f := Qfloor y) in *.
    destruct (Qcompare_spec (x - inject_Z f) (1 # 2)) as [Cx | Cx | Cx];
      destruct (Qcompare_spec (y - inject_Z f) (1 # 2)) as [Cy | Cy | Cy];
      try (destruct (Z.even f)); try lia; exfalso; lra.
  - destruct (rne_cases x) as [-> | ->], (rne_cases y) as [-> | ->]; lia.
Qed.

(** *** Rounding to a double *)

Lemma Qabs_same (q : Q) : 0 <= q -> Qabs q = q.
Proof.
  destruct q as [n d]. unfold Qle, Qabs. cbn. intros H.
  now rewrite Z.abs_eq by lia.
Qed.

Lemma last_place_low (q : Q) : (-1074 <= last_place q)%Z.
Proof. unfold last_place. lia. Qed.

(** A number of at least [2^l], with [l] above the exponent of the grid,
    is not rounded below [2^l]. *)
Lemma nearest_above (q : Q) (l : Z) :
  0 < q -> (last_place q <= l)%Z -> 2 ^ l <= q -> 2 ^ l <= nearest q.
Proof.
  intros Hq Hl H. unfold nearest. set (e := last_place q) in *.
  pose proof (pow_pos e) as He.
  assert (P : 2 ^ l == inject_Z (2 ^ (l - e)) * 2 ^ e).
  { rewrite pow_inject by lia. rewrite <- pow_add.
    now replace (l - e + e)%Z with l by lia. }
  rewrite P. apply Qmult_le_compat_r; [| lra].
  rewrite <- Zle_Qle. rewrite <- (rne_Z (2 ^ (l - e))). apply rne_mono.
  apply Qle_shift_div_l; [exact He |]. now rewrite <- P.
Qed.

Lemma nearest_below (q : Q) (l : Z) :
  0 < q -> (last_place q <= l)%Z -> q <= 2 ^ l -> nearest q <= 2 ^ l.
Proof.
  intros Hq Hl H. unfold nearest. set (e := last_place q) in *.
  pose proof (pow_pos e) as He.
  assert (P : 2 ^ l == inject_Z (2 ^ (l - e)) * 2 ^ e).
  { rewrite pow_inject by lia. rewrite <- pow_add.
    now replace (l - e + e)%Z with l by lia. }
  rewrite P. apply Qmult_le_compat_r; [| lra].
  rewrite <- Zle_Qle. rewrite <- (rne_Z (2 ^ (l - e))). apply rne_mono.
  apply Qle_shift_div_r; [exact He |]. now rewrite <- P.
Qed.

Lemma nearest_nonneg (q : Q) : 0 <= q -> 0 <= nearest q.
Proof.
  intros Hq. unfold nearest. pose proof (pow_pos (last_place q)) as He.
  apply Qmult_le_0_compat; [| lra].
  change 0 with (inject_Z 0). rewrite <- Zle_Qle.
  rewrite <- (rne_Z 0). apply rne_mono.
  apply Qle_shift_div_l; [exact He |].
  change (inject_Z 0) with 0. lra.
Qed.

Lemma last_place_mono (q1 q2 : Q) :
  0 < q1 -> q1 <= q2 -> (last_place q1 <= last_place q2)%Z.
Proof.
  intros H1 H12. unfold last_place.
  rewrite !Qabs_same by lra.
  pose proof (ilog2_mono q1 q2 H1 H12). lia.
Qed.

Lemma nearest_mono (q1 q2 : Q) :
  0 < q1 -> q1 <= q2 -> nearest q1 <= nearest q2.
Proof.
  intros H1 H12.
  pose proof (last_place_mono q1 q2 H1 H12) as Hp.
  destruct (Z.eq_dec (last_place q1) (last_place q2)) as [E | NE].
  - unfold nearest. rewrite E. set (e := last_place q2).
    pose proof (pow_pos e) as He.
    apply Qmult_le_compat_r; [| lra].
    rewrite <- Zle_Qle. apply rne_mono.
    apply Qmult_le_compat_r; [exact H12 |].
    apply Qlt_le_weak, Qinv_lt_0_compat, He.
  - assert (H2 : 0 < q2) by lra.
    set (l := ilog2 q2).
    assert (El : last_place q2 = (l - 52)%Z).
    { unfold last_place in *. rewrite !Qabs_same in * by lra. fold l. lia. }
    destruct (ilog2_spec q2 H2) as [S2 _]. fold l in S2.
    destruct (ilog2_spec q1 H1) as [_ S1].
    assert (Hl1 : (ilog2 q1 < l)%Z).
    { unfold last_place in *. rewrite !Qabs_same in * by lra. fold l in Hp, NE. lia. }
    apply Qle_trans with (2 ^ l).
    + apply nearest_below; [exact H1 | |].
      * unfold last_place in *. rewrite !Qabs_same in * by lra. fold l in Hp, NE. lia.
      * apply Qle_trans with (2 ^ (ilog2 q1 + 1)); [lra | apply pow_le; lia].
    + apply nearest_above; [exact H2 | lia | exact S2].
Qed.

Lemma round_zero : round 0 = Finite 0.
Proof. reflexivity. Qed.

Lemma round_positive (q : Q) :
  0 < q ->
  round q = if Qle_bool (2 ^ 1024) (nearest q) then Infinity false
            else Finite (Qred (nearest q)).
Proof.
  intros Hq. unfold round.
  destruct (Qeq_bool q 0) eqn:E.
  - apply Qeq_bool_iff in E. lra.
  - pose proof (nearest_nonneg q ltac:(lra)) as Hn.
    rewrite Qabs_same by exact Hn.
    destruct (Qle_bool (2 ^ 1024) (nearest q)) eqn:O; [| reflexivity].
    apply Qle_bool_iff in O.
    assert (Hz : Qle_bool (nearest q) 0 = false).
    { destruct (Qle_bool (nearest q) 0) eqn:Z; [| reflexivity].
      apply Qle_bool_iff in Z. pose proof (pow_pos 1024). lra. }
    now rewrite Hz.
Qed.

(** Rounding keeps the order of the numbers that are not negative. *)
Lemma round_mono (q1 q2 : Q) :
  0 <= q1 -> q1 <= q2 -> le (round q1) (round q2).
Proof.
  intros H1 H12.
  destruct (Qlt_le_dec 0 q1) as [P1 | Z1].
  - rewrite (round_positive q1 P1), (round_positive q2 ltac:(lra)).
    pose proof (nearest_mono q1 q2 P1 H12) as Hn.
    destruct (Qle_bool (2 ^ 1024) (nearest q2)) eqn:O2.
    + destruct (Qle_bool (2 ^ 1024) (nearest q1)); exact I.
    + destruct (Qle_bool (2 ^ 1024) (nearest q1)) eqn:O1.
      * apply Qle_bool_iff in O1.
        assert (Qle_bool (2 ^ 1024) (nearest q2) = true)
          by (apply Qle_bool_iff; lra).
        congruence.
      * cbn [le]. now rewrite !Qred_correct.
  - assert (E : q1 == 0) by lra.
    assert (R : round q1 = Finite 0).
    { unfold round. apply Qeq_bool_iff in E. now rewrite E. }
    rewrite R.
    destruct (Qlt_le_dec 0 q2) as [P2 | Z2].
    + rewrite (round_positive q2 P2).
      destruct (Qle_bool (2 ^ 1024) (nearest q2)); [exact I |].
      cbn [le]. rewrite Qred_correct. apply nearest_nonneg. lra.
    + assert (E2 : q2 == 0) by lra.
      assert (R2 : round q2 = Finite 0).
      { unfold round. apply Qeq_bool_iff in E2. now rewrite E2. }
      rewrite R2. cbn [le]. lra.
Qed.

(** A representable number below [2^1024] is a double: rounding keeps
    it. *)
Lemma nearest_representable (q : Q) :
  0 < q -> representable q -> nearest q == q.
Proof.
  intros Hq (m & e & Hm & He & E).
  assert (Hm0 : (0 < m)%Z).
  { destruct (Z_lt_le_dec 0 m) as [P | N]; [exact P | exfalso].
    assert (inject_Z m <= 0) by (change 0 with (inject_Z 0); now rewrite <- Zle_Qle).
    pose proof (pow_pos e).
    assert (inject_Z m * 2 ^ e <= 0 * 2 ^ e)
      by (apply Qmult_le_compat_r; lra).
    lra. }
  set (lm := Z.log2 m).
  destruct (Z.log2_spec m Hm0) as [L1 L2]. fold lm in L1, L2.
  assert (Hlm : (0 <= lm < 53)%Z).
  { split; [apply Z.log2_nonneg |].
    apply (Z.pow_lt_mono_r_iff 2); [lia | lia | lia]. }
  assert (Hl : ilog2 q = (lm + e)%Z).
  { apply ilog2_unique; [exact Hq | |]; rewrite E.
    - rewrite pow_add. apply Qmult_le_compat_r; [| apply Qlt_le_weak, pow_pos].
      rewrite <- pow_inject by lia. now rewrite <- Zle_Qle.
    - replace (lm + e + 1)%Z with ((lm + 1) + e)%Z by lia.
      rewrite pow_add. apply Qmult_lt_r; [apply pow_pos |].
      rewrite <- pow_inject by lia. rewrite <- Zlt_Qlt.
      now rewrite <- Z.add_1_r in L2. }
  unfold nearest.
  assert (Hp : (last_place q <= e)%Z).
  { unfold last_place. rewrite Qabs_same by lra. rewrite Hl. lia. }
  set (p := last_place q) in *.
  pose proof (pow_pos p) as Hpp.
  assert (X : q / 2 ^ p == inject_Z (m * 2 ^ (e - p))).
  { rewrite inject_Z_mult, pow_inject by lia. rewrite E.
    replace e with ((e - p) + p)%Z at 1 by lia. rewrite pow_add.
    field. lra. }
  rewrite (rne_proper _ _ X), rne_Z.
  rewrite inject_Z_mult, pow_inject by lia. rewrite E.
  replace e with ((e - p) + p)%Z at 2 by lia. rewrite pow_add. ring.
Qed.

Lemma round_representable (q : Q) :
  0 < q -> representable q -> q < 2 ^ 1024 -> round q = Finite (Qred q).
Proof.
  intros Hq Hr Hb. rewrite (round_positive q Hq).
  pose proof (nearest_representable q Hq Hr) as E.
  destruct (Qle_bool (2 ^ 1024) (nearest q)) eqn:O.
  - apply Qle_bool_iff in O. lra.
  - f_equal. now apply Qred_complete.
Qed.

(** *** What rounding keeps *)

Lemma round_not_nan (q : Q) : round q <> NaN.
Proof.
  unfold round. destruct (Qeq_bool q 0); [discriminate |].
  destruct (Qle_bool (2 ^ 1024) (Qabs (nearest q))); discriminate.
Qed.

(** Below a number whose rounding is finite, rounding is finite. *)
Lemma round_between (q h h' : Q) :
  0 <= q -> q <= h -> round h = Finite h' ->
  exists v, round q = Finite v /\ 0 <= v /\ v <= h'.
Proof.
  intros H0 Hh Eh.
  pose proof (round_mono 0 q ltac:(lra) H0) as L.
  pose proof (round_mono q h H0 Hh) as U.
  rewrite round_zero in L. rewrite Eh in U.
  destruct (round q) as [| [|] | v]; cbn [le] in L, U; try contradiction.
  exists v. auto.
Qed.

Lemma round_at_least (l l' q : Q) :
  0 <= l -> l <= q -> round l = Finite l' -> le (Finite l') (round q).
Proof.
  intros H0 Hl El. rewrite <- El. now apply round_mono.
Qed.

Lemma le_finite_eq (x y : Q) (d : JsNumber) :
  x == y -> le (Finite x) d -> le (Finite y) d.
Proof.
  intros E. destruct d as [| [|] | v]; cbn [le]; auto. intros H. lra.
Qed.

(** *** The error of a rounding *)

Lemma rne_upper (x : Q) : inject_Z (rne x) <= x + (1 # 2).
Proof.
  unfold rne. pose proof (Qfloor_le x) as Hf.
  destruct (Qcompare_spec (x - inject_Z (Qfloor x)) (1 # 2)) as [C | C | C].
  - destruct (Z.even (Qfloor x)); [lra |].
    rewrite inject_Z_plus. change (inject_Z 1) with 1. lra.
  - lra.
  - rewrite inject_Z_plus. change (inject_Z 1) with 1. lra.
Qed.

(** In the normal range a rounding adds no more than one part in
    [2^53]. *)
Lemma nearest_error (q : Q) :
  2 ^ (-1022) <= q -> nearest q <= q * (1 + 2 ^ (-53)).
Proof.
  intros Hn. pose proof (pow_pos (-1022)) as Hp.
  assert (Hq : 0 < q) by lra.
  destruct (ilog2_spec q Hq) as [S1 S2].
  assert (Hl : (-1022 <= ilog2 q)%Z).
  { assert (2 ^ (-1022) < 2 ^ (ilog2 q + 1)) by lra.
    apply pow_lt_inv in H. lia. }
  unfold nearest.
  assert (Ep : last_place q = (ilog2 q - 52)%Z).
  { unfold last_place. rewrite Qabs_same by lra. lia. }
  rewrite Ep. set (p := (ilog2 q - 52)%Z).
  pose proof (pow_pos p) as Hpp.
  pose proof (rne_upper (q / 2 ^ p)) as R.
  assert (M : inject_Z (rne (q / 2 ^ p)) * 2 ^ p <= (q / 2 ^ p + (1 # 2)) * 2 ^ p)
    by (apply Qmult_le_compat_r; lra).
  assert (X : (q / 2 ^ p + (1 # 2)) * 2 ^ p == q + (1 # 2) * 2 ^ p)
    by (field; lra).
  assert (Y : 2 ^ p == 2 ^ ilog2 q * 2 ^ (-52)).
  { rewrite <- pow_add. now replace (ilog2 q + -52)%Z with p by lia. }
  assert (Z52 : (1 # 2) * 2 ^ (-52) == 2 ^ (-53)) by reflexivity.
  assert (W : (1 # 2) * 2 ^ p <= q * 2 ^ (-53)).
  { rewrite Y. rewrite <- Z52.
    setoid_replace ((1 # 2) * (2 ^ ilog2 q * 2 ^ (-52)))
      with (2 ^ ilog2 q * ((1 # 2) * 2 ^ (-52))) by ring.
    apply Qmult_le_compat_r; [exact S1 |]. rewrite Z52.
    apply Qlt_le_weak, pow_pos. }
  rewrite X in M. lra.
Qed.

Lemma round_upper (q h : Q) :
  0 <= q -> q <= h -> 2 ^ (-1022) <= h -> h * (1 + 2 ^ (-53)) < 2 ^ 1024 ->
  exists v, round q = Finite v /\ 0 <= v /\ v <= h * (1 + 2 ^ (-53)).
Proof.
  intros H0 Hh Hn Hb. pose proof (pow_pos (-1022)) as Hp.
  assert (Hpos : 0 < h) by lra.
  pose proof (nearest_error h Hn) as E.
  assert (R : round h = Finite (Qred (nearest h))).
  { rewrite (round_positive h Hpos).
    destruct (Qle_bool (2 ^ 1024) (nearest h)) eqn:O; [| reflexivity].
    apply Qle_bool_iff in O. lra. }
  destruct (round_between q h _ H0 Hh R) as (v & Ev & V0 & V1).
  exists v. rewrite Qred_correct in V1. repeat split; [exact Ev | exact V0 | lra].
Qed.

(** *** Representable numbers *)

Lemma representable_Z (z : Z) : (Z.abs z < 2 ^ 53)%Z -> representable (inject_Z z).
Proof.
  intros H. exists z, 0%Z. repeat split; [exact H | lia |].
  change (2 ^ 0) with 1. ring.
Qed.

Lemma representable_scale (q : Q) (n : Z) :
  (0 <= n)%Z -> representable q -> representable (q * 2 ^ n).
Proof.
  intros Hn (m & e & Hm & He & E). exists m, (e + n)%Z.
  repeat split; [exact Hm | lia |]. rewrite E, pow_add. ring.
Qed.

Lemma representable_proper (q q' : Q) :
  q == q' -> representable q -> representable q'.
Proof.
  intros E (m & e & Hm & He & Eq). exists m, e.
  repeat split; [exact Hm | exact He | now rewrite <- E].
Qed.

End DoubleFacts.

(* ------------------------------------------------------------------ *)
(** ** The prompt builder *)

Module PromptFacts.
Import Prompt PromptSpec.

Lemma styleAdditions_not_empty (key : Style) :
  or_string (styleAdditions key) [] = styleAdditions key.
Proof. destruct key; reflexivity. Qed.

(** The instruction is the base text followed by the clauses, in the
    order style, architecture, security, contributing. *)
Lemma buildSystemPrompt_layout (config : ReadmeConfig) :
  buildSystemPrompt config =
  basePrompt ++ style_clause config
  ++ optional (includeArchitecture config) architecture_clause
  ++ optional (includeSecurity config) security_clause
  ++ optional (includeContributing config) contributing_clause.
Proof.
  unfold buildSystemPrompt, style_clause, optional.
  rewrite styleAdditions_not_empty.
  destruct (flag (includeArchitecture config)),
           (flag (includeSecurity config)),
           (flag (includeContributing config));
    repeat rewrite <- app_assoc; repeat rewrite app_nil_r; reflexivity.
Qed.

(** C9. [buildSystemPrompt] is a function of the style and of the three
    flags alone, so equal configurations give the same instruction; the
    instruction is the base text, then the style clause, then the
    architecture, security and contributing clauses of the flags that are
    set, in that order; and replacing one flag, the rest of the
    configuration fixed, keeps the text before and after the place of its
    clause and puts the (non-empty) clause there exactly when the flag is
    set. *)
Theorem buildSystemPrompt_deterministic_ordered :
  (forall c1 c2 : ReadmeConfig,
      style c1 = style c2 ->
      includeArchitecture c1 = includeArchitecture c2 ->
      includeSecurity c1 = includeSecurity c2 ->
      includeContributing c1 = includeContributing c2 ->
      buildSystemPrompt c1 = buildSystemPrompt c2)
  /\ (forall c : ReadmeConfig,
         buildSystemPrompt c =
         basePrompt ++ style_clause c
         ++ optional (includeArchitecture c) architecture_clause
         ++ optional (includeSecurity c) security_clause
         ++ optional (includeContributing c) contributing_clause)
  /\ (forall c : ReadmeConfig, exists before after : JsString,
         forall b : option bool,
           buildSystemPrompt (set_architecture b c) =
           before ++ optional b architecture_clause ++ after)
  /\ (forall c : ReadmeConfig, exists before after : JsString,
         forall b : option bool,
           buildSystemPrompt (set_security b c) =
           before ++ optional b security_clause ++ after)
  /\ (forall c : ReadmeConfig, exists before after : JsString,
         forall b : option bool,
           buildSystemPrompt (set_contributing b c) =
           before ++ optional b contributing_clause ++ after)
  /\ architecture_clause <> [] /\ security_clause <> []
  /\ contributing_clause <> [].
Proof.
  split; [| split; [| split; [| split; [| split]]]].
  - intros c1 c2 Hs Ha He Hc. rewrite !buildSystemPrompt_layout.
    unfold style_clause. now rewrite Hs, Ha, He, Hc.
  - exact buildSystemPrompt_layout.
  - intros c. exists (basePrompt ++ style_clause c).
    exists (optional (includeSecurity c) security_clause
            ++ optional (includeContributing c) contributing_clause).
    intros b. rewrite buildSystemPrompt_layout.
    unfold style_clause, set_architecture; cbn [style includeArchitecture includeSecurity includeContributing].
    now rewrite <- ?app_assoc.
  - intros c.
    exists (basePrompt ++ style_clause c
            ++ optional (includeArchitecture c) architecture_clause).
    exists (optional (includeContributing c) contributing_clause).
    intros b. rewrite buildSystemPrompt_layout.
    unfold style_clause, set_security; cbn [style includeArchitecture includeSecurity includeContributing].
    now rewrite <- ?app_assoc.
  - intros c.
    exists (basePrompt ++ style_clause c
            ++ optional (includeArchitecture c) architecture_clause
            ++ optional (includeSecurity c) security_clause).
    exists [].
    intros b. rewrite buildSystemPrompt_layout.
    unfold style_clause, set_contributing; cbn [style includeArchitecture includeSecurity includeContributing].
    now rewrite <- ?app_assoc, app_nil_r.
  - repeat split; discriminate.
Qed.

End PromptFacts.

(* ------------------------------------------------------------------ *)
(** ** The validator *)

Module ValidatorFacts.
Import Validator ValidatorSpec.

Lemma header_check_fails_count (markdown : JsString) :
  header_check_fails markdown = (header_count markdown <? 2).
Proof.
  unfold header_check_fails, header_count, Regex.match_g.
  destruct (Regex.all_matches header_re 0 None markdown); reflexivity.
Qed.

Lemma codeBlockCount_matches (markdown : JsString) :
  codeBlockCount markdown =
  List.length (Regex.all_matches fence_re 0 None markdown).
Proof.
  unfold codeBlockCount, Regex.match_g.
  destruct (Regex.all_matches fence_re 0 None markdown); reflexivity.
Qed.

(** A repetition whose upper bound is used up hands over to the rest of
    the pattern. *)
Lemma rep_exhausted (fl : Regex.Flags) (cls : Regex.CharClass)
    (k : option N -> JsString -> option nat) (prev : option N) (s : JsString) :
  Regex.rep fl cls k 0 (Some 0) prev s = k prev s.
Proof. destruct s; reflexivity. Qed.

(** An atom of exactly one character. *)
Lemma rep_one (fl : Regex.Flags) (cls : Regex.CharClass)
    (k : option N -> JsString -> option nat) (prev : option N) (s : JsString) :
  Regex.rep fl cls k 1 (Some 1) prev s =
  match s with
  | c :: s' =>
      if Regex.class_matches fl cls c
      then option_map S (k (Some c) s')
      else None
  | [] => None
  end.
Proof.
  destruct s as [|c s']; [reflexivity |].
  cbn [Regex.rep Regex.hi_allows andb pred option_map].
  rewrite rep_exhausted.
  destruct (Regex.class_matches fl cls c); [| reflexivity].
  now destruct (k (Some c) s').
Qed.

(** The fence pattern matches at a position exactly when three backticks
    stand there. *)
Lemma fence_match_here (prev : option N) (s : JsString) :
  Regex.match_here fence_re prev s =
  match s with
  | a :: b :: c :: _ =>
      if is_backtick a && is_backtick b && is_backtick c then Some 3 else None
  | _ => None
  end.
Proof.
  unfold is_backtick, Regex.match_here.
  cbn [fence_re Regex.alternatives Regex.flags Regex.match_alts].
  change (Regex.str "```") with
    [Regex.Rep (Regex.Chr 96) 1 (Some 1); Regex.Rep (Regex.Chr 96) 1 (Some 1);
     Regex.Rep (Regex.Chr 96) 1 (Some 1)].
  cbn [Regex.match_atoms]. rewrite rep_one.
  destruct s as [|a s]; [reflexivity |].
  cbn [Regex.class_matches Regex.ignoreCase]. rewrite (N.eqb_sym 96 a).
  destruct (a =? 96)%N; [| now destruct s as [|? [|? ?]]].
  rewrite rep_one.
  destruct s as [|b s]; [reflexivity |].
  cbn [Regex.class_matches Regex.ignoreCase]. rewrite (N.eqb_sym 96 b).
  destruct (b =? 96)%N; [| now destruct s].
  rewrite rep_one.
  destruct s as [|c s]; [reflexivity |].
  cbn [Regex.class_matches Regex.ignoreCase]. rewrite (N.eqb_sym 96 c).
  now destruct (c =? 96)%N.
Qed.

Lemma fence_matches_count (n : nat) :
  forall (s : JsString) (prev : option N),
    List.length s <= n ->
    List.length (Regex.all_matches fence_re 0 prev s) = count_fences s.
Proof.
  induction n as [|n IH]; intros s prev Hn.
  - destruct s; [| simpl in Hn; lia].
    cbn [Regex.all_matches]. now rewrite (fence_match_here prev []).
  - destruct s as [|a t].
    + cbn [Regex.all_matches]. now rewrite (fence_match_here prev []).
    + cbn [Regex.all_matches]. rewrite (fence_match_here prev (a :: t)).
      simpl in Hn.
      destruct t as [|b [|c r]].
      * cbn [Regex.all_matches]. now rewrite (fence_match_here (Some a) []).
      * cbn [Regex.all_matches].
        rewrite (fence_match_here (Some a) [b]).
        cbn [Regex.all_matches]. now rewrite (fence_match_here (Some b) []).
      * cbn [count_fences].
        destruct (is_backtick a && is_backtick b && is_backtick c).
        -- cbn [Regex.all_matches pred List.length]. f_equal.
           apply IH. simpl in Hn. lia.
        -- apply IH. simpl. simpl in Hn. lia.
Qed.

(** The count the validator takes is the number of fences. *)
Lemma codeBlockCount_fences (markdown : JsString) :
  codeBlockCount markdown = count_fences markdown.
Proof.
  rewrite codeBlockCount_matches.
  now apply (fence_matches_count (n := List.length markdown)).
Qed.

(** A sequence of literal characters matches the text it spells. *)
Lemma literal_match (p : JsString) :
  forall (prev : option N) (s : JsString),
    Regex.match_atoms ci (List.map literal p) prev s =
    if starts_with_ci p s then Some (List.length p) else None.
Proof.
  induction p as [|a p IH]; intros prev s.
  - reflexivity.
  - cbn [List.map Regex.match_atoms literal]. rewrite rep_one.
    destruct s as [|b s]; [reflexivity |].
    cbn [starts_with_ci Regex.class_matches Regex.ignoreCase ci].
    destruct (Regex.canon a =? Regex.canon b)%N; [| reflexivity].
    rewrite (IH (Some b) s). cbn [andb].
    now destruct (starts_with_ci p s).
Qed.

Lemma literal_alternatives (ps : list JsString) (prev : option N) (s : JsString) :
  is_some (Regex.match_alts ci (List.map (List.map literal) ps) prev s) =
  existsb (fun p => starts_with_ci p s) ps.
Proof.
  induction ps as [|p ps IH]; [reflexivity |].
  cbn [List.map Regex.match_alts existsb].
  rewrite (literal_match p prev s).
  destruct (starts_with_ci p s); [reflexivity | exact IH].
Qed.

Lemma existsb_orb {A : Type} (f g : A -> bool) (l : list A) :
  existsb (fun x => f x || g x) l = existsb f l || existsb g l.
Proof.
  induction l as [|x l IH]; [reflexivity |].
  cbn [existsb]. rewrite IH.
  destruct (f x), (g x), (existsb f l), (existsb g l); reflexivity.
Qed.

Lemma existsb_pointwise {A : Type} (f g : A -> bool) (l : list A) :
  (forall x, f x = g x) -> existsb f l = existsb g l.
Proof.
  intros H. induction l as [|x l IH]; [reflexivity |].
  cbn [existsb]. now rewrite H, IH.
Qed.

Lemma includes_ci_unfold (s p : JsString) :
  includes_ci s p =
  starts_with_ci p s || match s with [] => false | _ :: s' => includes_ci s' p end.
Proof. destruct s; reflexivity. Qed.

Lemma metaCommentary_literals :
  Regex.match_here metaCommentary =
  Regex.match_alts ci (List.map (List.map literal) banned_phrases).
Proof. reflexivity. Qed.

(** The pattern of the validator finds a match exactly where a banned
    phrase is contained, letters compared without their case. *)
Lemma metaCommentary_search (s : JsString) :
  forall prev : option N,
    is_some (Regex.search metaCommentary prev s) = contains_banned s.
Proof.
  unfold contains_banned.
  induction s as [|c s IH]; intros prev.
  - cbn [Regex.search]. rewrite metaCommentary_literals.
    pose proof (literal_alternatives banned_phrases prev []) as H.
    destruct (Regex.match_alts ci (List.map (List.map literal) banned_phrases) prev []);
      cbn [is_some] in *; [rewrite H | ]; reflexivity.
  - cbn [Regex.search]. rewrite metaCommentary_literals.
    pose proof (literal_alternatives banned_phrases prev (c :: s)) as H.
    rewrite (existsb_pointwise _ _ banned_phrases
               (fun p => includes_ci_unfold (c :: s) p)).
    rewrite existsb_orb. rewrite <- H.
    destruct (Regex.match_alts ci (List.map (List.map literal) banned_phrases)
                prev (c :: s)); cbn [is_some orb]; [reflexivity |].
    rewrite <- (IH (Some c)).
    now destruct (Regex.search metaCommentary (Some c) s) as [[i n]|].
Qed.

Lemma metaCommentary_test (s : JsString) :
  Regex.test metaCommentary s = contains_banned s.
Proof.
  rewrite <- (metaCommentary_search s None). unfold Regex.test.
  now destruct (Regex.search metaCommentary None s).
Qed.

Lemma last_default {A : Type} (d d' : A) (l : list A) :
  forall b, List.last (b :: l) d = List.last (b :: l) d'.
Proof.
  induction l as [|c l IH]; intros b; [reflexivity |].
  change (List.last (c :: l) d = List.last (c :: l) d'). apply IH.
Qed.

Lemma last_cons {A : Type} (a d : A) (l : list A) :
  List.last (a :: l) d = List.last l a.
Proof.
  destruct l as [|b l]; [reflexivity |].
  change (List.last (b :: l) d = List.last (b :: l) a). apply last_default.
Qed.

(** What a successful repetition has done: it took [j] characters of the
    class, [j] within the bounds, and the rest of the pattern matched
    after them. *)
Lemma rep_sound (fl : Regex.Flags) (cls : Regex.CharClass)
    (k : option N -> JsString -> option nat) (s : JsString) :
  forall (lo : nat) (hi : option nat) (prev : option N) (n : nat),
    Regex.rep fl cls k lo hi prev s = Some n ->
    exists j m,
      n = j + m /\ lo <= j /\ (forall h, hi = Some h -> j <= h)
      /\ j <= List.length s
      /\ Forall (fun c => Regex.class_matches fl cls c = true) (firstn j s)
      /\ k (prev_after prev (firstn j s)) (skipn j s) = Some m.
Proof.
  assert (Hstop : forall lo hi prev s0 n,
             match lo with 0 => k prev s0 | S _ => None end = Some n ->
             exists j m,
               n = j + m /\ lo <= j /\ (forall h, hi = Some h -> j <= h)
               /\ j <= List.length s0
               /\ Forall (fun c => Regex.class_matches fl cls c = true)
                         (firstn j s0)
               /\ k (prev_after prev (firstn j s0)) (skipn j s0) = Some m).
  { intros lo hi prev s0 n H. destruct lo; [| discriminate H].
    exists 0, n. repeat split; try lia; [constructor | exact H]. }
  induction s as [|c s IH]; intros lo hi prev n H.
  - apply (Hstop lo hi prev [] n). exact H.
  - cbn [Regex.rep] in H.
    destruct (Regex.hi_allows hi && Regex.class_matches fl cls c) eqn:Hc;
      [| now apply Hstop].
    apply andb_true_iff in Hc. destruct Hc as [Hhi Hcls].
    destruct (Regex.rep fl cls k (pred lo) (option_map pred hi) (Some c) s)
      as [n' |] eqn:Hrec; [| now apply Hstop].
    injection H as <-.
    destruct (IH _ _ _ _ Hrec) as (j & m & -> & Hlo & Hh & Hlen & Hall & Hk).
    exists (S j), m. repeat split.
    + lia.
    + intros h ->. destruct h as [|h]; [discriminate Hhi |].
      specialize (Hh h eq_refl). lia.
    + cbn [List.length]. lia.
    + cbn [firstn]. now constructor.
    + cbn [firstn skipn]. unfold prev_after in *. cbn [List.map].
      now rewrite last_cons.
Qed.

(** Every match of the heading pattern starts at the start of a line, ends
    at the end of a line, and is a heading: [#] one to three times, white
    space, text. *)
Lemma header_match_shape (prev : option N) (s : JsString) (n : nat) :
  Regex.match_here header_re prev s = Some n ->
  Regex.at_bol (Regex.flags header_re) prev = true
  /\ exists hashes space text rest,
      s = hashes ++ space ++ text ++ rest
      /\ n = List.length hashes + List.length space + List.length text
      /\ heading_shape hashes space text
      /\ Regex.at_eol (Regex.flags header_re) rest = true.
Proof.
  unfold Regex.match_here.
  cbn [header_re Regex.alternatives Regex.flags Regex.match_alts
       Regex.match_atoms Regex.plus].
  set (fl := {| Regex.ignoreCase := false; Regex.multiline := true |}).
  destruct (Regex.at_bol fl prev); [| discriminate].
  intros H. split; [reflexivity |].
  destruct (Regex.rep fl (Regex.Chr 35) _ 1 (Some 3) prev s) as [n1 |] eqn:H1;
    [| discriminate H].
  injection H as <-.
  apply rep_sound in H1.
  destruct H1 as (j1 & m1 & -> & Hlo1 & Hhi1 & Hlen1 & Hall1 & H2).
  apply rep_sound in H2.
  destruct H2 as (j2 & m2 & -> & Hlo2 & _ & Hlen2 & Hall2 & H3).
  apply rep_sound in H3.
  destruct H3 as (j3 & m3 & -> & Hlo3 & _ & Hlen3 & Hall3 & H4).
  set (s1 := skipn j1 s) in *. set (s2 := skipn j2 s1) in *.
  destruct (Regex.at_eol fl (skipn j3 s2)) eqn:He; [| discriminate H4].
  injection H4 as <-.
  exists (firstn j1 s), (firstn j2 s1), (firstn j3 s2), (skipn j3 s2).
  repeat split.
  - subst s1 s2. now rewrite !firstn_skipn.
  - rewrite !length_firstn. lia.
  - rewrite length_firstn. lia.
  - rewrite length_firstn. specialize (Hhi1 3 eq_refl). lia.
  - eapply Forall_impl; [| exact Hall1]. intros c Hc. cbn in Hc.
    symmetry. now apply N.eqb_eq.
  - rewrite length_firstn. lia.
  - exact Hall2.
  - rewrite length_firstn. lia.
  - eapply Forall_impl; [| exact Hall3]. intros c Hc. cbn in Hc.
    now apply negb_true_iff.
  - exact He.
Qed.

(** *** The heading pattern, read directly *)











(** The problems are those of the failed checks, in the order of the
    checks. *)
Lemma errors_layout (markdown : JsString) :
  errors (validateReadmeOutput markdown) =
  report (length_check_fails markdown) too_short
  ++ report (header_check_fails markdown) missing_headers
  ++ report (fence_check_fails markdown) unclosed_block
  ++ report (meta_check_fails markdown) meta_detected.
Proof.
  unfold validateReadmeOutput, length_check_fails, fence_check_fails,
    meta_check_fails, report, push.
  cbn [errors].
  destruct (Js.length markdown <? 200), (header_check_fails markdown),
    (negb (codeBlockCount markdown mod 2 =? 0)),
    (Regex.test metaCommentary (Js.slice0 500 markdown)); reflexivity.
Qed.

Lemma valid_iff_no_errors (markdown : JsString) :
  valid (validateReadmeOutput markdown) = true <->
  errors (validateReadmeOutput markdown) = [].
Proof.
  unfold validateReadmeOutput. cbn [valid errors].
  rewrite Nat.eqb_eq. apply length_zero_iff_nil.
Qed.



Lemma fence_check_fails_odd (markdown : JsString) :
  fence_check_fails markdown = Nat.odd (count_fences markdown).
Proof.
  unfold fence_check_fails. rewrite codeBlockCount_fences.
  generalize (count_fences markdown) as n. intros n.
  rewrite <- Nat.negb_even. f_equal.
  apply eq_true_iff_eq. rewrite Nat.eqb_eq, Nat.even_spec.
  split.
  - intros H. exists (n / 2). pose proof (Nat.div_mod_eq n 2). lia.
  - intros [m ->]. rewrite Nat.mul_comm. apply Nat.Div0.mod_mul.
Qed.



(** The empty document is too short, and has no headers. *)
Example validate_empty :
  validateReadmeOutput [] =
  {| valid := false; errors := [too_short; missing_headers] |}.
Proof. reflexivity. Qed.

(** A long enough document with two headings, no fence and no banned
    phrase is valid. *)
Example validate_readme :
  validateReadmeOutput Sample.readme = {| valid := true; errors := [] |}.
Proof. vm_compute. reflexivity. Qed.

(** One fence left open, in an otherwise valid document. *)
Example validate_open_fence :
  validateReadmeOutput (Sample.readme ++ Js.nl ++ Js.lit "```js") =
  {| valid := false; errors := [unclosed_block] |}.
Proof. vm_compute. reflexivity. Qed.

End ValidatorFacts.

(* ------------------------------------------------------------------ *)
(** ** Response normalization *)

Module NormalizeFacts.
Import NormalizeSpec.

Lemma opt_get_truthy (v : JsValue) (key : JsString) :
  truthy (opt_get v key) = true -> opt_get v key = get v key.
Proof. unfold opt_get. now destruct (nullish v). Qed.

Lemma opt_get_truthy_not_nullish (v : JsValue) (key : JsString) :
  truthy (opt_get v key) = true -> nullish v = false.
Proof. unfold opt_get. now destruct (nullish v). Qed.

Lemma opt_get0_defined (v : JsValue) :
  nullish (opt_get0 v) = false -> opt_get0 v = get0 v.
Proof. unfold opt_get0. now destruct (nullish v). Qed.

(** Once the condition of the second branch holds, the plain reads of the
    assignment give the value the optional chain gave. *)
Lemma choices_content_read (output : JsValue) :
  truthy (choices_content output) = true ->
  get (get (get0 (get output (Js.lit "choices"))) (Js.lit "message"))
      (Js.lit "content") = choices_content output.
Proof.
  unfold choices_content. intros H.
  rewrite (opt_get_truthy _ _ H).
  apply opt_get_truthy_not_nullish in H.
  assert (H1 : nullish (opt_get0 (get output (Js.lit "choices"))) = false).
  { unfold opt_get in H.
    destruct (nullish (opt_get0 (get output (Js.lit "choices")))); [| reflexivity].
    discriminate H. }
  rewrite (opt_get0_defined _ H1).
  unfold opt_get. rewrite <- (opt_get0_defined _ H1), H1. reflexivity.
Qed.

(** C8, as the code has it. Normalization is a total function of the
    payload. A string is taken as it is. An object or an array yields its
    [content] when that is truthy, otherwise its
    [choices[0].message.content] when that is truthy, otherwise its
    serialization. Any other payload ([undefined], [null], a boolean, a
    number) yields the empty document. *)
Theorem normalize_priority (JSON_stringify : JsValue -> JsString)
    (output : JsValue) :
  normalize JSON_stringify output =
  match output with
  | VStr s => VStr s
  | VObj _ | VArr _ =>
      if truthy (get output (Js.lit "content"))
      then get output (Js.lit "content")
      else if truthy (choices_content output)
           then choices_content output
           else VStr (JSON_stringify output)
  | VUndefined | VNull | VBool _ | VNum _ => VStr []
  end.
Proof.
  unfold normalize. fold (choices_content output).
  destruct output as [| |b|n|s|items|fields]; cbn [is_string truthy typeof_object andb];
    try reflexivity.
  - now destruct b.
  - now destruct (number_truthy n).
  - destruct (truthy (get (VObj fields) (Js.lit "content"))); [reflexivity |].
    destruct (truthy (choices_content (VObj fields))) eqn:H; [| reflexivity].
    now apply choices_content_read.
Qed.

(** The claim as the specification words it fails twice: a number is not
    serialized but replaced by the empty document, and an object whose
    [content] is the empty string does not yield that field. *)
Lemma normalize_not_as_specified :
  normalize Sample.stringify (VNum (Finite 42)) = VStr []
  /\ Sample.stringify (VNum (Finite 42)) = Js.lit "42"
  /\ normalize Sample.stringify VNull = VStr []
  /\ Sample.stringify VNull = Js.lit "null"
  /\ has_key (Js.lit "content") Sample.empty_content_payload = true
  /\ get Sample.empty_content_payload (Js.lit "content") = VStr []
  /\ normalize Sample.stringify Sample.empty_content_payload = VStr (Js.lit "hi").
Proof. repeat split; vm_compute; reflexivity. Qed.

End NormalizeFacts.

(* ------------------------------------------------------------------ *)
(** ** The delays of the scheduler *)

Module DelayFacts.
Import Double DoubleSpec DoubleFacts Backoff.
Local Open Scope Q_scope.
Local Unset Implicit Arguments.

Lemma literal_three_tenths : literal (3 # 10) = Finite three_tenths.
Proof. vm_compute. reflexivity. Qed.

Lemma three_tenths_bounds : 1 # 4 <= three_tenths /\ three_tenths <= 3 # 10.
Proof. split; discriminate. Qed.

(** The delay, from the exponential delay [e]. *)
Lemma totalDelay_from (baseDelay : Q) (n : nat) (r e : Q) :
  exponentialDelay baseDelay n = Finite e ->
  totalDelay baseDelay n r
  = add (Finite e) (mul (round (r * e)) (Finite three_tenths)).
Proof.
  intros H. unfold totalDelay, jitter. rewrite H, literal_three_tenths.
  reflexivity.
Qed.

(** The exponential delay of a base delay that is a double is exact. *)
Lemma exponentialDelay_exact (baseDelay : Q) (n : nat) :
  0 < baseDelay -> representable baseDelay -> (n < 1024)%nat ->
  baseDelay * inject_Z (2 ^ Z.of_nat n) < 2 ^ 1024 ->
  exponentialDelay baseDelay n
  = Finite (Qred (baseDelay * inject_Z (2 ^ Z.of_nat n)))
  /\ representable (baseDelay * inject_Z (2 ^ Z.of_nat n))
  /\ 0 < baseDelay * inject_Z (2 ^ Z.of_nat n).
Proof.
  intros Hb Hr Hn Hlt. unfold exponentialDelay, pow2.
  rewrite (proj2 (Nat.ltb_lt _ _) Hn). cbn [mul].
  assert (R : representable (baseDelay * inject_Z (2 ^ Z.of_nat n))).
  { apply (representable_proper (baseDelay * 2 ^ Z.of_nat n)).
    - now rewrite pow_inject by lia.
    - apply representable_scale; [lia | exact Hr]. }
  assert (P : 0 < baseDelay * inject_Z (2 ^ Z.of_nat n)).
  { apply Qmult_lt_0_compat; [exact Hb |].
    rewrite pow_inject by lia. apply pow_pos. }
  split; [| split; [exact R | exact P]].
  now apply round_representable.
Qed.

(** The two roundings of the jitter, for a draw of [[0, 1]]. *)
Lemma jitter_parts (e e' r : Q) :
  0 < e -> round e = Finite e' -> e' == e -> 0 <= r -> r <= 1 ->
  exists a b,
    round (r * e) = Finite a /\ 0 <= a /\ a <= e
    /\ round (a * three_tenths) = Finite b /\ 0 <= b /\ b <= e.
Proof.
  intros He R E Hr0 Hr1.
  destruct (round_between (r * e) e e') as (a & Ra & A0 & A1);
    [nra | nra | exact R |].
  destruct three_tenths_bounds as [C0 C1].
  destruct (round_between (a * three_tenths) e e') as (b & Rb & B0 & B1);
    [nra | nra | exact R |].
  exists a, b. repeat split; try assumption; lra.
Qed.

(** The delay is never below the exponential delay. *)
Lemma delay_lower (e e' r : Q) :
  0 < e -> round e = Finite e' -> e' == e -> 0 <= r -> r <= 1 ->
  le (Finite e) (add (Finite e) (mul (round (r * e)) (Finite three_tenths))).
Proof.
  intros He R E Hr0 Hr1.
  destruct (jitter_parts e e' r He R E Hr0 Hr1)
    as (a & b & Ra & A0 & A1 & Rb & B0 & B1).
  rewrite Ra. cbn [mul]. rewrite Rb. cbn [add].
  apply (le_finite_eq e'); [exact E |].
  apply (round_at_least e); [lra | lra | exact R].
Qed.

Lemma slack : (1 + three_tenths * (1 + 2 ^ (-53))) * (1 + 2 ^ (-53))
              <= (13 # 10) * (1 + 2 ^ (-52)).
Proof. vm_compute. discriminate. Qed.

(** In the normal range the delay is a finite number, above 1.3 times the
    exponential delay by no more than the roundings add. *)
Lemma delay_upper (e e' r : Q) :
  2 ^ (-1020) <= e -> e <= 2 ^ 1023 ->
  round e = Finite e' -> e' == e -> 0 <= r -> r <= 1 ->
  exists q,
    add (Finite e) (mul (round (r * e)) (Finite three_tenths)) = Finite q
    /\ q <= e * (13 # 10) * (1 + 2 ^ (-52)).
Proof.
  intros Hlo Hhi R E Hr0 Hr1.
  assert (P1020 : 0 < 2 ^ (-1020)) by apply pow_pos.
  assert (He : 0 < e) by lra.
  destruct (jitter_parts e e' r He R E Hr0 Hr1)
    as (a & b & Ra & A0 & A1 & _ & _ & _).
  destruct three_tenths_bounds as [C0 C1].
  set (u := 2 ^ (-53)) in *.
  assert (U0 : 0 < u) by apply pow_pos.
  assert (U1 : u <= 1 # 1000) by (subst u; vm_compute; discriminate).
  assert (N1 : 2 ^ (-1022) <= e * three_tenths).
  { assert (F : 2 ^ (-1022) == 2 ^ (-1020) * (1 # 4)) by reflexivity.
    rewrite F. apply Qmult_le_compat_nonneg; split; lra. }
  assert (B2 : 2 ^ 1024 == 2 * 2 ^ 1023) by reflexivity.
  assert (P1023 : 0 < 2 ^ 1023) by apply pow_pos.
  assert (P1022 : 0 < 2 ^ (-1022)) by apply pow_pos.
  destruct (round_upper (a * three_tenths) (e * three_tenths))
    as (b' & Rb' & B0' & B1'); [nra | nra | exact N1 | fold u; nra |].
  fold u in B1'.
  destruct (round_upper (e + b') (e + e * three_tenths * (1 + u)))
    as (q & Rq & Q0 & Q1); [lra | lra | nra | fold u; nra |].
  fold u in Q1.
  exists q. rewrite Ra. cbn [mul]. rewrite Rb'. cbn [add].
  split; [exact Rq |].
  eapply Qle_trans; [exact Q1 |].
  setoid_replace ((e + e * three_tenths * (1 + u)) * (1 + u))
    with (e * ((1 + three_tenths * (1 + u)) * (1 + u))) by ring.
  setoid_replace (e * (13 # 10) * (1 + 2 ^ (-52)))
    with (e * ((13 # 10) * (1 + 2 ^ (-52)))) by ring.
  apply Qmult_le_l; [exact He | exact slack].
Qed.

(** With exact bounds at hand the delay stays below them. *)
Lemma delay_below (e h1 h2 r : Q) :
  0 < e -> round e = Finite e ->
  e * (3 # 10) <= h1 -> round h1 = Finite h1 ->
  e + h1 <= h2 -> round h2 = Finite h2 ->
  0 <= r -> r <= 1 ->
  exists q,
    add (Finite e) (mul (round (r * e)) (Finite three_tenths)) = Finite q
    /\ e <= q /\ q <= h2.
Proof.
  intros He R H1 R1 H2 R2 Hr0 Hr1.
  pose proof (delay_lower e e r He R (Qeq_refl e) Hr0 Hr1) as L.
  destruct (jitter_parts e e r He R (Qeq_refl e) Hr0 Hr1)
    as (a & _ & Ra & A0 & A1 & _).
  destruct three_tenths_bounds as [C0 C1].
  destruct (round_between (a * three_tenths) h1 h1) as (b & Rb & B0 & B1);
    [nra | nra | exact R1 |].
  destruct (round_between (e + b) h2 h2) as (q & Rq & Q0 & Q1);
    [lra | lra | exact R2 |].
  rewrite Ra in L |- *. cbn [mul] in L |- *. rewrite Rb in L |- *.
  cbn [add] in L |- *. rewrite Rq in L |- *. cbn [le] in L.
  exists q. auto.
Qed.

(** The three delays of the module: base delay 1000, attempts 0 to 2. *)
Lemma delay_of_module (n : nat) (r : Q) :
  (n < 3)%nat -> 0 <= r -> r <= 1 ->
  exists q,
    totalDelay 1000 n r = Finite q
    /\ 1000 * inject_Z (2 ^ Z.of_nat n) <= q
    /\ q <= 1300 * inject_Z (2 ^ Z.of_nat n).
Proof.
  intros Hn Hr0 Hr1.
  destruct n as [|[|[|n]]]; [| | | lia].
  - rewrite (totalDelay_from 1000 0 r 1000 eq_refl).
    destruct (delay_below 1000 300 1300 r) as (q & -> & L & U);
      try reflexivity; try discriminate; try assumption.
    exists q. split; [reflexivity |]. split; [exact L | exact U].
  - rewrite (totalDelay_from 1000 1 r 2000 eq_refl).
    destruct (delay_below 2000 600 2600 r) as (q & -> & L & U);
      try reflexivity; try discriminate; try assumption.
    exists q. split; [reflexivity |]. split; [exact L | exact U].
  - rewrite (totalDelay_from 1000 2 r 4000 eq_refl).
    destruct (delay_below 4000 1200 5200 r) as (q & -> & L & U);
      try reflexivity; try discriminate; try assumption.
    exists q. split; [reflexivity |]. split; [exact L | exact U].
Qed.

(** The delay of any base delay that is a double, in the normal range. *)
Lemma delay_in_closed_window (baseDelay : Q) (n : nat) (r : Q) :
  representable baseDelay -> (n < 1024)%nat ->
  2 ^ (-1020) <= baseDelay * inject_Z (2 ^ Z.of_nat n) ->
  baseDelay * inject_Z (2 ^ Z.of_nat n) <= 2 ^ 1023 ->
  0 <= r -> r < 1 ->
  Schedule.in_closed_window baseDelay n (totalDelay baseDelay n r).
Proof.
  intros Hrep Hn Hlo Hhi Hr0 Hr1.
  set (E := baseDelay * inject_Z (2 ^ Z.of_nat n)) in *.
  assert (P1020 : 0 < 2 ^ (-1020)) by apply pow_pos.
  assert (P1023 : 0 < 2 ^ 1023) by apply pow_pos.
  assert (B2 : 2 ^ 1024 == 2 * 2 ^ 1023) by reflexivity.
  assert (Hp : 0 < inject_Z (2 ^ Z.of_nat n)).
  { rewrite pow_inject by lia. apply pow_pos. }
  assert (Hb : 0 < baseDelay).
  { destruct (Qlt_le_dec 0 baseDelay) as [P | N]; [exact P | exfalso].
    assert (E <= 0 * inject_Z (2 ^ Z.of_nat n))
      by (subst E; apply Qmult_le_compat_r; lra).
    lra. }
  destruct (exponentialDelay_exact baseDelay n Hb Hrep Hn) as (X & R & P);
    [fold E; lra |].
  fold E in X, R, P.
  assert (RE : round (Qred E) = Finite (Qred E)).
  { rewrite <- (Qred_complete (Qred E) E (Qred_correct E)) at 2.
    apply round_representable.
    - now rewrite Qred_correct.
    - apply (representable_proper E); [now rewrite Qred_correct | exact R].
    - rewrite Qred_correct. lra. }
  rewrite (totalDelay_from baseDelay n r (Qred E) X).
  pose proof (Qred_correct E) as EQ.
  pose proof (delay_lower (Qred E) (Qred E) r ltac:(lra) RE (Qeq_refl _) Hr0
                ltac:(lra)) as L.
  destruct (delay_upper (Qred E) (Qred E) r ltac:(lra) ltac:(lra) RE
              (Qeq_refl _) Hr0 ltac:(lra)) as (q & Eq & U).
  rewrite Eq in L |- *. cbn [le] in L.
  exists q. split; [reflexivity |]. fold E. split; [lra |].
  eapply Qle_trans; [exact U |]. rewrite EQ. apply Qle_refl.
Qed.

End DelayFacts.

(* ------------------------------------------------------------------ *)
(** ** The backoff scheduler *)

Module BackoffFacts.
Import Backoff Schedule.

Section Loop.

Context {St T : Type}.
Variable operation : St -> Result T * St.
Variable maxRetries : Z.
Variable baseDelay : Q.

(** One iteration of the loop, as the source reads. *)
Lemma loop_step (attempt : nat) (s : St) (k : Clock) :
  loop operation maxRetries baseDelay attempt s k =
  match operation s with
  | (Ok v, s') => (Ok v, s', record Invoked k)
  | (Err error, s') =>
      if Z.geb (Z.of_nat attempt) maxRetries
      then (Err error, s', record Invoked k)
      else loop operation maxRetries baseDelay (S attempt) s'
                (wait maxRetries baseDelay attempt (record Invoked k))
  end.
Proof.
  funelim (loop operation maxRetries baseDelay attempt s k);
    repeat match goal with
           | H : operation _ = _ |- _ => rewrite H
           | H : Z.geb _ _ = _ |- _ => rewrite H
           end; reflexivity.
Qed.

(** The states in which the operation fails, when it keeps failing from
    them on. *)
Variable failing_from : St -> Prop.
Hypothesis keeps_failing :
  forall s, failing_from s ->
    exists e s', operation s = (Err e, s') /\ failing_from s'.

Lemma state_before_failing (n : nat) (s : St) :
  failing_from s -> failing_from (state_before operation n s).
Proof.
  intros Hs. induction n as [|n IH]; [exact Hs |].
  unfold state_before in *. rewrite Nat.iter_succ.
  destruct (keeps_failing IH) as (e & s' & He & Hs'). now rewrite He.
Qed.

(** An operation that keeps failing is retried until the counter reaches
    [maxRetries]: the run is [n] failed attempts with their waits and one
    last attempt, whose error and state are the result. *)
Lemma loop_keeps_failing (n : nat) :
  forall (attempt : nat) (s : St) (k : Clock),
    failing_from s ->
    n = Z.to_nat (maxRetries - Z.of_nat attempt) ->
    loop operation maxRetries baseDelay attempt s k =
    (fst (operation (state_before operation n s)),
     snd (operation (state_before operation n s)),
     {| random := random k;
        drawn := drawn k + n;
        timeline :=
          timeline k
          ++ retries maxRetries baseDelay (random k) (drawn k) attempt n
          ++ [Invoked] |}).
Proof.
  induction n as [|n IH]; intros attempt s k Hs Hn; rewrite loop_step;
    destruct (keeps_failing Hs) as (e & s' & He & Hs').
  - rewrite He.
    replace (Z.geb (Z.of_nat attempt) maxRetries) with true
      by (symmetry; rewrite Z.geb_leb; apply Z.leb_le; lia).
    change (state_before operation 0 s) with s.
    unfold record. cbn [retries app].
    rewrite He, Nat.add_0_r. reflexivity.
  - rewrite He.
    replace (Z.geb (Z.of_nat attempt) maxRetries) with false
      by (symmetry; rewrite Z.geb_leb; apply Z.leb_gt; lia).
    rewrite IH by (assumption || lia).
    unfold state_before. rewrite Nat.iter_succ_r, He. cbn [snd].
    unfold wait, Math_random, record.
    cbn [random drawn timeline retries].
    f_equal. f_equal; [lia |].
    rewrite <- !app_assoc. reflexivity.
Qed.

End Loop.

Lemma invocations_app (l1 l2 : list TimerEvent) :
  invocations (l1 ++ l2) = invocations l1 + invocations l2.
Proof.
  induction l1 as [|[| |] l1 IH]; cbn [app invocations]; now rewrite ?IH.
Qed.

Lemma sleeps_app (l1 l2 : list TimerEvent) :
  sleeps (l1 ++ l2) = sleeps l1 ++ sleeps l2.
Proof.
  induction l1 as [|[| |] l1 IH]; cbn [app sleeps]; now rewrite ?IH.
Qed.

Lemma invocations_retries (maxRetries : Z) (baseDelay : Q) (rand : nat -> Q)
    (n : nat) :
  forall drawn attempt,
    invocations (retries maxRetries baseDelay rand drawn attempt n) = n.
Proof.
  induction n as [|n IH]; intros drawn attempt; cbn [retries invocations];
    now rewrite ?IH.
Qed.

Lemma sleeps_retries (maxRetries : Z) (baseDelay : Q) (rand : nat -> Q)
    (n : nat) :
  forall drawn attempt i d,
    nth_error (sleeps (retries maxRetries baseDelay rand drawn attempt n)) i
    = Some d ->
    i < n /\ d = totalDelay baseDelay (attempt + i) (rand (drawn + i)).
Proof.
  induction n as [|n IH]; intros drawn attempt i d; cbn [retries sleeps].
  - now destruct i.
  - destruct i as [|i]; cbn [nth_error].
    + intros [= <-]. rewrite !Nat.add_0_r. split; [lia | reflexivity].
    + intros H. apply IH in H. destruct H as [Hi ->].
      rewrite <- !Nat.add_succ_comm. split; [lia | reflexivity].
Qed.

Lemma sleeps_retries_length (maxRetries : Z) (baseDelay : Q) (rand : nat -> Q)
    (n : nat) :
  forall drawn attempt,
    List.length (sleeps (retries maxRetries baseDelay rand drawn attempt n)) = n.
Proof.
  induction n as [|n IH]; intros drawn attempt; cbn [retries sleeps List.length];
    now rewrite ?IH.
Qed.

(** C5, as the code has it. For a retry limit that is not negative, an
    operation that always fails is called exactly [maxRetries + 1] times;
    the error and the state of the last call are the result; the timeline
    is [maxRetries] times a call, a warning and a sleep, then the last
    call and nothing after it. The delay slept after the attempt [n]
    (from 0) is the sum, in doubles, of the exponential delay and of the
    jitter of the draw; for a base delay that is a double, an exponential
    delay in the normal range and a draw of [[0, 1)] it lies in
    [[baseDelay * 2^n, baseDelay * 2^n * 1.3 * (1 + 2^-52)]]. *)
Theorem withExponentialBackoff_always_failing {St T : Type}
    (operation : St -> Result T * St) (maxRetries : Z) (baseDelay : Q)
    (s : St) (k : Clock) :
  (0 <= maxRetries)%Z ->
  always_fails operation ->
  exists (events : list TimerEvent) (e : Thrown) (s' : St),
    operation (state_before operation (Z.to_nat maxRetries) s) = (Err e, s')
    /\ withExponentialBackoff operation maxRetries baseDelay s k =
       (Err e, s',
        {| random := random k;
           drawn := drawn k + Z.to_nat maxRetries;
           timeline := timeline k ++ events |})
    /\ events =
       retries maxRetries baseDelay (random k) (drawn k) 0
         (Z.to_nat maxRetries) ++ [Invoked]
    /\ Z.of_nat (invocations events) = (maxRetries + 1)%Z
    /\ List.length (sleeps events) = Z.to_nat maxRetries
    /\ (forall n d, nth_error (sleeps events) n = Some d ->
          d = totalDelay baseDelay n (random k (drawn k + n))
          /\ (DoubleSpec.representable baseDelay ->
              n < 1024 ->
              (2 ^ (-1020) <= baseDelay * inject_Z (2 ^ Z.of_nat n))%Q ->
              (baseDelay * inject_Z (2 ^ Z.of_nat n) <= 2 ^ 1023)%Q ->
              (0 <= random k (drawn k + n))%Q ->
              (random k (drawn k + n) < 1)%Q ->
              in_closed_window baseDelay n d)).
Proof.
  intros Hm Hfail.
  set (n := Z.to_nat maxRetries).
  assert (Hk : forall s0 : St, True ->
             exists e s', operation s0 = (Err e, s') /\ True).
  { intros s0 _. destruct (Hfail s0) as (e & s' & He). now exists e, s'. }
  destruct (Hfail (state_before operation n s)) as (e & s' & He).
  exists (retries maxRetries baseDelay (random k) (drawn k) 0 n ++ [Invoked]),
    e, s'.
  split; [exact He |]. split; [| split; [| split; [| split]]].
  - unfold withExponentialBackoff.
    rewrite (@loop_keeps_failing St T operation maxRetries baseDelay
               (fun _ => True) Hk n 0 s k I)
      by (subst n; f_equal; lia).
    now rewrite He.
  - reflexivity.
  - rewrite invocations_app, invocations_retries. cbn [invocations].
    subst n. lia.
  - rewrite sleeps_app, length_app, sleeps_retries_length. cbn. lia.
  - intros i d Hd. rewrite sleeps_app in Hd. cbn [sleeps] in Hd.
    rewrite app_nil_r in Hd. apply sleeps_retries in Hd.
    destruct Hd as [_ ->]. cbn [Nat.add].
    split; [reflexivity |].
    intros Hrep Hi Hlo Hhi Hr0 Hr1.
    now apply DelayFacts.delay_in_closed_window.
Qed.

Lemma withExponentialBackoff_always_failing_witness :
  exists (events : list TimerEvent) (e : Thrown) (s' : unit),
    Sample.failing (state_before Sample.failing (Z.to_nat 3) tt) = (Err e, s')
    /\ withExponentialBackoff Sample.failing 3 1000 tt (Sample.clock (1 # 2)) =
       (Err e, s',
        {| random := random (Sample.clock (1 # 2));
           drawn := drawn (Sample.clock (1 # 2)) + Z.to_nat 3;
           timeline := timeline (Sample.clock (1 # 2)) ++ events |})
    /\ events =
       retries 3 1000 (random (Sample.clock (1 # 2)))
         (drawn (Sample.clock (1 # 2))) 0 (Z.to_nat 3) ++ [Invoked]
    /\ Z.of_nat (invocations events) = (3 + 1)%Z
    /\ List.length (sleeps events) = Z.to_nat 3
    /\ (forall n d, nth_error (sleeps events) n = Some d ->
          d = totalDelay 1000 n
                (random (Sample.clock (1 # 2))
                   (drawn (Sample.clock (1 # 2)) + n))
          /\ (DoubleSpec.representable 1000 ->
              n < 1024 ->
              (2 ^ (-1020) <= 1000 * inject_Z (2 ^ Z.of_nat n))%Q ->
              (1000 * inject_Z (2 ^ Z.of_nat n) <= 2 ^ 1023)%Q ->
              (0 <= random (Sample.clock (1 # 2))
                      (drawn (Sample.clock (1 # 2)) + n))%Q ->
              (random (Sample.clock (1 # 2))
                 (drawn (Sample.clock (1 # 2)) + n) < 1)%Q ->
              in_closed_window 1000 n d)).
Proof.
  apply (@withExponentialBackoff_always_failing unit unit
           Sample.failing 3 1000 tt (Sample.clock (1 # 2))).
  - lia.
  - intros s. exists (Raw (ThrownValue (VStr (Js.lit "boom")))), tt.
    reflexivity.
Defined.

(** The claim as the specification words it, for every [maxRetries] and
    [baseDelay], fails in three ways. With [maxRetries = -1] the operation
    is called once, not [maxRetries + 1 = 0] times. With [baseDelay = 0]
    the delay slept is 0, which the empty window [[0, 0)] does not hold.
    And the window is not open at its upper end: with the base delay 1000
    and the draw [1 - 2^-52] the delay slept is exactly 1300, and with the
    base delay 141.73835426255502 and the same draw it is above 1.3 times
    the base delay. *)
Lemma withExponentialBackoff_not_for_every_parameter :
  (timeline (snd (withExponentialBackoff Sample.failing (-1) 1000 tt
                    (Sample.clock (1 # 2)))) = [Invoked]
   /\ Z.of_nat (invocations [Invoked]) <> (-1 + 1)%Z)
  /\ (exists d : JsNumber,
         sleeps (timeline (snd (withExponentialBackoff Sample.failing 1 0 tt
                                  (Sample.clock (1 # 2))))) = [d]
         /\ ~ in_window 0 0 d)
  /\ (sleeps (timeline (snd (withExponentialBackoff Sample.failing 1 1000 tt
                               (Sample.clock Sample.largest_draw))))
      = [Finite 1300]
      /\ ~ in_window 1000 0 (Finite 1300))
  /\ (exists q : Q,
         sleeps (timeline (snd (withExponentialBackoff Sample.failing 1
                                  Sample.odd_delay tt
                                  (Sample.clock Sample.largest_draw))))
         = [Finite q]
         /\ (Sample.odd_delay * (13 # 10) < q)%Q
         /\ ~ in_window Sample.odd_delay 0 (Finite q)).
Proof.
  split; [| split; [| split]].
  - split; [reflexivity | discriminate].
  - eexists. split; [vm_compute; reflexivity |].
    intros (q & [= <-] & _ & H). vm_compute in H. discriminate H.
  - split; [vm_compute; reflexivity |].
    intros (q & [= <-] & _ & H). vm_compute in H. discriminate H.
  - eexists. split; [vm_compute; reflexivity |].
    split; [vm_compute; reflexivity |].
    intros (q & [= <-] & _ & H). vm_compute in H. discriminate H.
Qed.

End BackoffFacts.

(* ------------------------------------------------------------------ *)
(** ** The generation clients *)

Module ClientFacts.
Import Backoff Schedule ClientSpec BackoffFacts.

Section WithSerializer.

Variable JSON_stringify : JsValue -> JsString.

(** *** The non-streaming client *)

Lemma operation_missing_key (prompt : JsString) (config : ReadmeConfig)
    (w : World) :
  present (BYTEZ_KEY w) = false ->
  operation JSON_stringify prompt config w = (Err (Gen missing_key_error), w).
Proof. intros H. unfold operation. now rewrite H. Qed.

Lemma operation_rejected (prompt : JsString) (config : ReadmeConfig)
    (w : World) (e : RawError) :
  present (BYTEZ_KEY w) = true ->
  always_rejects w e ->
  operation JSON_stringify prompt config w =
  (Err (Raw e), with_call (plain_call (key_text (BYTEZ_KEY w)) prompt config) w).
Proof.
  intros Hk Hp. unfold operation, run. rewrite Hk. cbn [negb].
  now rewrite Hp.
Qed.

Lemma state_before_missing_key (prompt : JsString) (config : ReadmeConfig)
    (w : World) (n : nat) :
  present (BYTEZ_KEY w) = false ->
  state_before (operation JSON_stringify prompt config) n w = w.
Proof.
  intros H. induction n as [|n IH]; [reflexivity |].
  unfold state_before in *. rewrite Nat.iter_succ, IH.
  now rewrite operation_missing_key.
Qed.

(** C1, on the code. Without a credential [generateReadme] does end with
    the [AUTH_ERROR] that is not retryable, but only after the scheduler
    has run its whole course: the check sits inside the closure handed to
    [withExponentialBackoff], so the closure is called 4 times and 3
    delays, of at least 1, 2 and 4 seconds, are slept in between. *)
Theorem generateReadme_missing_key_retried (prompt : JsString)
    (config : ReadmeConfig) (w : World) (k : Clock) :
  present (BYTEZ_KEY w) = false ->
  (forall i, (0 <= random k i)%Q /\ (random k i < 1)%Q) ->
  let d0 := totalDelay 1000 0 (random k (drawn k)) in
  let d1 := totalDelay 1000 1 (random k (S (drawn k))) in
  let d2 := totalDelay 1000 2 (random k (S (S (drawn k)))) in
  generateReadme JSON_stringify prompt config w k =
    (Err (Gen missing_key_error), w,
     {| random := random k;
        drawn := drawn k + 3;
        timeline :=
          timeline k
          ++ [Invoked; Warned 1 3 d0; Slept d0;
              Invoked; Warned 2 3 d1; Slept d1;
              Invoked; Warned 3 3 d2; Slept d2;
              Invoked] |})
  /\ code missing_key_error = AUTH_ERROR
  /\ retryable missing_key_error = false
  /\ exists q0 q1 q2 : Q,
      d0 = Finite q0 /\ d1 = Finite q1 /\ d2 = Finite q2
      /\ (1000 <= q0)%Q /\ (2000 <= q1)%Q /\ (4000 <= q2)%Q.
Proof.
  intros Hk Hr d0 d1 d2.
  split; [| split; [reflexivity | split; [reflexivity |]]].
  - unfold generateReadme, withExponentialBackoff.
    rewrite (@loop_keeps_failing World JsString
               (operation JSON_stringify prompt config) 3 1000
               (fun w => present (BYTEZ_KEY w) = false)
               (fun s Hs => ex_intro _ (Gen missing_key_error)
                  (ex_intro _ s
                     (conj (@operation_missing_key prompt config s Hs) Hs)))
               3 0 w k Hk eq_refl).
    rewrite (@state_before_missing_key prompt config w 3 Hk).
    rewrite (@operation_missing_key prompt config w Hk).
    reflexivity.
  - assert (Hd : forall n r, n < 3 -> (0 <= r)%Q /\ (r < 1)%Q ->
               exists q, totalDelay 1000 n r = Finite q
                         /\ (1000 * inject_Z (2 ^ Z.of_nat n) <= q)%Q).
    { intros n r Hn [Hr0 Hr1].
      destruct (DelayFacts.delay_of_module n r Hn Hr0 (Qlt_le_weak _ _ Hr1))
        as (q & Hq & L & _).
      now exists q. }
    destruct (Hd 0 _ ltac:(lia) (Hr (drawn k))) as (q0 & H0 & L0).
    destruct (Hd 1 _ ltac:(lia) (Hr (S (drawn k)))) as (q1 & H1 & L1).
    destruct (Hd 2 _ ltac:(lia) (Hr (S (S (drawn k))))) as (q2 & H2 & L2).
    exists q0, q1, q2. repeat split; assumption.
Qed.

(** C2, on the code. When the provider call of the non-streaming client
    throws, on every attempt, an exception that is not a
    [ReadmeGenerationError], that very exception is what [generateReadme]
    ends with: nothing catches and classifies it on the way. *)
Theorem generateReadme_raw_error_escapes (prompt : JsString)
    (config : ReadmeConfig) (w : World) (k : Clock) (e : RawError) :
  present (BYTEZ_KEY w) = true ->
  always_rejects w e ->
  fst (fst (generateReadme JSON_stringify prompt config w k)) = Err (Raw e)
  /\ is_generation_error (Raw e) = false.
Proof.
  intros Hk Hp. split; [| reflexivity].
  set (failing := fun w : World =>
         present (BYTEZ_KEY w) = true /\ always_rejects w e).
  assert (Hkeep : forall s, failing s ->
            exists err s',
              operation JSON_stringify prompt config s = (Err err, s')
              /\ failing s').
  { intros s [Hs1 Hs2]. exists (Raw e). eexists. split.
    - now apply operation_rejected.
    - split; [exact Hs1 | exact Hs2]. }
  unfold generateReadme, withExponentialBackoff.
  rewrite (@loop_keeps_failing World JsString
             (operation JSON_stringify prompt config) 3 1000
             failing Hkeep 3 0 w k (conj Hk Hp) eq_refl).
  cbn [fst].
  destruct (@state_before_failing World JsString
              (operation JSON_stringify prompt config) failing Hkeep 3 w
              (conj Hk Hp)) as [H1 H2].
  now rewrite (@operation_rejected prompt config _ e H1 H2).
Qed.

(** *** The streaming client *)

Variable engine : Engine.

Lemma deliver_all_fields (values : list JsValue) :
  forall w : World,
    delivered (deliver_all values w) = delivered w ++ values
    /\ console (deliver_all values w) = console w
    /\ calls (deliver_all values w) = calls w.
Proof.
  unfold deliver_all.
  induction values as [|v values IH]; intros w; cbn [fold_left].
  - now rewrite app_nil_r.
  - destruct (IH (deliver v w)) as (H1 & H2 & H3).
    rewrite H1, H2, H3. cbn [deliver delivered console calls].
    now rewrite <- app_assoc.
Qed.

(** A callback that does not throw only leaves its record. *)
Lemma call_onChunk_quiet (onChunk : option Callback) (v : JsValue) (w : World) :
  never_throws onChunk ->
  call_onChunk onChunk v w = (None, deliver_all (heard onChunk [v]) w).
Proof.
  intros H. destruct onChunk as [callback |]; cbn; [| reflexivity].
  now rewrite (H callback eq_refl).
Qed.

(** The callback touches neither the calls nor the console. *)
Lemma call_onChunk_world (onChunk : option Callback) (v : JsValue) (w : World) :
  calls (snd (call_onChunk onChunk v w)) = calls w
  /\ console (snd (call_onChunk onChunk v w)) = console w.
Proof. destruct onChunk; split; reflexivity. Qed.

Lemma heard_cons (onChunk : option Callback) (v : JsValue)
    (values : list JsValue) (w : World) :
  deliver_all (heard onChunk (v :: values)) w
  = deliver_all (heard onChunk values) (deliver_all (heard onChunk [v]) w).
Proof. destruct onChunk; reflexivity. Qed.

(** The loop over fragments that are strings: each is appended and handed
    to the callback, in the order of arrival. *)
Lemma consume_strings (onChunk : option Callback) (fragments : list JsString) :
  never_throws onChunk ->
  forall (fullMarkdown : JsString) (w : World),
    consume onChunk (List.map ChunkString fragments) None fullMarkdown w =
    (Ok (fullMarkdown ++ List.concat fragments),
     deliver_all (heard onChunk (List.map VStr fragments)) w).
Proof.
  intros Hq.
  induction fragments as [|text fragments IH]; intros fullMarkdown w.
  - cbn [List.map consume List.concat]. rewrite app_nil_r.
    now destruct onChunk.
  - cbn [List.map consume chunk_text List.concat].
    rewrite (@call_onChunk_quiet onChunk (VStr text) w Hq). cbv iota beta.
    rewrite IH, (@heard_cons onChunk (VStr text) (List.map VStr fragments) w).
    now rewrite <- app_assoc.
Qed.

(** The loop never touches the record of the calls. *)
Lemma consume_calls (onChunk : option Callback) (items : list Chunk)
    (failure : option RawError) :
  forall (fullMarkdown : JsString) (w : World),
    calls (snd (consume onChunk items failure fullMarkdown w)) = calls w.
Proof.
  induction items as [|chunk items IH]; intros fullMarkdown w.
  - cbn. now destruct failure.
  - cbn [consume]. destruct (chunk_text chunk) as [text | e]; [| reflexivity].
    destruct (call_onChunk_world onChunk (VStr text) w) as [Hc _].
    destruct (call_onChunk onChunk (VStr text) w) as [[e |] w1];
      cbn [snd] in *; [exact Hc |].
    now rewrite IH.
Qed.

Lemma collect_calls (onChunk : option Callback) (response : Response)
    (w : World) :
  calls (snd (collect onChunk response w)) = calls w.
Proof.
  destruct response as [items failure | v]; cbn [collect].
  - pose proof (consume_calls onChunk items failure [] w) as H.
    now destruct (consume onChunk items failure [] w) as [[text | e] w1].
  - destruct (is_string v).
    + destruct (call_onChunk_world onChunk v w) as [Hc _].
      now destruct (call_onChunk onChunk v w) as [[e |] w1].
    + destruct (truthy v && typeof_object v && has_key (Js.lit "content") v);
        [| reflexivity].
      destruct (call_onChunk_world onChunk (get v (Js.lit "content")) w)
        as [Hc _].
      now destruct (call_onChunk onChunk (get v (Js.lit "content")) w)
        as [[e |] w1].
Qed.

Lemma streaming_try_calls (key prompt : JsString) (config : ReadmeConfig)
    (onChunk : option Callback) (w : World) :
  calls (snd (streaming_try key prompt config onChunk w)) =
  calls w ++ [streaming_call key prompt config].
Proof.
  unfold streaming_try, run.
  destruct (provider w (calls w) (streaming_call key prompt config))
    as [e | response]; [reflexivity |].
  pose proof (collect_calls onChunk response
                (with_call (streaming_call key prompt config) w)) as H.
  destruct (collect onChunk response
              (with_call (streaming_call key prompt config) w))
    as [[v | e] w1]; cbn [snd] in H; [| exact H].
  destruct (cleanup_value "fullMarkdown" v) as [text | e]; [| exact H].
  now destruct (negb (Validator.valid (Validator.validateReadmeOutput text))).
Qed.

(** C10. With a credential, the streaming client makes one provider call,
    and its temperature is [config.temperature || 0.7]: 0.7 when the
    configuration has the temperature 0 or none, and the temperature of the
    configuration exactly when that is truthy, hence never when it is 0. *)
Theorem streaming_temperature_defaults (prompt : JsString)
    (config : ReadmeConfig) (onChunk : option Callback) (w : World) :
  present (BYTEZ_KEY w) = true ->
  exists c : Call,
    calls (snd (generateReadmeStreaming engine prompt config onChunk w)) =
      calls w ++ [c]
    /\ (forall q, temperature config = Some (Finite q) -> (q == 0)%Q ->
                  call_temperature c = Some (Finite (7 # 10)))
    /\ (temperature config = None ->
        call_temperature c = Some (Finite (7 # 10)))
    /\ (forall t, temperature config = Some t ->
                  (call_temperature c = Some t <-> number_truthy t = true))
    /\ (forall q, temperature config = Some (Finite q) ->
                  call_temperature c = Some (Finite q) -> ~ (q == 0)%Q).
Proof.
  intros Hk.
  exists (streaming_call (key_text (BYTEZ_KEY w)) prompt config).
  assert (Hiff : forall t, temperature config = Some t ->
            (call_temperature
               (streaming_call (key_text (BYTEZ_KEY w)) prompt config) = Some t
             <-> number_truthy t = true)).
  { intros t Ht. unfold call_temperature, streaming_call, streaming_options.
    cbn [call_options option_map opt_temperature]. rewrite Ht.
    destruct (number_truthy t) eqn:Hn; split; try reflexivity; try discriminate.
    intros [= <-]. discriminate Hn. }
  split; [| split; [| split; [| split]]].
  - unfold generateReadmeStreaming. rewrite Hk. cbn [negb].
    pose proof (streaming_try_calls (key_text (BYTEZ_KEY w)) prompt config
                  onChunk w) as H.
    now destruct (streaming_try (key_text (BYTEZ_KEY w)) prompt config onChunk w)
      as [[s | err] w1].
  - intros q Ht Hq. unfold call_temperature, streaming_call, streaming_options.
    cbn [call_options option_map opt_temperature]. rewrite Ht.
    cbn [number_truthy]. apply Qeq_bool_iff in Hq. now rewrite Hq.
  - intros Ht. unfold call_temperature, streaming_call, streaming_options.
    cbn [call_options option_map opt_temperature]. now rewrite Ht.
  - exact Hiff.
  - intros q Ht Hc Hq. apply (Hiff _ Ht) in Hc. cbn [number_truthy] in Hc.
    apply Qeq_bool_iff in Hq. rewrite Hq in Hc. discriminate Hc.
Qed.

End WithSerializer.

Lemma generateReadme_missing_key_retried_witness :
  let k := Sample.clock (1 # 2) in
  let d0 := totalDelay 1000 0 (random k (drawn k)) in
  let d1 := totalDelay 1000 1 (random k (S (drawn k))) in
  let d2 := totalDelay 1000 2 (random k (S (S (drawn k)))) in
  generateReadme Sample.stringify [] empty_config Sample.no_key_world k =
    (Err (Gen missing_key_error), Sample.no_key_world,
     {| random := random k;
        drawn := drawn k + 3;
        timeline :=
          timeline k
          ++ [Invoked; Warned 1 3 d0; Slept d0;
              Invoked; Warned 2 3 d1; Slept d1;
              Invoked; Warned 3 3 d2; Slept d2;
              Invoked] |})
  /\ code missing_key_error = AUTH_ERROR
  /\ retryable missing_key_error = false
  /\ exists q0 q1 q2 : Q,
      d0 = Finite q0 /\ d1 = Finite q1 /\ d2 = Finite q2
      /\ (1000 <= q0)%Q /\ (2000 <= q1)%Q /\ (4000 <= q2)%Q.
Proof.
  apply (@generateReadme_missing_key_retried Sample.stringify []
           empty_config Sample.no_key_world (Sample.clock (1 # 2))).
  - reflexivity.
  - intros i. split; [discriminate | reflexivity].
Defined.

Lemma generateReadme_raw_error_escapes_witness :
  fst (fst (generateReadme Sample.stringify [] empty_config
              Sample.offline_world (Sample.clock (1 # 2))))
  = Err (Raw Sample.network_down)
  /\ is_generation_error (Raw Sample.network_down) = false.
Proof.
  apply (@generateReadme_raw_error_escapes Sample.stringify []
           empty_config Sample.offline_world (Sample.clock (1 # 2))
           Sample.network_down).
  - reflexivity.
  - intros history c. reflexivity.
Defined.

(** A [TypeError] of the cleanup escapes the same way: the provider
    answers with a number as [content], [replace] is not a function on
    it, and the exception reaches the caller as it is. *)
Example generateReadme_type_error_escapes :
  fst (fst (generateReadme Sample.stringify [] empty_config
              Sample.numeric_world (Sample.clock (1 # 2))))
  = Err (Raw (TypeError (NotAFunction (Js.lit "finalMarkdown.replace")))).
Proof. vm_compute. reflexivity. Qed.

(** The streaming client on the same provider classifies the exception. *)
Example generateReadmeStreaming_offline :
  fst (generateReadmeStreaming Sample.v8 [] empty_config
         (Some Sample.recording) Sample.offline_world)
  = Err (Gen {| message := Js.lit "Network error occurred. Check your connection.";
                code := NETWORK_ERROR; retryable := true;
                originalError := Some (CausedBy Sample.network_down) |}).
Proof. vm_compute. reflexivity. Qed.

Lemma streaming_temperature_defaults_witness :
  exists c : Call,
    calls (snd (generateReadmeStreaming Sample.v8 [] Sample.cold_config
                  (Some Sample.recording) Sample.streaming_world)) =
      calls Sample.streaming_world ++ [c]
    /\ (forall q, temperature Sample.cold_config = Some (Finite q) ->
                  (q == 0)%Q ->
                  call_temperature c = Some (Finite (7 # 10)))
    /\ (temperature Sample.cold_config = None ->
        call_temperature c = Some (Finite (7 # 10)))
    /\ (forall t, temperature Sample.cold_config = Some t ->
                  (call_temperature c = Some t <-> number_truthy t = true))
    /\ (forall q, temperature Sample.cold_config = Some (Finite q) ->
                  call_temperature c = Some (Finite q) -> ~ (q == 0)%Q).
Proof.
  apply (@streaming_temperature_defaults Sample.v8 [] Sample.cold_config
           (Some Sample.recording) Sample.streaming_world).
  reflexivity.
Defined.

(** The call of the example above, evaluated: its temperature is 0.7. *)
Example cold_config_call :
  List.map call_temperature
    (calls (snd (generateReadmeStreaming Sample.v8 [] Sample.cold_config
                   (Some Sample.recording) Sample.streaming_world)))
  = [Some (Finite (7 # 10))].
Proof. vm_compute. reflexivity. Qed.

(** The cleanup removes one fence wrapper and the white space around. *)
Example cleanup_wrapper :
  cleanup (Js.lit "```Markdown" ++ Js.nl ++ Js.lit "# Title " ++ Js.nl
           ++ Js.lit "```")
  = Js.lit "# Title".
Proof. vm_compute. reflexivity. Qed.

End ClientFacts.

(* ------------------------------------------------------------------ *)
(** ** The fallback orchestrator *)

Module FallbackFacts.
Import Fallback FallbackSpec.

Lemma nth_error_last {A : Type} (l : list A) (x : A) :
  nth_error (l ++ [x]) (List.length (l ++ [x]) - 1) = Some x.
Proof.
  rewrite length_app. cbn [List.length].
  replace (List.length l + 1 - 1) with (List.length l) by lia.
  rewrite nth_error_app2 by lia. now rewrite Nat.sub_diag.
Qed.

(** In a list without repetition, the identifier of a candidate is that of
    the last one only for the last candidate. *)
Lemma is_last_model_position (models pre post : list JsString) (m : JsString) :
  NoDup models ->
  models = pre ++ m :: post ->
  is_last_model models m = true <-> post = [].
Proof.
  intros Hnd ->. unfold is_last_model.
  destruct (exists_last (l := m :: post)) as (l' & z & Hz); [discriminate |].
  assert (Hm : pre ++ m :: post = (pre ++ l') ++ [z])
    by now rewrite Hz, app_assoc.
  rewrite Hm, nth_error_last, Js_eqb_eq.
  split.
  - intros <-. destruct post as [|y post]; [reflexivity | exfalso].
    apply NoDup_remove_2 in Hnd. apply Hnd.
    apply in_or_app. right.
    apply (f_equal (@List.tl _)) in Hz.
    destruct l' as [|y' l']; cbn in Hz; [discriminate Hz |].
    rewrite Hz. apply in_or_app. right. now left.
  - intros ->. destruct l' as [|y' l']; cbn in Hz.
    + now injection Hz.
    + apply (f_equal (@List.tl _)) in Hz. cbn in Hz. now destruct l'.
Qed.

(** Reading [retryable] from what was caught: it throws only on [null]
    and [undefined], which are then not retryable either. *)
Lemma read_retryable_cases (err : Thrown) :
  (read_retryable err = Ok (retryable_of err) /\ rethrown err = err)
  \/ (exists n : Nullish,
         err = Raw (ThrownValue (match n with
                                 | Null => VNull
                                 | Undefined => VUndefined
                                 end))
         /\ retryable_of err = false
         /\ read_retryable err
            = Err (Raw (TypeError (ReadOfNullish n (Js.lit "retryable"))))
         /\ rethrown err
            = Raw (TypeError (ReadOfNullish n (Js.lit "retryable")))).
Proof.
  destruct err as [g | [v | f]]; try (left; split; reflexivity).
  destruct v; try (left; split; reflexivity).
  - right. exists Undefined. repeat split; reflexivity.
  - right. exists Null. repeat split; reflexivity.
Qed.

Lemma rethrown_retryable (err : Thrown) :
  retryable_of err = true -> read_retryable err = Ok true.
Proof.
  intros H. destruct (read_retryable_cases err) as [[-> _] | (n & _ & E & _)].
  - now rewrite H.
  - congruence.
Qed.

Section Steps.

Context {St : Type}.
Variable generate : JsString -> ReadmeConfig -> St -> Result JsString * St.
Variable models : list JsString.
Variables (prompt : JsString) (config : ReadmeConfig).

(** A success ends the loop. *)
Lemma attempt_from_success (m : JsString) (post : list JsString)
    (s s' : St) (out : list ConsoleLine) (md : JsString) :
  generate prompt (with_model config m) s = (Ok md, s') ->
  attempt_from generate models prompt config (m :: post) s out =
  (Ok {| markdown := md; modelUsed := m |}, s', out ++ [LogAttempting m]).
Proof. intros H. cbn [attempt_from]. now rewrite H. Qed.

(** A failure: the test of the [catch] block decides. *)
Lemma attempt_from_failure (m : JsString) (post : list JsString)
    (s s' : St) (out : list ConsoleLine) (err : Thrown) :
  generate prompt (with_model config m) s = (Err err, s') ->
  attempt_from generate models prompt config (m :: post) s out =
  if negb (retryable_of err) || is_last_model models m
  then (Err (rethrown err), s', out ++ [LogAttempting m])
  else attempt_from generate models prompt config post s'
         (out ++ [LogAttempting m; WarnFailed m]).
Proof.
  intros H. cbn [attempt_from]. rewrite H.
  destruct (read_retryable_cases err)
    as [[-> ->] | (n & _ & -> & -> & ->)].
  - destruct (negb (retryable_of err) || is_last_model models m);
      [reflexivity | now rewrite <- app_assoc].
  - reflexivity.
Qed.

(** A failure that is not retryable, or that of the candidate with the
    identifier of the last one, ends the loop. *)
Lemma attempt_from_propagates (m : JsString) (post : list JsString)
    (s s' : St) (out : list ConsoleLine) (err : Thrown) :
  generate prompt (with_model config m) s = (Err err, s') ->
  negb (retryable_of err) || is_last_model models m = true ->
  attempt_from generate models prompt config (m :: post) s out =
  (Err (rethrown err), s', out ++ [LogAttempting m]).
Proof.
  intros H Hc.
  rewrite (@attempt_from_failure m post s s' out err H). now rewrite Hc.
Qed.

(** Any other failure is logged and the loop goes on. *)
Lemma attempt_from_proceeds (m : JsString) (post : list JsString)
    (s s' : St) (out : list ConsoleLine) (err : Thrown) :
  generate prompt (with_model config m) s = (Err err, s') ->
  negb (retryable_of err) || is_last_model models m = false ->
  attempt_from generate models prompt config (m :: post) s out =
  attempt_from generate models prompt config post s'
    (out ++ [LogAttempting m; WarnFailed m]).
Proof.
  intros H Hc.
  rewrite (@attempt_from_failure m post s s' out err H). now rewrite Hc.
Qed.


End Steps.

(** Candidates that fail with retryable errors and do not bear the
    identifier of the last one are passed, one after the other. *)
Lemma attempt_from_through {St : Type}
    (generate : JsString -> ReadmeConfig -> St -> Result JsString * St)
    (models : list JsString) (prompt : JsString) (config : ReadmeConfig)
    (before : list JsString) :
  forall (rest : list JsString) (s s1 : St) (out : list ConsoleLine),
    (forall m, In m before -> is_last_model models m = false) ->
    failed_through generate prompt config before s = Some s1 ->
    attempt_from generate models prompt config (before ++ rest) s out =
    attempt_from generate models prompt config rest s1 (out ++ trail before).
Proof.
  induction before as [|m before IH]; intros rest s s1 out Hlast Hf.
  - cbn in Hf. injection Hf as <-. cbn. now rewrite app_nil_r.
  - cbn [failed_through] in Hf.
    destruct (generate prompt (with_model config m) s) as [[md | err] s'] eqn:Hg;
      [discriminate Hf |].
    destruct (retryable_of err) eqn:Hr; [| discriminate Hf].
    cbn [app].
    rewrite (@attempt_from_proceeds St generate models prompt config m
               (before ++ rest) s s' out err Hg)
      by (rewrite Hr, (Hlast m (or_introl eq_refl)); reflexivity).
    rewrite (IH rest s' s1 _ (fun x Hx => Hlast x (or_intror Hx)) Hf).
    cbn [trail flat_map app]. now rewrite <- app_assoc.
Qed.

(** In a list without repetition no candidate before another one bears
    the identifier of the last. *)
Lemma before_not_last (models before post : list JsString) (m : JsString) :
  NoDup models ->
  models = before ++ m :: post ->
  forall x, In x before -> is_last_model models x = false.
Proof.
  intros Hnd Hm x Hx.
  destruct (in_split x before Hx) as (p1 & p2 & ->).
  assert (Hs : models = p1 ++ x :: (p2 ++ m :: post))
    by now rewrite Hm, <- app_assoc.
  pose proof (@is_last_model_position models p1 (p2 ++ m :: post) x Hnd Hs)
    as Hlast.
  destruct (is_last_model models x); [| reflexivity].
  assert (H : p2 ++ m :: post = []) by now apply Hlast.
  now destruct p2.
Qed.




(** The first example of the specification: [a] fails with a retryable
    error and [b] succeeds; [c] is never attempted. *)
Lemma fallback_second_candidate {St : Type}
    (generate : JsString -> ReadmeConfig -> St -> Result JsString * St)
    (a b c prompt : JsString) (config : ReadmeConfig) (s s1 s2 : St)
    (err : Thrown) (md : JsString) :
  NoDup [a; b; c] ->
  generate prompt (with_model config a) s = (Err err, s1) ->
  retryable_of err = true ->
  generate prompt (with_model config b) s1 = (Ok md, s2) ->
  run_fallback generate [a; b; c] prompt config s =
  (Ok {| markdown := md; modelUsed := b |}, s2,
   [LogAttempting a; WarnFailed a; LogAttempting b]).
Proof.
  intros Hnd Ha Hr Hb. unfold run_fallback.
  change (attempt_from generate [a; b; c] prompt config ([a] ++ [b; c]) s []
          = (Ok {| markdown := md; modelUsed := b |}, s2,
             [LogAttempting a; WarnFailed a; LogAttempting b])).
  rewrite (@attempt_from_through St generate [a; b; c] prompt config
             [a] [b; c] s s1 []
             (@before_not_last [a; b; c] [a] [c] b Hnd eq_refl)).
  - now apply attempt_from_success.
  - cbn. now rewrite Ha, Hr.
Qed.

(** The second example: [a] fails with an error that is marked as not
    retryable; [b] is never attempted. *)
Lemma fallback_not_retryable {St : Type}
    (generate : JsString -> ReadmeConfig -> St -> Result JsString * St)
    (a b prompt : JsString) (config : ReadmeConfig) (s s1 : St)
    (g : ReadmeGenerationError) :
  generate prompt (with_model config a) s = (Err (Gen g), s1) ->
  retryable g = false ->
  run_fallback generate [a; b] prompt config s =
  (Err (Gen g), s1, [LogAttempting a]).
Proof.
  intros Ha Hr. unfold run_fallback.
  apply (@attempt_from_propagates St generate [a; b] prompt config a [b]
           s s1 [] (Gen g) Ha).
  cbn [retryable_of]. now rewrite Hr.
Qed.


(** C4, as the code has it. The orchestrator never looks at the [code] of
    an error, only at its [retryable] flag. An [UNKNOWN] failure of a
    candidate is propagated at once when its flag is unset (as for the
    exceptions the streaming classification cannot place) or when the
    candidate is the last; an [UNKNOWN] failure whose flag is set, which is
    what [generateReadme] throws for an error reported by the provider,
    takes the loop to the next candidate. *)
Theorem attempt_from_unknown_by_flag {St : Type}
    (generate : JsString -> ReadmeConfig -> St -> Result JsString * St)
    (models pre post : list JsString) (m : JsString)
    (prompt : JsString) (config : ReadmeConfig)
    (s s' : St) (out : list ConsoleLine) (e : ReadmeGenerationError) :
  NoDup models ->
  models = pre ++ m :: post ->
  code e = UNKNOWN ->
  generate prompt (with_model config m) s = (Err (Gen e), s') ->
  (retryable e = false \/ post = [] ->
   attempt_from generate models prompt config (m :: post) s out =
   (Err (Gen e), s', out ++ [LogAttempting m]))
  /\ (retryable e = true -> post <> [] ->
      attempt_from generate models prompt config (m :: post) s out =
      attempt_from generate models prompt config post s'
        (out ++ [LogAttempting m; WarnFailed m]))
  /\ (forall (JSON_stringify : JsValue -> JsString) (error : JsValue),
         code (provider_error JSON_stringify error) = UNKNOWN
         /\ retryable (provider_error JSON_stringify error) = true).
Proof.
  intros Hnd Hm _ H.
  pose proof (@is_last_model_position models pre post m Hnd Hm) as Hlast.
  split; [| split].
  - intros Hc.
    apply (@attempt_from_propagates St generate models prompt config m post
             s s' out (Gen e) H).
    cbn [retryable_of]. destruct Hc as [Hc | Hc].
    + now rewrite Hc.
    + apply Hlast in Hc. rewrite Hc. apply orb_true_r.
  - intros Hr Hp.
    apply (@attempt_from_proceeds St generate models prompt config m post
             s s' out (Gen e) H).
    cbn [retryable_of]. rewrite Hr. cbn [negb orb].
    destruct (is_last_model models m); [| reflexivity].
    assert (post = []) by now apply Hlast. congruence.
  - intros JSON_stringify error. split; reflexivity.
Qed.

Lemma attempt_from_unknown_by_flag_witness :
  (retryable (provider_error Sample.stringify VNull) = false
   \/ [Sample.model_b] = [] ->
   attempt_from (fun _ _ (s : unit) =>
                   (Err (Gen (provider_error Sample.stringify VNull)), s))
     [Sample.model_a; Sample.model_b] [] empty_config
     [Sample.model_a; Sample.model_b] tt [] =
   (Err (Gen (provider_error Sample.stringify VNull)), tt,
    [] ++ [LogAttempting Sample.model_a]))
  /\ (retryable (provider_error Sample.stringify VNull) = true ->
      [Sample.model_b] <> [] ->
      attempt_from (fun _ _ (s : unit) =>
                      (Err (Gen (provider_error Sample.stringify VNull)), s))
        [Sample.model_a; Sample.model_b] [] empty_config
        [Sample.model_a; Sample.model_b] tt [] =
      attempt_from (fun _ _ (s : unit) =>
                      (Err (Gen (provider_error Sample.stringify VNull)), s))
        [Sample.model_a; Sample.model_b] [] empty_config
        [Sample.model_b] tt
        ([] ++ [LogAttempting Sample.model_a; WarnFailed Sample.model_a]))
  /\ (forall (JSON_stringify : JsValue -> JsString) (error : JsValue),
         code (provider_error JSON_stringify error) = UNKNOWN
         /\ retryable (provider_error JSON_stringify error) = true).
Proof.
  apply (@attempt_from_unknown_by_flag unit
           (fun _ _ (s : unit) =>
              (Err (Gen (provider_error Sample.stringify VNull)), s))
           [Sample.model_a; Sample.model_b] [] [Sample.model_b]
           Sample.model_a [] empty_config tt tt []
           (provider_error Sample.stringify VNull)).
  - repeat constructor; cbn; intuition discriminate.
  - reflexivity.
  - reflexivity.
  - reflexivity.
Defined.

(** The claim as the specification words it fails on the module itself:
    the provider reports an error for the first candidate, so the attempt
    of that candidate ends, after its retries, with an [UNKNOWN] error;
    the orchestrator does not propagate it but goes on to the second
    candidate, whose document it returns. *)
Lemma fallback_continues_after_unknown :
  (exists e : ReadmeGenerationError,
      fst (fst (generateReadme Sample.stringify []
                  (with_model empty_config (Js.lit "openai/gpt-4o"))
                  Sample.overloaded_world (Sample.clock (1 # 2))))
      = Err (Gen e)
      /\ code e = UNKNOWN /\ retryable e = true)
  /\ fst (fst (generateReadmeWithFallback Sample.stringify [] empty_config
                 Sample.overloaded_world (Sample.clock (1 # 2))))
     = Ok {| markdown := Sample.readme;
             modelUsed := Js.lit "openai/gpt-4-turbo" |}
  /\ snd (generateReadmeWithFallback Sample.stringify [] empty_config
            Sample.overloaded_world (Sample.clock (1 # 2)))
     = [LogAttempting (Js.lit "openai/gpt-4o");
        WarnFailed (Js.lit "openai/gpt-4o");
        LogAttempting (Js.lit "openai/gpt-4-turbo")].
Proof.
  split; [| split].
  - eexists. split; [vm_compute; reflexivity | split; reflexivity].
  - vm_compute. reflexivity.
  - vm_compute. reflexivity.
Qed.

End FallbackFacts.

(* ================================================================== *)
(** * Further properties *)
(* ================================================================== *)

Unset Implicit Arguments.

(** ** The scheduler on any operation *)

Module BackoffRuns.
Import Backoff Schedule Delays BackoffFacts.

Section AnyOperation.

Context {St T : Type}.
Variable operation : St -> Result T * St.
Variable maxRetries : Z.
Variable baseDelay : Q.

(** The shape of every run of the loop: [j] failed calls, each with its
    warning and its sleep, and one last call whose outcome is the result;
    the last call fails only when the retries are used up. *)
Lemma loop_run (n : nat) :
  forall (attempt : nat) (s : St) (k : Clock),
    n = Z.to_nat (maxRetries - Z.of_nat attempt) ->
    exists j : nat,
      j <= n
      /\ loop operation maxRetries baseDelay attempt s k =
         (fst (operation (state_before operation j s)),
          snd (operation (state_before operation j s)),
          {| random := random k;
             drawn := drawn k + j;
             timeline :=
               timeline k
               ++ retries maxRetries baseDelay (random k) (drawn k) attempt j
               ++ [Invoked] |})
      /\ (forall i, i < j ->
            exists e, fst (operation (state_before operation i s)) = Err e)
      /\ (forall e, fst (operation (state_before operation j s)) = Err e ->
            j = n).
Proof.
  induction n as [|n IH]; intros attempt s k Hn; rewrite loop_step.
  - exists 0. change (state_before operation 0 s) with s.
    split; [lia |]. split; [| split; [intros i Hi; lia | reflexivity]].
    destruct (operation s) as [[v | e] s']; cbn [fst snd retries app].
    + unfold record. now rewrite Nat.add_0_r.
    + replace (Z.geb (Z.of_nat attempt) maxRetries) with true
        by (symmetry; rewrite Z.geb_leb; apply Z.leb_le; lia).
      unfold record. now rewrite Nat.add_0_r.
  - destruct (operation s) as [[v | e] s'] eqn:He.
    + exists 0. change (state_before operation 0 s) with s. rewrite He.
      split; [lia |]. split; [| split; [intros i Hi; lia | discriminate]].
      cbn [fst snd retries app]. unfold record. now rewrite Nat.add_0_r.
    + replace (Z.geb (Z.of_nat attempt) maxRetries) with false
        by (symmetry; rewrite Z.geb_leb; apply Z.leb_gt; lia).
      destruct (IH (S attempt) s'
                  (wait maxRetries baseDelay attempt (record Invoked k)))
        as (j & Hj & Hrun & Hbefore & Hlast); [lia |].
      assert (Hs : forall i, state_before operation (S i) s
                             = state_before operation i s').
      { intros i. unfold state_before. now rewrite Nat.iter_succ_r, He. }
      exists (S j). rewrite !Hs. split; [lia |]. split; [| split].
      * rewrite Hrun. unfold wait, Math_random, record.
        cbn [random drawn timeline retries].
        f_equal. f_equal; [lia |]. rewrite <- !app_assoc. reflexivity.
      * intros [|i] Hi.
        -- exists e. change (state_before operation 0 s) with s. now rewrite He.
        -- rewrite Hs. apply Hbefore. lia.
      * intros e' He'. f_equal. now apply (Hlast e').
Qed.

End AnyOperation.

Lemma total_app (l1 l2 : list Q) :
  (total (l1 ++ l2) == total l1 + total l2)%Q.
Proof.
  unfold total. induction l1 as [|d l1 IH]; cbn [app fold_right].
  - ring.
  - rewrite IH. ring.
Qed.

Lemma pow2_succ (n : nat) :
  (inject_Z (2 ^ Z.of_nat (S n)) == 2 * inject_Z (2 ^ Z.of_nat n))%Q.
Proof.
  rewrite Nat2Z.inj_succ, Z.pow_succ_r by lia.
  now rewrite inject_Z_mult.
Qed.

Lemma pow2_positive (n : nat) : (0 < inject_Z (2 ^ Z.of_nat n))%Q.
Proof.
  change 0%Q with (inject_Z 0). rewrite <- Zlt_Qlt.
  apply Z.pow_pos_nonneg; lia.
Qed.

(** The delays of [n] retries from the attempt [a] on are finite, and add
    up to at most 1.3 times the geometric sum of their bases, with the
    room of the roundings. *)
Lemma total_retries (maxRetries : Z) (baseDelay : Q) (rand : nat -> Q)
    (limit : nat) :
  DoubleSpec.representable baseDelay ->
  limit < 1024 ->
  (2 ^ (-1020) <= baseDelay)%Q ->
  (baseDelay * inject_Z (2 ^ Z.of_nat limit) <= 2 ^ 1023)%Q ->
  (forall i, (0 <= rand i)%Q /\ (rand i < 1)%Q) ->
  forall n drawn a,
    a + n <= limit ->
    exists delays : list Q,
      sleeps (retries maxRetries baseDelay rand drawn a n) = finite delays
      /\ (0 <= total delays
          /\ total delays
             <= baseDelay * inject_Z (2 ^ Z.of_nat a)
                * (inject_Z (2 ^ Z.of_nat n) - 1)
                * ((13 # 10) * (1 + 2 ^ (-52))))%Q.
Proof.
  intros Hrep Hlimit Hlow Hhigh Hr.
  assert (Hb : (0 < baseDelay)%Q).
  { eapply Qlt_le_trans; [| exact Hlow]. reflexivity. }
  induction n as [|n IH]; intros drawn a Han.
  - exists []. split; [reflexivity |].
    cbn [total fold_right]. change (inject_Z (2 ^ Z.of_nat 0)) with 1%Q.
    split; [apply Qle_refl |]. apply Qle_lteq. right. ring.
  - cbn [retries sleeps].
    destruct (IH (S drawn) (S a)) as (rest & -> & IH0 & IH1); [lia |].
    pose proof (pow2_positive a) as Ha. pose proof (pow2_positive n) as Hn.
    assert (Ha1 : (1 <= inject_Z (2 ^ Z.of_nat a))%Q).
    { change 1%Q with (inject_Z 1). rewrite <- Zle_Qle.
      change 1%Z with (2 ^ 0)%Z. apply Z.pow_le_mono_r; lia. }
    assert (Hal : (inject_Z (2 ^ Z.of_nat a)
                   <= inject_Z (2 ^ Z.of_nat limit))%Q).
    { rewrite <- Zle_Qle. apply Z.pow_le_mono_r; lia. }
    destruct (Hr drawn) as [Hr0 Hr1].
    destruct (@DelayFacts.delay_in_closed_window baseDelay a (rand drawn))
      as (q & Hq & Hq0 & Hq1); try assumption.
    + lia.
    + eapply Qle_trans; [exact Hlow |].
      set (pa := inject_Z (2 ^ Z.of_nat a)) in *. nra.
    + eapply Qle_trans; [| exact Hhigh].
      set (pa := inject_Z (2 ^ Z.of_nat a)) in *.
      set (pl := inject_Z (2 ^ Z.of_nat limit)) in *. nra.
    + rewrite Hq. exists (q :: rest). split; [reflexivity |].
      cbn [total fold_right]. fold (total rest).
      rewrite pow2_succ in IH1. rewrite pow2_succ.
      set (pa := inject_Z (2 ^ Z.of_nat a)) in *.
      set (pn := inject_Z (2 ^ Z.of_nat n)) in *.
      set (c := ((13 # 10) * (1 + 2 ^ (-52)))%Q) in *.
      assert (Hq1' : (q <= baseDelay * pa * c)%Q).
      { eapply Qle_trans; [exact Hq1 |]. apply Qle_lteq. right.
        unfold c. ring. }
      assert (HI : (total rest
                    <= 2 * (baseDelay * pa * pn * c)
                       - 2 * (baseDelay * pa * c))%Q).
      { eapply Qle_trans; [exact IH1 |]. apply Qle_lteq. right. ring. }
      assert (Hgoal : (baseDelay * pa * (2 * pn - 1) * c
                       == 2 * (baseDelay * pa * pn * c) - baseDelay * pa * c)%Q)
        by ring.
      rewrite Hgoal. clear Hgoal IH1 Hq1.
      assert (He : (0 <= baseDelay * pa)%Q) by nra.
      set (E := (baseDelay * pa * c)%Q) in *.
      set (F := (baseDelay * pa * pn * c)%Q) in *.
      set (t := total rest) in *.
      split; lra.
Qed.

(** With the parameters of the module the roundings take no room: the
    delays of [n] retries from the attempt [a] on, none after the third,
    add up to at most 1300 times the geometric sum. *)
Lemma total_retries_module (maxRetries : Z) (rand : nat -> Q) :
  (forall i, (0 <= rand i)%Q /\ (rand i < 1)%Q) ->
  forall n drawn a,
    a + n <= 3 ->
    exists delays : list Q,
      sleeps (retries maxRetries 1000 rand drawn a n) = finite delays
      /\ (total delays
          <= 1300 * inject_Z (2 ^ Z.of_nat a)
             * (inject_Z (2 ^ Z.of_nat n) - 1))%Q.
Proof.
  intros Hr.
  induction n as [|n IH]; intros drawn a Han.
  - exists []. split; [reflexivity |].
    cbn [total fold_right]. change (inject_Z (2 ^ Z.of_nat 0)) with 1%Q.
    apply Qle_lteq. right. ring.
  - cbn [retries sleeps].
    destruct (IH (S drawn) (S a)) as (rest & -> & IH1); [lia |].
    destruct (Hr drawn) as [Hr0 Hr1].
    destruct (DelayFacts.delay_of_module a (rand drawn) ltac:(lia) Hr0
                (Qlt_le_weak _ _ Hr1)) as (q & -> & _ & Hq).
    exists (q :: rest). split; [reflexivity |].
    cbn [total fold_right]. fold (total rest).
    rewrite pow2_succ in IH1. rewrite pow2_succ.
    pose proof (pow2_positive a) as Ha. pose proof (pow2_positive n) as Hn.
    set (pa := inject_Z (2 ^ Z.of_nat a)) in *.
    set (pn := inject_Z (2 ^ Z.of_nat n)) in *.
    assert (HI : (total rest <= 2 * (1300 * pa * pn) - 2 * (1300 * pa))%Q).
    { eapply Qle_trans; [exact IH1 |]. apply Qle_lteq. right. ring. }
    assert (Hgoal : (1300 * pa * (2 * pn - 1)
                     == 2 * (1300 * pa * pn) - 1300 * pa)%Q) by ring.
    rewrite Hgoal. clear Hgoal IH1.
    set (F := (1300 * pa * pn)%Q) in *.
    set (t := total rest) in *.
    lra.
Qed.

(** X1. Every run of [withExponentialBackoff], whatever the operation does:
    some number [j] of failed calls, at most [maxRetries] (none when that
    is negative), each followed by a warning and a sleep, then one last
    call and nothing after it. The result is the outcome of that last
    call; it is a failure only when [j] has reached the limit. So the
    operation is called [j + 1] times, [j] delays are slept and [j] random
    numbers drawn. *)
Theorem withExponentialBackoff_run {St T : Type}
    (operation : St -> Result T * St) (maxRetries : Z) (baseDelay : Q)
    (s : St) (k : Clock) :
  exists (j : nat) (events : list TimerEvent),
    j <= Z.to_nat maxRetries
    /\ withExponentialBackoff operation maxRetries baseDelay s k =
       (fst (operation (state_before operation j s)),
        snd (operation (state_before operation j s)),
        {| random := random k;
           drawn := drawn k + j;
           timeline := timeline k ++ events |})
    /\ events =
       retries maxRetries baseDelay (random k) (drawn k) 0 j ++ [Invoked]
    /\ invocations events = j + 1
    /\ List.length (sleeps events) = j
    /\ (forall i, i < j ->
          exists e, fst (operation (state_before operation i s)) = Err e)
    /\ (forall e, fst (operation (state_before operation j s)) = Err e ->
          j = Z.to_nat maxRetries).
Proof.
  destruct (@loop_run St T operation maxRetries baseDelay
              (Z.to_nat maxRetries) 0 s k) as (j & Hj & Hrun & Hbefore & Hlast).
  { f_equal. lia. }
  exists j, (retries maxRetries baseDelay (random k) (drawn k) 0 j ++ [Invoked]).
  repeat split; try assumption.
  - rewrite invocations_app, invocations_retries. reflexivity.
  - rewrite sleeps_app, length_app, sleeps_retries_length. cbn. lia.
Qed.

(** X2. Let the base delay be a double of at least [2^-1020] whose
    product with [2^maxRetries] is at most [2^1023], with fewer than 1024
    retries, and let the draws be in [[0, 1)]. Then the delays slept in one
    run of [withExponentialBackoff] are finite numbers, and they add up to
    at most [baseDelay * (2^maxRetries - 1) * 1.3 * (1 + 2^-52)], whatever
    the operation does. *)
Theorem withExponentialBackoff_total_delay {St T : Type}
    (operation : St -> Result T * St) (maxRetries : Z) (baseDelay : Q)
    (s : St) (k : Clock) :
  DoubleSpec.representable baseDelay ->
  (maxRetries < 1024)%Z ->
  (2 ^ (-1020) <= baseDelay)%Q ->
  (baseDelay * inject_Z (2 ^ Z.of_nat (Z.to_nat maxRetries)) <= 2 ^ 1023)%Q ->
  (forall i, (0 <= random k i)%Q /\ (random k i < 1)%Q) ->
  exists (events : list TimerEvent) (delays : list Q),
    timeline (snd (withExponentialBackoff operation maxRetries baseDelay s k))
    = timeline k ++ events
    /\ sleeps events = finite delays
    /\ (total delays
        <= baseDelay * (inject_Z (2 ^ Z.of_nat (Z.to_nat maxRetries)) - 1)
           * ((13 # 10) * (1 + 2 ^ (-52))))%Q.
Proof.
  intros Hrep Hmax Hlow Hhigh Hr.
  destruct (@loop_run St T operation maxRetries baseDelay
              (Z.to_nat maxRetries) 0 s k) as (j & Hj & Hrun & _).
  { f_equal. lia. }
  destruct (@total_retries maxRetries baseDelay (random k)
              (Z.to_nat maxRetries) Hrep ltac:(lia) Hlow Hhigh Hr
              j (drawn k) 0 ltac:(lia))
    as (delays & Hd & _ & H).
  exists (retries maxRetries baseDelay (random k) (drawn k) 0 j ++ [Invoked]),
         delays.
  unfold withExponentialBackoff. rewrite Hrun. split; [reflexivity |].
  split.
  { rewrite sleeps_app. cbn [sleeps]. now rewrite app_nil_r. }
  eapply Qle_trans; [exact H |].
  change (inject_Z (2 ^ Z.of_nat 0)) with 1%Q.
  assert (Hmono : (inject_Z (2 ^ Z.of_nat j)
                   <= inject_Z (2 ^ Z.of_nat (Z.to_nat maxRetries)))%Q).
  { rewrite <- Zle_Qle. apply Z.pow_le_mono_r; lia. }
  assert (Hb : (0 < baseDelay)%Q).
  { eapply Qlt_le_trans; [| exact Hlow]. reflexivity. }
  assert (Hc : (0 < (13 # 10) * (1 + 2 ^ (-52)))%Q) by reflexivity.
  set (c := ((13 # 10) * (1 + 2 ^ (-52)))%Q) in *.
  set (pj := inject_Z (2 ^ Z.of_nat j)) in *.
  set (pn := inject_Z (2 ^ Z.of_nat (Z.to_nat maxRetries))) in *.
  assert (H1 : (baseDelay * (pj - 1) <= baseDelay * (pn - 1))%Q) by nra.
  set (x := (baseDelay * (pj - 1))%Q) in *.
  set (y := (baseDelay * (pn - 1))%Q) in *.
  assert (H2 : (baseDelay * 1 * (pj - 1) * c == x * c)%Q)
    by (unfold x; ring).
  rewrite H2. nra.
Qed.

Lemma withExponentialBackoff_total_delay_witness :
  exists (events : list TimerEvent) (delays : list Q),
    timeline (snd (withExponentialBackoff Sample.failing 3 1000 tt
                     (Sample.clock (1 # 2))))
    = timeline (Sample.clock (1 # 2)) ++ events
    /\ sleeps events = finite delays
    /\ (total delays
        <= 1000 * (inject_Z (2 ^ Z.of_nat (Z.to_nat 3)) - 1)
           * ((13 # 10) * (1 + 2 ^ (-52))))%Q.
Proof.
  apply (@withExponentialBackoff_total_delay unit unit Sample.failing 3 1000
           tt (Sample.clock (1 # 2))).
  - exists 1000%Z, 0%Z. split; [reflexivity | split; [lia | reflexivity]].
  - lia.
  - vm_compute. discriminate.
  - vm_compute. discriminate.
  - intros i. split; [discriminate | reflexivity].
Defined.

End BackoffRuns.

(* ------------------------------------------------------------------ *)
(** ** The steps of the URL reader, read directly *)

Module ReplaceFacts.
Import Replace Route RouteSpec ValidatorSpec.

(** *** Splitting *)

Lemma split_not_empty (sep : N) (s : JsString) : split sep s <> [].
Proof.
  induction s as [|c s IH]; cbn [split]; [discriminate |].
  destruct (c =? sep)%N; [discriminate |].
  destruct (split sep s); [contradiction | discriminate].
Qed.

Lemma split_segments (sep : N) (s : JsString) :
  Forall (fun segment => ~ In sep segment) (split sep s).
Proof.
  induction s as [|c s IH]; cbn [split].
  - constructor; [intros [] | constructor].
  - destruct (c =? sep)%N eqn:E.
    + constructor; [intros [] | exact IH].
    + destruct (split sep s) as [|segment rest];
        [constructor; [| constructor] |].
      * intros [-> | []]. now rewrite N.eqb_refl in E.
      * inversion IH as [|? ? Hs Hr]; subst. constructor; [| exact Hr].
        intros [-> | H]; [now rewrite N.eqb_refl in E | now apply Hs].
Qed.

Lemma split_whole (sep : N) (s : JsString) :
  ~ In sep s -> split sep s = [s].
Proof.
  induction s as [|c s IH]; intros H; cbn [split]; [reflexivity |].
  destruct (c =? sep)%N eqn:E.
  - exfalso. apply H. left. now apply N.eqb_eq in E.
  - rewrite IH; [reflexivity |]. intros Hin. apply H. now right.
Qed.

Lemma split_first (sep : N) (s rest : JsString) :
  ~ In sep s -> split sep (s ++ sep :: rest) = s :: split sep rest.
Proof.
  induction s as [|c s IH]; intros H; cbn [app split].
  - now rewrite N.eqb_refl.
  - destruct (c =? sep)%N eqn:E.
    + exfalso. apply H. left. now apply N.eqb_eq in E.
    + rewrite IH; [reflexivity |]. intros Hin. apply H. now right.
Qed.

(** *** Removing a string *)

Lemma starts_with_app (p rest : JsString) : Js.starts_with p (p ++ rest) = true.
Proof.
  induction p as [|a p IH]; [reflexivity |].
  cbn [app Js.starts_with]. now rewrite N.eqb_refl, IH.
Qed.

Lemma remove_first_occurrence_head (p rest : JsString) :
  remove_first_occurrence p (p ++ rest) = rest.
Proof.
  destruct p as [|a p]; [now destruct rest |].
  cbn [remove_first_occurrence app].
  change (a :: p ++ rest) with ((a :: p) ++ rest).
  rewrite starts_with_app. cbn [List.length skipn].
  induction p as [|b p IH]; [reflexivity | exact IH].
Qed.

(** *** The ending [.git] *)

Lemma literal_eol (p : JsString) :
  forall (prev : option N) (t : JsString),
    Regex.match_atoms ci (List.map literal p ++ [Regex.Eol]) prev t =
    if equal_ci p t then Some (List.length p) else None.
Proof.
  unfold equal_ci.
  induction p as [|a p IH]; intros prev t.
  - cbn [List.map app Regex.match_atoms Regex.at_eol ci Regex.multiline andb].
    now destruct t.
  - cbn [List.map app Regex.match_atoms literal].
    rewrite ValidatorFacts.rep_one.
    destruct t as [|c t]; [reflexivity |].
    cbn [Regex.class_matches Regex.ignoreCase ci starts_with_ci List.length].
    destruct (Regex.canon a =? Regex.canon c)%N;
      [| now rewrite andb_false_r].
    rewrite (IH (Some c) t). cbn [andb]. change (S (List.length t) =? S (List.length p))
      with (List.length t =? List.length p).
    now destruct ((List.length t =? List.length p) && starts_with_ci p t).
Qed.

Lemma ends_with_ci_cons (p : JsString) (c : N) (s : JsString) :
  equal_ci p (c :: s) = false ->
  ends_with_ci p (c :: s) = ends_with_ci p s.
Proof.
  unfold equal_ci, ends_with_ci. cbn [List.length]. intros H.
  destruct (List.length p <=? List.length s) eqn:E.
  - apply Nat.leb_le in E.
    replace (List.length p <=? S (List.length s)) with true
      by (symmetry; apply Nat.leb_le; lia).
    replace (S (List.length s) - List.length p)
      with (S (List.length s - List.length p)) by lia.
    reflexivity.
  - apply Nat.leb_gt in E. cbn [andb].
    destruct (List.length p <=? S (List.length s)) eqn:E2; [| reflexivity].
    apply Nat.leb_le in E2.
    replace (S (List.length s) - List.length p) with 0 by lia.
    cbn [skipn andb].
    replace (S (List.length s) =? List.length p) with true in H
      by (symmetry; apply Nat.eqb_eq; lia).
    exact H.
Qed.

Lemma git_suffix_here (prev : option N) (t : JsString) :
  Regex.match_here git_suffix_re prev t =
  if equal_ci (Js.lit ".git") t then Some 4 else None.
Proof.
  unfold Regex.match_here.
  cbn [git_suffix_re Regex.alternatives Regex.flags Regex.match_alts].
  change (Regex.match_atoms _ _ prev t)
    with (Regex.match_atoms ci
            (List.map literal (Js.lit ".git") ++ [Regex.Eol]) prev t).
  rewrite literal_eol. now destruct (equal_ci (Js.lit ".git") t).
Qed.

Lemma git_suffix_search (s : JsString) :
  forall prev,
    Regex.search git_suffix_re prev s =
    if ends_with_ci (Js.lit ".git") s then Some (List.length s - 4, 4)
    else None.
Proof.
  induction s as [|c s IH]; intros prev; cbn [Regex.search];
    rewrite git_suffix_here.
  - reflexivity.
  - destruct (equal_ci (Js.lit ".git") (c :: s)) eqn:E.
    + unfold equal_ci in E. apply andb_true_iff in E. destruct E as [El Es].
      apply Nat.eqb_eq in El. unfold ends_with_ci. rewrite El.
      change (List.length (Js.lit ".git")) with 4. cbn [Nat.leb Nat.sub skipn].
      now rewrite Es.
    + rewrite IH, (ends_with_ci_cons _ _ _ E).
      destruct (ends_with_ci (Js.lit ".git") s) eqn:Ee; [| reflexivity].
      unfold ends_with_ci in Ee. apply andb_true_iff in Ee.
      destruct Ee as [Ee _]. apply Nat.leb_le in Ee.
      change (List.length (Js.lit ".git")) with 4 in Ee.
      cbn [List.length]. do 2 f_equal. lia.
Qed.

(** The second step of [cleaned] removes the ending [.git], in any case of
    letters, when the text has it. *)
Lemma git_suffix_removed (s : JsString) :
  Regex.remove_first git_suffix_re s = without_suffix_ci (Js.lit ".git") s.
Proof.
  unfold Regex.remove_first, without_suffix_ci. rewrite git_suffix_search.
  destruct (ends_with_ci (Js.lit ".git") s) eqn:E; [| reflexivity].
  unfold ends_with_ci in E. apply andb_true_iff in E. destruct E as [E _].
  apply Nat.leb_le in E. change (List.length (Js.lit ".git")) with 4 in *.
  rewrite skipn_all2 by lia. apply app_nil_r.
Qed.

(** Every character of a text equal to [p] but for the case is, but for
    the case, a character of [p]. *)
Lemma starts_with_ci_chars (p : JsString) :
  forall t, List.length t <= List.length p ->
    starts_with_ci p t = true ->
    forall c, In c t -> exists a, In a p /\ Regex.canon a = Regex.canon c.
Proof.
  induction p as [|a p IH]; intros t Hl H c Hc.
  - destruct t; [contradiction | cbn in Hl; lia].
  - destruct t as [|b t]; [contradiction |].
    cbn [starts_with_ci] in H. apply andb_true_iff in H. destruct H as [Hab Ht].
    destruct Hc as [<- | Hc].
    + exists a. split; [now left | now apply N.eqb_eq].
    + destruct (IH t ltac:(cbn in Hl; lia) Ht c Hc) as (a' & Ha' & Hca).
      exists a'. split; [now right | exact Hca].
Qed.

Lemma ends_with_git_slash (x r : JsString) :
  ends_with_ci (Js.lit ".git") (x ++ 47%N :: r)
  = ends_with_ci (Js.lit ".git") r.
Proof.
  unfold ends_with_ci. change (List.length (Js.lit ".git")) with 4.
  rewrite length_app. cbn [List.length].
  destruct (4 <=? List.length r) eqn:E.
  - apply Nat.leb_le in E.
    replace (4 <=? List.length x + S (List.length r)) with true
      by (symmetry; apply Nat.leb_le; lia).
    replace (List.length x + S (List.length r) - 4)
      with (List.length x + S (List.length r - 4)) by lia.
    rewrite skipn_app, Nat.add_comm, skipn_all2 by lia.
    replace (S (List.length r - 4) + List.length x - List.length x)
      with (S (List.length r - 4)) by lia.
    reflexivity.
  - apply Nat.leb_gt in E. cbn [andb].
    destruct (4 <=? List.length x + S (List.length r)) eqn:E2; [| reflexivity].
    apply Nat.leb_le in E2. cbn [andb].
    set (t := skipn (List.length x + S (List.length r) - 4) (x ++ 47%N :: r)).
    destruct (starts_with_ci (Js.lit ".git") t) eqn:Hs; [exfalso | reflexivity].
    assert (Hl : List.length t = 4).
    { subst t. rewrite length_skipn, length_app. cbn [List.length]. lia. }
    assert (Hin : In 47%N t).
    { subst t.
      replace (List.length x + S (List.length r) - 4)
        with (List.length x - (3 - List.length r)) by lia.
      rewrite skipn_app.
      apply in_or_app. right.
      replace (List.length x - (3 - List.length r) - List.length x) with 0 by lia.
      now left. }
    destruct (starts_with_ci_chars (Js.lit ".git") t
                ltac:(rewrite Hl; cbn; lia) Hs 47%N Hin) as (a & Ha & Hca).
    cbn in Ha. destruct Ha as [<- | [<- | [<- | [<- | []]]]]; discriminate Hca.
Qed.

(** The ending is looked for in the last segment only. *)
Lemma without_git_slash (x r : JsString) :
  without_suffix_ci (Js.lit ".git") (x ++ 47%N :: r)
  = x ++ 47%N :: without_suffix_ci (Js.lit ".git") r.
Proof.
  unfold without_suffix_ci. rewrite ends_with_git_slash.
  destruct (ends_with_ci (Js.lit ".git") r) eqn:E; [| reflexivity].
  unfold ends_with_ci in E. apply andb_true_iff in E. destruct E as [E _].
  apply Nat.leb_le in E. change (List.length (Js.lit ".git")) with 4 in *.
  rewrite length_app. cbn [List.length].
  replace (List.length x + S (List.length r) - 4)
    with (List.length x + S (List.length r - 4)) by lia.
  rewrite firstn_app_2. reflexivity.
Qed.

Lemma without_git_suffix (r g : JsString) :
  equal_ci (Js.lit ".git") g = true ->
  without_suffix_ci (Js.lit ".git") (r ++ g) = r.
Proof.
  unfold equal_ci, without_suffix_ci, ends_with_ci. intros H.
  apply andb_true_iff in H. destruct H as [Hl Hs]. apply Nat.eqb_eq in Hl.
  rewrite length_app, Hl.
  replace (List.length (Js.lit ".git") <=? List.length r + List.length (Js.lit ".git"))
    with true by (symmetry; apply Nat.leb_le; lia).
  replace (List.length r + List.length (Js.lit ".git") - List.length (Js.lit ".git"))
    with (List.length r + 0) by lia.
  rewrite skipn_app, Nat.add_0_r, skipn_all, Nat.sub_diag. cbn [app skipn andb].
  rewrite Hs. rewrite <- (Nat.add_0_r (List.length r)) at 1.
  rewrite firstn_app_2. cbn. apply app_nil_r.
Qed.

End ReplaceFacts.

(* ------------------------------------------------------------------ *)
(** ** Trimming and cleanup *)

Module CleanupFacts.
Import CleanupSpec.

Lemma trim_start_clean (s : JsString) : starts_clean (Js.trim_start s).
Proof.
  induction s as [|c s IH]; cbn [Js.trim_start]; [exact I |].
  destruct (Js.is_space c) eqn:E; [exact IH | exact E].
Qed.

Lemma trim_start_fixed (t : JsString) :
  starts_clean t -> Js.trim_start t = t.
Proof. destruct t as [|c t]; cbn; [reflexivity |]. now intros ->. Qed.

Lemma trim_start_snoc (l : JsString) (c : N) :
  Js.is_space c = false ->
  exists x, Js.trim_start (l ++ [c]) = x ++ [c].
Proof.
  intros Hc. induction l as [|a l IH]; cbn [app Js.trim_start].
  - rewrite Hc. now exists [].
  - destruct (Js.is_space a); [exact IH | now exists (a :: l)].
Qed.

Lemma trim_end_clean (t : JsString) :
  starts_clean t -> starts_clean (Js.trim_end t).
Proof.
  unfold Js.trim_end. destruct t as [|c t]; [intros _; exact I |].
  cbn [starts_clean rev]. intros Hc.
  destruct (trim_start_snoc (rev t) c Hc) as (x & ->).
  rewrite rev_app_distr. exact Hc.
Qed.

Lemma trim_end_idempotent (t : JsString) :
  Js.trim_end (Js.trim_end t) = Js.trim_end t.
Proof.
  unfold Js.trim_end. rewrite rev_involutive.
  now rewrite (trim_start_fixed _ (trim_start_clean (rev t))).
Qed.

(** [s.trim().trim() === s.trim()] *)
Lemma trim_idempotent (s : JsString) : Js.trim (Js.trim s) = Js.trim s.
Proof.
  unfold Js.trim.
  rewrite (trim_start_fixed _ (trim_end_clean _ (trim_start_clean s))).
  apply trim_end_idempotent.
Qed.

Lemma trim_start_suffix (s : JsString) :
  exists a, s = a ++ Js.trim_start s.
Proof.
  induction s as [|c s (a & IH)]; [now exists [] |].
  cbn [Js.trim_start]. destruct (Js.is_space c).
  - exists (c :: a). cbn. now rewrite <- IH.
  - now exists [].
Qed.

Lemma trim_inside (s : JsString) :
  exists a b, s = a ++ Js.trim s ++ b.
Proof.
  unfold Js.trim, Js.trim_end.
  destruct (trim_start_suffix s) as (a & Ha).
  destruct (trim_start_suffix (rev (Js.trim_start s))) as (b & Hb).
  exists a, (rev b). rewrite <- rev_app_distr, <- Hb, rev_involutive.
  exact Ha.
Qed.

(** A pattern whose every alternative starts with [^], without the [m]
    flag, matches nowhere but at the start. *)
Lemma anchored_match_here (re : Regex.t) (c : N) (t : JsString) :
  Regex.multiline (Regex.flags re) = false ->
  Forall (fun alt => exists r, alt = Regex.Bol :: r) (Regex.alternatives re) ->
  Regex.match_here re (Some c) t = None.
Proof.
  intros Hm Hall. unfold Regex.match_here.
  induction Hall as [|alt alts (r & ->) _ IH]; [reflexivity |].
  cbn [Regex.match_alts Regex.match_atoms Regex.at_bol]. rewrite Hm.
  exact IH.
Qed.

Lemma anchored_search (re : Regex.t) (t : JsString) :
  Regex.multiline (Regex.flags re) = false ->
  Forall (fun alt => exists r, alt = Regex.Bol :: r) (Regex.alternatives re) ->
  forall c, Regex.search re (Some c) t = None.
Proof.
  intros Hm Hall. induction t as [|a t IH]; intros c; cbn [Regex.search];
    rewrite (anchored_match_here re c _ Hm Hall); [reflexivity |].
  now rewrite IH.
Qed.

(** Removing the first match of such a pattern leaves a suffix. *)
Lemma anchored_remove_first (re : Regex.t) (s : JsString) :
  Regex.multiline (Regex.flags re) = false ->
  Forall (fun alt => exists r, alt = Regex.Bol :: r) (Regex.alternatives re) ->
  exists n, Regex.remove_first re s = skipn n s.
Proof.
  intros Hm Hall. unfold Regex.remove_first.
  destruct s as [|c s]; cbn [Regex.search].
  - destruct (Regex.match_here re None []) as [n |]; [now exists n | now exists 0].
  - destruct (Regex.match_here re None (c :: s)) as [n |].
    + now exists n.
    + rewrite (anchored_search re s Hm Hall). now exists 0.
Qed.

(** A match of literal characters followed by [$], without the [m] flag,
    reaches the end of the text. *)
Lemma literal_eol_match (p : JsString) :
  forall (prev : option N) (t : JsString) (n : nat),
    Regex.match_atoms ValidatorSpec.ci
      (List.map ValidatorSpec.literal p ++ [Regex.Eol]) prev t = Some n ->
    n = List.length t.
Proof.
  induction p as [|a p IH]; intros prev t n.
  - cbn [List.map app Regex.match_atoms Regex.at_eol].
    destruct t; [now intros [= <-] | discriminate].
  - cbn [List.map app Regex.match_atoms ValidatorSpec.literal].
    rewrite ValidatorFacts.rep_one.
    destruct t as [|c t]; [discriminate |].
    destruct (Regex.class_matches ValidatorSpec.ci (Regex.Chr a) c);
      [| discriminate].
    destruct (Regex.match_atoms ValidatorSpec.ci
                (List.map ValidatorSpec.literal p ++ [Regex.Eol]) (Some c) t)
      as [n' |] eqn:H; [| discriminate].
    intros [= <-]. cbn [List.length]. f_equal. exact (IH _ _ _ H).
Qed.

Lemma search_to_end (re : Regex.t) (s : JsString) :
  (forall prev t n, Regex.match_here re prev t = Some n -> n = List.length t) ->
  forall prev i n,
    Regex.search re prev s = Some (i, n) -> i + n = List.length s.
Proof.
  intros Hend. induction s as [|c s IH]; intros prev i n; cbn [Regex.search].
  - destruct (Regex.match_here re prev []) as [m |] eqn:H; [| discriminate].
    intros [= <- <-]. exact (Hend _ _ _ H).
  - destruct (Regex.match_here re prev (c :: s)) as [m |] eqn:H.
    + intros [= <- <-]. exact (Hend _ _ _ H).
    + destruct (Regex.search re (Some c) s) as [[i' n'] |] eqn:Hs;
        [| discriminate].
      intros [= <- <-]. cbn [List.length Nat.add]. f_equal. exact (IH _ _ _ Hs).
Qed.

Lemma fence_close_remove (s : JsString) :
  exists i, Regex.remove_first fence_close_re s = firstn i s.
Proof.
  unfold Regex.remove_first.
  destruct (Regex.search fence_close_re None s) as [[i n] |] eqn:H.
  - exists i.
    assert (Hlen : i + n = List.length s).
    { apply (search_to_end fence_close_re s) with (prev := None);
        [| exact H].
      intros prev t m Hm. unfold Regex.match_here in Hm.
      cbn [fence_close_re Regex.alternatives Regex.flags Regex.match_alts] in Hm.
      destruct (Regex.match_atoms _ _ prev t) as [m' |] eqn:Hm'; [| discriminate].
      injection Hm as <-.
      exact (literal_eol_match [10; 96; 96; 96]%N prev t m' Hm'). }
    rewrite skipn_all2 by lia. now rewrite app_nil_r.
  - exists (List.length s). now rewrite firstn_all.
Qed.

(** X3. The cleanup of both clients only strips at the two ends: what it
    returns stands in the text it was given, in one piece; and what it
    returns has no white space left at either end. *)
Theorem cleanup_strips_ends (markdown : JsString) :
  (exists before after : JsString,
      markdown = before ++ cleanup markdown ++ after)
  /\ Js.trim (cleanup markdown) = cleanup markdown.
Proof.
  split; [| apply trim_idempotent].
  unfold cleanup.
  destruct (anchored_remove_first fence_markdown_re markdown)
    as (n1 & H1); [reflexivity | repeat constructor; now eexists |].
  rewrite H1. set (s1 := skipn n1 markdown).
  destruct (anchored_remove_first fence_open_re s1)
    as (n2 & H2); [reflexivity | repeat constructor; now eexists |].
  rewrite H2. set (s2 := skipn n2 s1).
  destruct (fence_close_remove s2) as (i & H3). rewrite H3.
  destruct (trim_inside (firstn i s2)) as (a & b & Ht).
  exists (firstn n1 markdown ++ firstn n2 s1 ++ a), (b ++ skipn i s2).
  rewrite <- !app_assoc.
  rewrite (app_assoc (Js.trim (firstn i s2)) b), (app_assoc a), <- Ht.
  rewrite firstn_skipn. subst s2. rewrite firstn_skipn. subst s1.
  now rewrite firstn_skipn.
Qed.

(** *** The cleanup, read directly *)

(** A pattern of [^] and literal characters removes the beginning of the
    text that it spells, and nothing else. *)
Lemma prefix_removed (p s : JsString) :
  Regex.remove_first
    {| Regex.alternatives := [Regex.Bol :: List.map ValidatorSpec.literal p];
       Regex.flags := ValidatorSpec.ci |} s
  = without_prefix_ci p s.
Proof.
  set (re := {| Regex.alternatives := [Regex.Bol :: List.map ValidatorSpec.literal p];
                Regex.flags := ValidatorSpec.ci |}).
  assert (Hhere : Regex.match_here re None s =
                  if ValidatorSpec.starts_with_ci p s
                  then Some (List.length p) else None).
  { unfold Regex.match_here, re.
    cbn [Regex.alternatives Regex.flags Regex.match_alts Regex.match_atoms
         Regex.at_bol].
    rewrite ValidatorFacts.literal_match.
    now destruct (ValidatorSpec.starts_with_ci p s). }
  unfold Regex.remove_first, without_prefix_ci.
  destruct s as [|c s]; cbn [Regex.search]; rewrite Hhere.
  - now destruct (ValidatorSpec.starts_with_ci p []).
  - destruct (ValidatorSpec.starts_with_ci p (c :: s)); [reflexivity |].
    rewrite (anchored_search re s); [reflexivity | reflexivity |].
    repeat constructor. now eexists.
Qed.

(** A pattern of literal characters and [$] is found where the text
    ends with what it spells. *)
Lemma suffix_search (p s : JsString) :
  forall prev,
    Regex.search
      {| Regex.alternatives := [List.map ValidatorSpec.literal p ++ [Regex.Eol]];
         Regex.flags := ValidatorSpec.ci |} prev s
    = if RouteSpec.ends_with_ci p s
      then Some (List.length s - List.length p, List.length p)
      else None.
Proof.
  set (re := {| Regex.alternatives := [List.map ValidatorSpec.literal p ++ [Regex.Eol]];
                Regex.flags := ValidatorSpec.ci |}).
  assert (Hhere : forall prev t,
             Regex.match_here re prev t =
             if RouteSpec.equal_ci p t then Some (List.length p) else None).
  { intros prev t. unfold Regex.match_here, re.
    cbn [Regex.alternatives Regex.flags Regex.match_alts].
    rewrite ReplaceFacts.literal_eol. now destruct (RouteSpec.equal_ci p t). }
  induction s as [|c s IH]; intros prev; cbn [Regex.search]; rewrite Hhere.
  - unfold RouteSpec.equal_ci, RouteSpec.ends_with_ci.
    cbn [List.length skipn Nat.sub].
    destruct p as [|a p]; reflexivity.
  - destruct (RouteSpec.equal_ci p (c :: s)) eqn:E.
    + unfold RouteSpec.equal_ci in E. apply andb_true_iff in E.
      destruct E as [El Es]. apply Nat.eqb_eq in El.
      unfold RouteSpec.ends_with_ci. rewrite El, Nat.leb_refl, Nat.sub_diag.
      cbn [skipn andb]. now rewrite Es.
    + rewrite IH, (ReplaceFacts.ends_with_ci_cons _ _ _ E).
      destruct (RouteSpec.ends_with_ci p s) eqn:Ee; [| reflexivity].
      unfold RouteSpec.ends_with_ci in Ee. apply andb_true_iff in Ee.
      destruct Ee as [Ee _]. apply Nat.leb_le in Ee.
      cbn [List.length]. do 2 f_equal. lia.
Qed.

Lemma suffix_removed (p s : JsString) :
  Regex.remove_first
    {| Regex.alternatives := [List.map ValidatorSpec.literal p ++ [Regex.Eol]];
       Regex.flags := ValidatorSpec.ci |} s
  = RouteSpec.without_suffix_ci p s.
Proof.
  unfold Regex.remove_first, RouteSpec.without_suffix_ci.
  rewrite suffix_search.
  destruct (RouteSpec.ends_with_ci p s) eqn:E; [| reflexivity].
  unfold RouteSpec.ends_with_ci in E. apply andb_true_iff in E.
  destruct E as [E _]. apply Nat.leb_le in E.
  rewrite skipn_all2 by lia. apply app_nil_r.
Qed.

(** The three replacements and the trimming of the clients are the
    direct reading: a beginning, then another, an ending, and the white
    space around. *)
Lemma cleanup_direct (markdown : JsString) :
  cleanup markdown = direct_cleanup markdown.
Proof.
  unfold cleanup, direct_cleanup, stripped_start.
  change fence_markdown_re
    with {| Regex.alternatives :=
              [Regex.Bol :: List.map ValidatorSpec.literal opening_markdown];
            Regex.flags := ValidatorSpec.ci |}.
  change fence_open_re
    with {| Regex.alternatives :=
              [Regex.Bol :: List.map ValidatorSpec.literal opening_fence];
            Regex.flags := ValidatorSpec.ci |}.
  change fence_close_re
    with {| Regex.alternatives :=
              [List.map ValidatorSpec.literal closing_fence ++ [Regex.Eol]];
            Regex.flags := ValidatorSpec.ci |}.
  now rewrite !prefix_removed, suffix_removed.
Qed.

(** What is left after the replacements at the start is an end of the
    text. *)
Lemma stripped_start_suffix (s : JsString) :
  exists n, stripped_start s = skipn n s.
Proof.
  unfold stripped_start, without_prefix_ci.
  destruct (ValidatorSpec.starts_with_ci opening_markdown s).
  - destruct (ValidatorSpec.starts_with_ci opening_fence _).
    + rewrite skipn_skipn. now eexists.
    + now eexists.
  - destruct (ValidatorSpec.starts_with_ci opening_fence s).
    + now eexists.
    + now exists 0.
Qed.

(** A text that ends with [p] ends with the last character of [p], but
    for the case. *)
Lemma starts_with_ci_last (p : JsString) (a c : N) :
  forall y,
    List.length y = List.length p ->
    ValidatorSpec.starts_with_ci (p ++ [a]) (y ++ [c]) = true ->
    Regex.canon a = Regex.canon c.
Proof.
  induction p as [|b p IH]; intros [|d y] Hlen; try discriminate Hlen;
    cbn [app ValidatorSpec.starts_with_ci]; intros H;
    apply andb_true_iff in H; destruct H as [H1 H2].
  - now apply N.eqb_eq.
  - apply (IH y); [now injection Hlen | exact H2].
Qed.

Lemma ends_with_ci_last (p : JsString) (a : N) (x : JsString) (c : N) :
  RouteSpec.ends_with_ci (p ++ [a]) (x ++ [c]) = true ->
  Regex.canon a = Regex.canon c.
Proof.
  unfold RouteSpec.ends_with_ci. rewrite !length_app. cbn [List.length].
  intros H. apply andb_true_iff in H. destruct H as [Hl Hs].
  apply Nat.leb_le in Hl.
  replace (List.length x + 1 - (List.length p + 1))
    with (List.length x - List.length p) in Hs by lia.
  rewrite skipn_app in Hs.
  replace (List.length x - List.length p - List.length x) with 0 in Hs by lia.
  cbn [skipn] in Hs.
  apply (starts_with_ci_last p a c (skipn (List.length x - List.length p) x));
    [| exact Hs].
  rewrite length_skipn. lia.
Qed.

(** No white space is a backtick, whatever the case. *)
Lemma space_not_backtick (c : N) :
  Js.is_space c = true -> Regex.canon 96 <> Regex.canon c.
Proof.
  intros Hs Heq. unfold Regex.canon in Heq.
  change ((97 <=? 96)%N && (96 <=? 122)%N) with false in Heq.
  cbv iota in Heq.
  destruct ((97 <=? c)%N && (c <=? 122)%N) eqn:E.
  - apply andb_true_iff in E. destruct E as [E1 E2].
    apply N.leb_le in E1. apply N.leb_le in E2. lia.
  - subst c. discriminate Hs.
Qed.

(** The closing fence is looked for before the trimming: it is not found
    in a text that ends with white space. *)
Lemma cleanup_before_space (t : JsString) (c : N) :
  Js.is_space c = true ->
  cleanup (t ++ [c]) = Js.trim (stripped_start (t ++ [c])).
Proof.
  intros Hc. rewrite cleanup_direct.
  unfold direct_cleanup, RouteSpec.without_suffix_ci.
  destruct (RouteSpec.ends_with_ci closing_fence (stripped_start (t ++ [c])))
    eqn:E; [exfalso | reflexivity].
  destruct (stripped_start_suffix (t ++ [c])) as (n & Hn). rewrite Hn in E.
  destruct (Nat.le_gt_cases n (List.length t)) as [Hle | Hgt].
  - rewrite skipn_app in E.
    replace (n - List.length t) with 0 in E by lia. cbn [skipn] in E.
    apply (space_not_backtick c Hc).
    exact (ends_with_ci_last [10; 96; 96]%N 96%N (skipn n t) c E).
  - rewrite skipn_all2 in E by (rewrite length_app; cbn [List.length]; lia).
    discriminate E.
Qed.

(** The text of a model as it usually ends, with a line break after the
    closing fence: the cleanup leaves the fence, where the words of the
    specification have it stripped. *)
Example cleanup_keeps_closing_fence :
  cleanup (List.concat Sample.fenced_fragments)
  = Js.lit "# Title" ++ Js.nl ++ Js.lit "Body" ++ Js.nl ++ Js.lit "```"
  /\ specified_cleanup (List.concat Sample.fenced_fragments)
     = Js.lit "# Title" ++ Js.nl ++ Js.lit "Body".
Proof. split; vm_compute; reflexivity. Qed.

(** Without the line break at the end the two agree. *)
Example cleanup_strips_closing_fence :
  cleanup (Js.lit "```markdown" ++ Js.nl ++ Js.lit "# Title" ++ Js.nl
           ++ Js.lit "```")
  = Js.lit "# Title"
  /\ specified_cleanup (Js.lit "```markdown" ++ Js.nl ++ Js.lit "# Title"
                        ++ Js.nl ++ Js.lit "```")
     = Js.lit "# Title".
Proof. split; vm_compute; reflexivity. Qed.

End CleanupFacts.

(* ------------------------------------------------------------------ *)
(** ** The streaming client on any response *)

Module StreamingFacts.
Import Stream ClientSpec CleanupSpec.

Section WithEngine.

Variable engine : Engine.

Lemma deliver_all_app (l1 l2 : list JsValue) (w : World) :
  deliver_all (l1 ++ l2) w = deliver_all l2 (deliver_all l1 w).
Proof. unfold deliver_all. apply fold_left_app. Qed.

(** With a callback that returns, the loop hands to it, in order, the
    texts received before the stream ends, fails or yields an item
    without text; without a callback it leaves the world as it is. *)
Lemma consume_received (onChunk : option Callback) (items : list Chunk)
    (failure : option RawError) :
  never_throws onChunk ->
  forall (fullMarkdown : JsString) (w : World),
    consume onChunk items failure fullMarkdown w =
    (stream_result items failure fullMarkdown,
     deliver_all (heard onChunk (List.map VStr (received items))) w).
Proof.
  intros Hq.
  induction items as [|chunk items IH]; intros fullMarkdown w.
  - cbn. destruct failure, onChunk; reflexivity.
  - cbn [consume stream_result received].
    destruct (chunk_text chunk) as [text | e].
    + rewrite (@ClientFacts.call_onChunk_quiet onChunk (VStr text) w Hq).
      cbv iota beta. rewrite IH. cbn [List.map].
      now rewrite (@ClientFacts.heard_cons onChunk (VStr text)
                     (List.map VStr (received items)) w).
    + now destruct onChunk.
Qed.

Lemma forget_deliver_all (values : list JsValue) :
  forall w, forget_delivered (deliver_all values w) = forget_delivered w.
Proof.
  unfold deliver_all.
  induction values as [|v values IH]; intros w; cbn [fold_left];
    [reflexivity |].
  now rewrite IH.
Qed.

Lemma forget_console_warn (l : ConsoleLine) (w : World) :
  forget_delivered (console_warn l w) = console_warn l (forget_delivered w).
Proof. reflexivity. Qed.

(** A stream whose every item has a text and which then throws: the loop
    ends with what it throws. *)
Lemma stream_result_failure (items : list Chunk) (e : RawError) :
  well_formed items = true ->
  forall fullMarkdown,
    stream_result items (Some e) fullMarkdown = Err (Raw e).
Proof.
  induction items as [|chunk items IH]; intros Hw fullMarkdown;
    cbn [stream_result well_formed] in *; [reflexivity |].
  destruct (chunk_text chunk); [now apply IH | discriminate Hw].
Qed.

(** C7, on the code. With a credential, a provider that answers the
    streaming call with an async sequence of string fragments that ends
    normally, and a callback that returns: the callback is called once per
    fragment, with the fragments in their order of arrival and nothing
    else, and the call succeeds whatever the validator says of the
    document, whose problems are a warning on the console. The document
    returned is the concatenation of the fragments, without the opening
    fence that stands at its very start, without the closing fence that
    stands at its very end, and then trimmed. The fences are looked for
    before the trimming: when the concatenation ends with white space, as
    after a fence followed by a line break, the closing fence is not
    stripped. *)
Theorem generateReadmeStreaming_delivers_in_order (prompt : JsString)
    (config : ReadmeConfig) (onChunk : option Callback) (w : World)
    (fragments : list JsString) :
  present (BYTEZ_KEY w) = true ->
  provider w (calls w)
    (streaming_call (key_text (BYTEZ_KEY w)) prompt config) =
  Resolves (AsyncIterable (List.map ChunkString fragments) None) ->
  never_throws onChunk ->
  let markdown := direct_cleanup (List.concat fragments) in
  (exists w' : World,
      generateReadmeStreaming engine prompt config onChunk w = (Ok markdown, w')
      /\ delivered w' = delivered w ++ heard onChunk (List.map VStr fragments)
      /\ console w' = console w ++ validation_warning markdown)
  /\ (forall (t : JsString) (c : N),
        List.concat fragments = t ++ [c] ->
        Js.is_space c = true ->
        markdown = Js.trim (stripped_start (List.concat fragments))).
Proof.
  intros Hk Hp Hq markdown. split.
  - unfold generateReadmeStreaming, streaming_try, run.
    rewrite Hk, Hp. cbn [negb collect].
    rewrite (@ClientFacts.consume_strings onChunk fragments Hq).
    cbn [cleanup_value app]. rewrite CleanupFacts.cleanup_direct.
    fold markdown.
    destruct (@ClientFacts.deliver_all_fields
                (heard onChunk (List.map VStr fragments))
                (with_call
                   (streaming_call (key_text (BYTEZ_KEY w)) prompt config) w))
      as (Hd & Hc & _).
    unfold validation_warning.
    destruct (Validator.valid (Validator.validateReadmeOutput markdown));
      cbn [negb]; eexists; (split; [reflexivity |]).
    + split; [exact Hd | now rewrite Hc, app_nil_r].
    + cbn [console_warn delivered console]. now rewrite Hd, Hc.
  - intros t c Ht Hc. subst markdown.
    rewrite <- CleanupFacts.cleanup_direct, Ht.
    now apply CleanupFacts.cleanup_before_space.
Qed.

(** X4. For every stream the provider may answer with, and a callback
    that returns: the callback has received, in order and once each, the
    texts of the items the stream yielded before it ended, failed or
    yielded an item without text ([null], [undefined], or a value whose
    [toString()] throws), and nothing else. The call returns the cleaned
    text of a stream that ends normally; otherwise it fails with what the
    [catch] block makes of the exception of the item or of the stream,
    the items before it delivered all the same. *)
Theorem generateReadmeStreaming_delivers_received (prompt : JsString)
    (config : ReadmeConfig) (callback : Callback) (w : World)
    (items : list Chunk) (failure : option RawError) :
  never_throws (Some callback) ->
  present (BYTEZ_KEY w) = true ->
  provider w (calls w)
    (streaming_call (key_text (BYTEZ_KEY w)) prompt config) =
  Resolves (AsyncIterable items failure) ->
  delivered (snd (generateReadmeStreaming engine prompt config
                    (Some callback) w)) =
    delivered w ++ List.map VStr (received items)
  /\ fst (generateReadmeStreaming engine prompt config (Some callback) w) =
     match stream_result items failure [] with
     | Ok s => Ok (direct_cleanup s)
     | Err e => Err (streaming_catch engine e)
     end
  /\ (forall e, failure = Some e -> well_formed items = true ->
        fst (generateReadmeStreaming engine prompt config (Some callback) w) =
        Err (Classify.classify engine e)).
Proof.
  intros Hq Hk Hp.
  unfold generateReadmeStreaming, streaming_try, run.
  rewrite Hk, Hp. cbn [negb collect].
  rewrite (consume_received (Some callback) items failure Hq).
  cbn [heard].
  destruct (@ClientFacts.deliver_all_fields (List.map VStr (received items))
              (with_call (streaming_call (key_text (BYTEZ_KEY w)) prompt config) w))
    as (Hd & _ & _).
  split; [| split].
  - destruct (stream_result items failure []) as [s | e]; cbn [cleanup_value snd].
    + destruct (negb (Validator.valid (Validator.validateReadmeOutput (cleanup s))));
        exact Hd.
    + exact Hd.
  - destruct (stream_result items failure []) as [s | e]; cbn [cleanup_value fst];
      [now rewrite CleanupFacts.cleanup_direct | reflexivity].
  - intros e -> Hw. rewrite (stream_result_failure items e Hw []). reflexivity.
Qed.

(** The world after the [try] block is the same with a callback that
    returns and without one, up to the record of the callback; so is the
    outcome. *)
Lemma streaming_try_callback (key prompt : JsString) (config : ReadmeConfig)
    (onChunk : option Callback) (w : World) :
  never_throws onChunk ->
  fst (streaming_try key prompt config onChunk w)
  = fst (streaming_try key prompt config None w)
  /\ forget_delivered (snd (streaming_try key prompt config onChunk w))
     = forget_delivered (snd (streaming_try key prompt config None w))
  /\ delivered (snd (streaming_try key prompt config None w)) = delivered w.
Proof.
  intros Hq.
  assert (Hn : never_throws None) by (intros callback H; discriminate H).
  unfold streaming_try, run.
  destruct (provider w (calls w) (streaming_call key prompt config))
    as [e | [items failure | v]].
  - repeat split; reflexivity.
  - cbn [collect]. rewrite (consume_received onChunk items failure Hq).
    rewrite (consume_received None items failure Hn). cbn [heard deliver_all fold_left].
    destruct (stream_result items failure []) as [s | e]; cbn [cleanup_value].
    + destruct (negb (Validator.valid (Validator.validateReadmeOutput (cleanup s))));
        cbn [fst snd]; rewrite ?forget_console_warn, forget_deliver_all;
        repeat split; reflexivity.
    + cbn [fst snd]. rewrite forget_deliver_all. repeat split; reflexivity.
  - cbn [collect]. destruct (is_string v).
    + rewrite (@ClientFacts.call_onChunk_quiet onChunk v _ Hq).
      cbn [call_onChunk].
      destruct (cleanup_value "fullMarkdown" v) as [s | e];
        [destruct (negb (Validator.valid (Validator.validateReadmeOutput s))) |];
        cbn [fst snd]; rewrite ?forget_console_warn, forget_deliver_all;
        repeat split; reflexivity.
    + destruct (truthy v && typeof_object v && has_key (Js.lit "content") v).
      * rewrite (@ClientFacts.call_onChunk_quiet onChunk _ _ Hq).
        cbn [call_onChunk].
        destruct (cleanup_value "fullMarkdown" (get v (Js.lit "content")))
          as [s | e];
          [destruct (negb (Validator.valid (Validator.validateReadmeOutput s))) |];
          cbn [fst snd]; rewrite ?forget_console_warn, forget_deliver_all;
          repeat split; reflexivity.
      * cbn [cleanup_value].
        destruct (negb (Validator.valid (Validator.validateReadmeOutput (cleanup []))));
          repeat split; reflexivity.
Qed.

(** X5. A callback that returns whenever it is called is an observer
    only. For every world, with such a callback or with none,
    [generateReadmeStreaming] returns the same document or throws the same
    error, makes the same provider call and writes the same warnings;
    without the callback nothing is delivered. *)
Theorem generateReadmeStreaming_callback_observes (prompt : JsString)
    (config : ReadmeConfig) (onChunk : option Callback) (w : World) :
  never_throws onChunk ->
  fst (generateReadmeStreaming engine prompt config onChunk w)
  = fst (generateReadmeStreaming engine prompt config None w)
  /\ forget_delivered (snd (generateReadmeStreaming engine prompt config onChunk w))
     = forget_delivered (snd (generateReadmeStreaming engine prompt config None w))
  /\ delivered (snd (generateReadmeStreaming engine prompt config None w))
     = delivered w.
Proof.
  intros Hq. unfold generateReadmeStreaming.
  destruct (negb (present (BYTEZ_KEY w))); [repeat split; reflexivity |].
  destruct (streaming_try_callback (key_text (BYTEZ_KEY w)) prompt config
              onChunk w Hq) as (H1 & H2 & H3).
  destruct (streaming_try (key_text (BYTEZ_KEY w)) prompt config onChunk w)
    as [[s1 | e1] w1];
    destruct (streaming_try (key_text (BYTEZ_KEY w)) prompt config None w)
      as [[s2 | e2] w2];
    cbn [fst snd] in *; try discriminate H1;
    injection H1 as ->; repeat split; assumption.
Qed.

(** The loop over a stream of strings whose callback returns for the
    fragments of [before] and throws at the next one. *)
Lemma consume_thrown (callback : Callback) (text : JsString)
    (rest : list Chunk) (failure : option RawError) (e : RawError)
    (before : list JsString) :
  forall (fullMarkdown : JsString) (w : World),
    (forall i, i < List.length before ->
       callback (delivered w ++ List.map VStr (firstn i before))
                (VStr (nth i before [])) = None) ->
    callback (delivered w ++ List.map VStr before) (VStr text) = Some e ->
    consume (Some callback)
      (List.map ChunkString before ++ ChunkString text :: rest) failure
      fullMarkdown w
    = (Err (Raw e), deliver_all (List.map VStr (before ++ [text])) w).
Proof.
  induction before as [|b before IH]; intros fullMarkdown w Hb He.
  - cbn [List.map app consume chunk_text call_onChunk].
    cbn [List.map app] in He. rewrite app_nil_r in He. now rewrite He.
  - cbn [List.map app consume chunk_text call_onChunk].
    pose proof (Hb 0 ltac:(cbn; lia)) as H0.
    cbn [firstn List.map nth] in H0. rewrite app_nil_r in H0. rewrite H0.
    rewrite (IH (fullMarkdown ++ b) (deliver (VStr b) w)).
    + reflexivity.
    + intros i Hi. pose proof (Hb (S i) ltac:(cbn; lia)) as Hs.
      cbn [firstn List.map nth] in Hs. cbn [deliver delivered].
      now rewrite <- app_assoc.
    + cbn [deliver delivered]. cbn [List.map] in He.
      now rewrite <- app_assoc.
Qed.

(** X19. A callback that throws is not an observer: it is called inside
    the [try] block. When the provider streams strings and the callback
    returns for the fragments of [before] and throws at the next one, the
    call fails with what the [catch] block makes of the exception of the
    callback, whatever follows in the stream; the callback has been
    called with the fragments up to that one, and with no later one. *)
Theorem generateReadmeStreaming_callback_throws (prompt : JsString)
    (config : ReadmeConfig) (callback : Callback) (w : World)
    (before : list JsString) (text : JsString) (rest : list Chunk)
    (failure : option RawError) (e : RawError) :
  present (BYTEZ_KEY w) = true ->
  provider w (calls w)
    (streaming_call (key_text (BYTEZ_KEY w)) prompt config) =
  Resolves (AsyncIterable
              (List.map ChunkString before ++ ChunkString text :: rest)
              failure) ->
  (forall i, i < List.length before ->
     callback (delivered w ++ List.map VStr (firstn i before))
              (VStr (nth i before [])) = None) ->
  callback (delivered w ++ List.map VStr before) (VStr text) = Some e ->
  fst (generateReadmeStreaming engine prompt config (Some callback) w)
  = Err (Classify.classify engine e)
  /\ delivered (snd (generateReadmeStreaming engine prompt config
                       (Some callback) w))
     = delivered w ++ List.map VStr (before ++ [text]).
Proof.
  intros Hk Hp Hb He.
  unfold generateReadmeStreaming, streaming_try, run.
  rewrite Hk, Hp. cbn [negb collect].
  rewrite (consume_thrown callback text rest failure e before []
             (with_call (streaming_call (key_text (BYTEZ_KEY w)) prompt config) w)
             Hb He).
  cbn [fst snd]. split; [reflexivity |].
  destruct (@ClientFacts.deliver_all_fields (List.map VStr (before ++ [text]))
              (with_call (streaming_call (key_text (BYTEZ_KEY w)) prompt config) w))
    as (Hd & _ & _).
  exact Hd.
Qed.

(** The flag of a classified exception follows its code. *)
Lemma classified_flag (e : RawError) (m : JsValue) :
  code (Classify.classified engine e m) <> INVALID_OUTPUT
  /\ (retryable (Classify.classified engine e m) = true <->
      code (Classify.classified engine e m) = RATE_LIMIT
      \/ code (Classify.classified engine e m) = NETWORK_ERROR)
  /\ originalError (Classify.classified engine e m) = Some (CausedBy e).
Proof.
  unfold Classify.classified.
  destruct (Classify.includes m "rate limit");
    [| destruct (Classify.includes m "authentication"
                 || Classify.includes m "API key");
       [| destruct (Classify.includes m "network"
                    || Classify.code_is e "ECONNREFUSED")]];
    cbn [code retryable originalError];
    (split; [discriminate | split; [| reflexivity]]);
    split; intros H; try discriminate H; auto;
    destruct H as [H | H]; discriminate H.
Qed.

(** What the [catch] block throws: a classified error, or the
    [TypeError] of its own first test. *)
Lemma classify_cases (e : RawError) :
  (exists m, Classify.classify engine e = Gen (Classify.classified engine e m))
  \/ (exists n, Classify.classify engine e
                = Raw (TypeError (ReadOfNullish n (Js.lit "message"))))
  \/ Classify.classify engine e
     = Raw (TypeError (NotAFunction (Js.lit "err.message?.includes"))).
Proof.
  unfold Classify.classify, Classify.message_of.
  destruct e as [v | f].
  - destruct (nullish_of v) as [n |].
    + right. left. now exists n.
    + destruct (Classify.searchable (get v (Js.lit "message")));
        [left; now eexists | right; right; reflexivity].
  - cbn [Classify.searchable]. left. now eexists.
Qed.

(** X6. Every failure of [generateReadmeStreaming], whatever is thrown
    in its [try] block (a value of any kind, [null] and [undefined]
    included, or a [TypeError] of the runtime), is one of three: a
    [ReadmeGenerationError] whose code is never [INVALID_OUTPUT] and whose
    [retryable] flag is set exactly for [RATE_LIMIT] and [NETWORK_ERROR];
    the [TypeError] of reading [message] from a caught [null] or
    [undefined]; or the [TypeError] of calling [includes] on a message
    that is neither a string nor an array. Without a credential the
    failure is the [AUTH_ERROR] of the missing key and nothing has
    happened; with one, a single provider call has been attempted. *)
Theorem generateReadmeStreaming_failures (prompt : JsString)
    (config : ReadmeConfig) (onChunk : option Callback) (w : World)
    (e : Thrown) :
  fst (generateReadmeStreaming engine prompt config onChunk w) = Err e ->
  ((exists g : ReadmeGenerationError,
       e = Gen g
       /\ code g <> INVALID_OUTPUT
       /\ (retryable g = true <->
           code g = RATE_LIMIT \/ code g = NETWORK_ERROR))
   \/ (exists n : Nullish,
          e = Raw (TypeError (ReadOfNullish n (Js.lit "message"))))
   \/ e = Raw (TypeError (NotAFunction (Js.lit "err.message?.includes"))))
  /\ (present (BYTEZ_KEY w) = false ->
      e = Gen missing_key_error
      /\ snd (generateReadmeStreaming engine prompt config onChunk w) = w)
  /\ (present (BYTEZ_KEY w) = true ->
      calls (snd (generateReadmeStreaming engine prompt config onChunk w)) =
      calls w ++ [streaming_call (key_text (BYTEZ_KEY w)) prompt config]).
Proof.
  unfold generateReadmeStreaming.
  destruct (present (BYTEZ_KEY w)) eqn:Hk; cbn [negb].
  - pose proof (@ClientFacts.streaming_try_calls (key_text (BYTEZ_KEY w))
                  prompt config onChunk w) as Hc.
    destruct (streaming_try (key_text (BYTEZ_KEY w)) prompt config onChunk w)
      as [[s | err] w1]; cbn [fst snd] in *; [discriminate |].
    intros [= <-]. split; [| split; [discriminate | intros _; exact Hc]].
    unfold streaming_catch.
    destruct (classify_cases (caught err)) as [(m & ->) | [(n & ->) | ->]].
    + left. exists (Classify.classified engine (caught err) m).
      destruct (classified_flag (caught err) m) as (H1 & H2 & _).
      split; [reflexivity | split; assumption].
    + right. left. now exists n.
    + right. right. reflexivity.
  - cbn [fst snd]. intros [= <-].
    split; [| split; [intros _; split; reflexivity | discriminate]].
    left. exists missing_key_error.
    split; [reflexivity |]. split; [discriminate |].
    split; [discriminate | intros [H | H]; discriminate H].
Qed.

End WithEngine.

Lemma generateReadmeStreaming_delivers_in_order_witness :
  let markdown := direct_cleanup (List.concat Sample.fenced_fragments) in
  (exists w' : World,
      generateReadmeStreaming Sample.v8 [] empty_config
        (Some Sample.recording) Sample.fenced_world = (Ok markdown, w')
      /\ delivered w'
         = delivered Sample.fenced_world
           ++ heard (Some Sample.recording)
                (List.map VStr Sample.fenced_fragments)
      /\ console w'
         = console Sample.fenced_world ++ validation_warning markdown)
  /\ (forall (t : JsString) (c : N),
        List.concat Sample.fenced_fragments = t ++ [c] ->
        Js.is_space c = true ->
        markdown
        = Js.trim (stripped_start (List.concat Sample.fenced_fragments))).
Proof.
  apply (generateReadmeStreaming_delivers_in_order Sample.v8 [] empty_config
           (Some Sample.recording) Sample.fenced_world
           Sample.fenced_fragments).
  - reflexivity.
  - reflexivity.
  - intros callback [= <-] history v. reflexivity.
Defined.

(** The run of the example: the two fragments are delivered, and the
    document returned still ends with the closing fence, which makes its
    number of fences odd: the validator warns of an unclosed block. *)
Example generateReadmeStreaming_fenced :
  fst (generateReadmeStreaming Sample.v8 [] empty_config
         (Some Sample.recording) Sample.fenced_world)
  = Ok (Js.lit "# Title" ++ Js.nl ++ Js.lit "Body" ++ Js.nl ++ Js.lit "```")
  /\ delivered (snd (generateReadmeStreaming Sample.v8 [] empty_config
                       (Some Sample.recording) Sample.fenced_world))
     = List.map VStr Sample.fenced_fragments
  /\ console (snd (generateReadmeStreaming Sample.v8 [] empty_config
                     (Some Sample.recording) Sample.fenced_world))
     = [WarnValidation [Validator.too_short; Validator.missing_headers;
                        Validator.unclosed_block]].
Proof. repeat split; vm_compute; reflexivity. Qed.

Lemma generateReadmeStreaming_delivers_received_witness :
  delivered (snd (generateReadmeStreaming Sample.v8 [] empty_config
                    (Some Sample.recording) Sample.broken_stream_world)) =
    delivered Sample.broken_stream_world
    ++ List.map VStr (received (List.map ChunkString Sample.fragments))
  /\ fst (generateReadmeStreaming Sample.v8 [] empty_config
            (Some Sample.recording) Sample.broken_stream_world) =
     match stream_result (List.map ChunkString Sample.fragments)
             (Some Sample.network_down) [] with
     | Ok s => Ok (direct_cleanup s)
     | Err e => Err (streaming_catch Sample.v8 e)
     end
  /\ (forall e, Some Sample.network_down = Some e ->
        well_formed (List.map ChunkString Sample.fragments) = true ->
        fst (generateReadmeStreaming Sample.v8 [] empty_config
               (Some Sample.recording) Sample.broken_stream_world) =
        Err (Classify.classify Sample.v8 e)).
Proof.
  apply (generateReadmeStreaming_delivers_received Sample.v8 [] empty_config
           Sample.recording Sample.broken_stream_world
           (List.map ChunkString Sample.fragments) (Some Sample.network_down)).
  - intros callback [= <-] history v. reflexivity.
  - reflexivity.
  - reflexivity.
Defined.

(** A stream that yields [null] after a fragment: the fragment is
    delivered, and the call fails with the classification of the
    [TypeError] of [null.toString()], whose message is the engine's. *)
Example generateReadmeStreaming_null_item :
  generateReadmeStreaming Sample.v8 [] empty_config (Some Sample.recording)
    (Sample.world (Some (Js.lit "key"))
       (fun _ _ => Resolves (AsyncIterable
                               [ChunkString (Js.lit "# Title"); ChunkNull]
                               None)))
  = (Err (Gen {| message :=
                   Js.lit "README generation failed: Cannot read properties of null (reading 'toString')";
                 code := UNKNOWN; retryable := false;
                 originalError :=
                   Some (CausedBy (TypeError (ReadOfNullish Null
                                                (Js.lit "toString")))) |}),
     deliver (VStr (Js.lit "# Title"))
       (with_call (streaming_call (Js.lit "key") [] empty_config)
          (Sample.world (Some (Js.lit "key"))
             (fun _ _ => Resolves (AsyncIterable
                                     [ChunkString (Js.lit "# Title"); ChunkNull]
                                     None))))).
Proof. vm_compute. reflexivity. Qed.

Lemma generateReadmeStreaming_callback_observes_witness :
  fst (generateReadmeStreaming Sample.v8 [] empty_config
         (Some Sample.recording) Sample.streaming_world)
  = fst (generateReadmeStreaming Sample.v8 [] empty_config None
           Sample.streaming_world)
  /\ forget_delivered
       (snd (generateReadmeStreaming Sample.v8 [] empty_config
               (Some Sample.recording) Sample.streaming_world))
     = forget_delivered
         (snd (generateReadmeStreaming Sample.v8 [] empty_config None
                 Sample.streaming_world))
  /\ delivered (snd (generateReadmeStreaming Sample.v8 [] empty_config None
                       Sample.streaming_world))
     = delivered Sample.streaming_world.
Proof.
  apply (generateReadmeStreaming_callback_observes Sample.v8 [] empty_config
           (Some Sample.recording) Sample.streaming_world).
  intros callback [= <-] history v. reflexivity.
Defined.

Lemma generateReadmeStreaming_callback_throws_witness :
  fst (generateReadmeStreaming Sample.v8 [] empty_config
         (Some Sample.impatient) Sample.streaming_world)
  = Err (Classify.classify Sample.v8
           (ThrownValue (VStr (Js.lit "enough"))))
  /\ delivered (snd (generateReadmeStreaming Sample.v8 [] empty_config
                       (Some Sample.impatient) Sample.streaming_world))
     = delivered Sample.streaming_world
       ++ List.map VStr ([Js.lit "# Title" ++ Js.nl]
                         ++ [Js.nl ++ Js.lit "Body text that is long enough..."]).
Proof.
  apply (generateReadmeStreaming_callback_throws Sample.v8 [] empty_config
           Sample.impatient Sample.streaming_world
           [Js.lit "# Title" ++ Js.nl]
           (Js.nl ++ Js.lit "Body text that is long enough...")
           [] None (ThrownValue (VStr (Js.lit "enough")))).
  - reflexivity.
  - reflexivity.
  - intros [|i] Hi; [reflexivity | cbn in Hi; lia].
  - reflexivity.
Defined.

(** The same run, evaluated: where the callback that returns lets the
    call return the document, the one that throws makes it fail, with an
    error that is not retryable. *)
Example generateReadmeStreaming_impatient :
  fst (generateReadmeStreaming Sample.v8 [] empty_config
         (Some Sample.recording) Sample.streaming_world)
  = Ok (Js.lit "# Title" ++ Js.nl ++ Js.nl
        ++ Js.lit "Body text that is long enough...")
  /\ fst (generateReadmeStreaming Sample.v8 [] empty_config
            (Some Sample.impatient) Sample.streaming_world)
     = Err (Gen {| message := Js.lit "README generation failed: undefined";
                   code := UNKNOWN; retryable := false;
                   originalError :=
                     Some (CausedBy (ThrownValue (VStr (Js.lit "enough")))) |}).
Proof. split; vm_compute; reflexivity. Qed.

Lemma generateReadmeStreaming_failures_witness :
  ((exists g : ReadmeGenerationError,
       Classify.classify Sample.v8 Sample.network_down = Gen g
       /\ code g <> INVALID_OUTPUT
       /\ (retryable g = true <->
           code g = RATE_LIMIT \/ code g = NETWORK_ERROR))
   \/ (exists n : Nullish,
          Classify.classify Sample.v8 Sample.network_down
          = Raw (TypeError (ReadOfNullish n (Js.lit "message"))))
   \/ Classify.classify Sample.v8 Sample.network_down
      = Raw (TypeError (NotAFunction (Js.lit "err.message?.includes"))))
  /\ (present (BYTEZ_KEY Sample.offline_world) = false ->
      Classify.classify Sample.v8 Sample.network_down = Gen missing_key_error
      /\ snd (generateReadmeStreaming Sample.v8 [] empty_config
                (Some Sample.recording) Sample.offline_world)
         = Sample.offline_world)
  /\ (present (BYTEZ_KEY Sample.offline_world) = true ->
      calls (snd (generateReadmeStreaming Sample.v8 [] empty_config
                    (Some Sample.recording) Sample.offline_world)) =
      calls Sample.offline_world
      ++ [streaming_call (key_text (BYTEZ_KEY Sample.offline_world)) []
            empty_config]).
Proof.
  apply (generateReadmeStreaming_failures Sample.v8 [] empty_config
           (Some Sample.recording) Sample.offline_world
           (Classify.classify Sample.v8 Sample.network_down)).
  reflexivity.
Defined.

(** The two failures that are no [ReadmeGenerationError] are reached: a
    provider call that rejects with [null], and one that rejects with an
    object whose [message] is a number. *)
Example generateReadmeStreaming_raw_failures :
  fst (generateReadmeStreaming Sample.v8 [] empty_config None
         Sample.null_world)
  = Err (Raw (TypeError (ReadOfNullish Null (Js.lit "message"))))
  /\ fst (generateReadmeStreaming Sample.v8 [] empty_config None
            (Sample.world (Some (Js.lit "key"))
               (fun _ _ =>
                  Rejects (ThrownValue
                             (VObj [(Js.lit "message", VNum (Finite 503))])))))
     = Err (Raw (TypeError (NotAFunction (Js.lit "err.message?.includes")))).
Proof. split; vm_compute; reflexivity. Qed.

End StreamingFacts.

(* ------------------------------------------------------------------ *)
(** ** The non-streaming client on any world *)

Module GenerateFacts.
Import Backoff Schedule Delays BackoffFacts BackoffRuns ClientSpec ValidatorSpec
  Outcome.

(** What a document that passed the validator is like. *)
Lemma valid_document (markdown : JsString) :
  Validator.valid (Validator.validateReadmeOutput markdown) = true ->
  200 <= Js.length markdown
  /\ 2 <= header_count markdown
  /\ Nat.even (count_fences markdown) = true
  /\ contains_banned (Js.slice0 500 markdown) = false.
Proof.
  intros H. apply ValidatorFacts.valid_iff_no_errors in H.
  rewrite ValidatorFacts.errors_layout in H.
  unfold report in H.
  destruct (length_check_fails markdown) eqn:H1; [discriminate H |].
  destruct (Validator.header_check_fails markdown) eqn:H2; [discriminate H |].
  destruct (fence_check_fails markdown) eqn:H3; [discriminate H |].
  destruct (meta_check_fails markdown) eqn:H4; [discriminate H |].
  unfold length_check_fails in H1. apply Nat.ltb_ge in H1.
  rewrite ValidatorFacts.header_check_fails_count in H2. apply Nat.ltb_ge in H2.
  rewrite ValidatorFacts.fence_check_fails_odd in H3.
  unfold meta_check_fails in H4. rewrite ValidatorFacts.metaCommentary_test in H4.
  repeat split; try assumption.
  now rewrite <- Nat.negb_odd, H3.
Qed.

Section WithSerializer.

Variable JSON_stringify : JsValue -> JsString.
Variables (prompt : JsString) (config : ReadmeConfig).

(** One call of the closure: its outcome, and what it does to the world. *)
Lemma operation_outcome (w : World) :
  good_outcome JSON_stringify (fst (operation JSON_stringify prompt config w))
  /\ (snd (operation JSON_stringify prompt config w) = w
      \/ snd (operation JSON_stringify prompt config w)
         = with_call (plain_call (key_text (BYTEZ_KEY w)) prompt config) w).
Proof.
  unfold operation, run.
  destruct (negb (present (BYTEZ_KEY w))).
  { cbn. split; [now left | now left]. }
  destruct (provider w (calls w)
              (plain_call (key_text (BYTEZ_KEY w)) prompt config)) as [e | r].
  { cbn. split; [exact I | now right]. }
  destruct (destructure r) as [[error output] | [g | e]] eqn:Hd.
  - destruct (truthy error) eqn:Ht.
    + cbn. split; [| now right]. right. left. now exists error.
    + destruct (cleanup_value "finalMarkdown" (normalize JSON_stringify output))
        as [md | [g | e]] eqn:Hc.
      * destruct (Validator.valid (Validator.validateReadmeOutput md)) eqn:Hv;
          cbn [negb fst snd good_outcome].
        -- split; [| now right]. split; [exact Hv |].
           destruct (normalize JSON_stringify output); try discriminate Hc.
           injection Hc as <-. now eexists.
        -- split; [| now right]. right. right. now exists md.
      * exfalso. destruct (normalize JSON_stringify output); discriminate Hc.
      * cbn. split; [exact I | now right].
  - exfalso. destruct r as [? ? | v]; cbn in Hd; [discriminate Hd |].
    destruct (nullish_of v); discriminate Hd.
  - cbn. split; [exact I | now right].
Qed.

(** The calls made before the attempt [i] are so many copies of one call. *)
Lemma state_before_calls (w : World) (i : nat) :
  exists a : nat,
    a <= i
    /\ BYTEZ_KEY (state_before (operation JSON_stringify prompt config) i w)
       = BYTEZ_KEY w
    /\ calls (state_before (operation JSON_stringify prompt config) i w)
       = calls w
         ++ List.repeat (plain_call (key_text (BYTEZ_KEY w)) prompt config) a.
Proof.
  induction i as [|i (a & Ha & Hk & Hc)].
  - exists 0. cbn. now rewrite app_nil_r.
  - unfold state_before in *. rewrite Nat.iter_succ.
    set (wi := Nat.iter i (fun s => snd (operation JSON_stringify prompt config s)) w) in *.
    destruct (operation_outcome wi) as [_ [-> | ->]].
    + exists a. repeat split; [lia | assumption | assumption].
    + exists (S a). repeat split; [lia | exact Hk |].
      cbn [with_call calls]. rewrite Hc, Hk, <- app_assoc.
      now rewrite <- repeat_cons.
Qed.

(** X7. The outcome of [generateReadme] in every world. A document it
    returns has passed the validator, so it has at least 200 code units,
    two headings, balanced fences and no banned phrase at its start, and
    it carries no white space at its ends. A [ReadmeGenerationError] it
    throws is the missing-key error, the provider-reported error or the
    invalid-output error: its code is never [RATE_LIMIT] nor
    [NETWORK_ERROR], and it is not retryable only for the missing key. *)
Theorem generateReadme_outcome (w : World) (k : Clock) :
  match fst (fst (generateReadme JSON_stringify prompt config w k)) with
  | Ok markdown =>
      Validator.valid (Validator.validateReadmeOutput markdown) = true
      /\ 200 <= Js.length markdown
      /\ 2 <= header_count markdown
      /\ Nat.even (count_fences markdown) = true
      /\ contains_banned (Js.slice0 500 markdown) = false
      /\ Js.trim markdown = markdown
  | Err (Gen g) =>
      own_error JSON_stringify g
      /\ code g <> RATE_LIMIT /\ code g <> NETWORK_ERROR
      /\ (retryable g = false <-> g = missing_key_error)
  | Err (Raw _) => True
  end.
Proof.
  unfold generateReadme, withExponentialBackoff.
  destruct (@loop_run World JsString (operation JSON_stringify prompt config)
              3 1000 3 0 w k eq_refl) as (j & _ & -> & _).
  cbn [fst].
  destruct (operation_outcome
              (state_before (operation JSON_stringify prompt config) j w))
    as [H _].
  destruct (fst (operation JSON_stringify prompt config
                   (state_before (operation JSON_stringify prompt config) j w)))
    as [md | [g | e]]; cbn [good_outcome] in H.
  - destruct H as [Hv (text & ->)].
    destruct (valid_document _ Hv) as (H1 & H2 & H3 & H4).
    repeat split; try assumption.
    apply CleanupFacts.trim_idempotent.
  - split; [exact H |].
    destruct H as [-> | [(error & _ & ->) | (md & _ & ->)]]; cbn;
      repeat split; try discriminate; auto.
  - exact I.
Qed.

(** X8. The means of one [generateReadme]: at most 4 provider calls, all
    the same call, for the key, model and messages of the request, without
    options; at most 4 runs of the closure; and, with draws in [[0, 1)],
    finite delays of at most 9100 ms in all. *)
Theorem generateReadme_means (w : World) (k : Clock) :
  (forall i, (0 <= random k i)%Q /\ (random k i < 1)%Q) ->
  exists (n : nat) (events : list TimerEvent),
    n <= invocations events
    /\ invocations events <= 4
    /\ calls (snd (fst (generateReadme JSON_stringify prompt config w k))) =
       calls w
       ++ List.repeat (plain_call (key_text (BYTEZ_KEY w)) prompt config) n
    /\ timeline (snd (generateReadme JSON_stringify prompt config w k)) =
       timeline k ++ events
    /\ exists delays : list Q,
        sleeps events = finite delays /\ (total delays <= 9100)%Q.
Proof.
  intros Hr.
  unfold generateReadme, withExponentialBackoff.
  destruct (@loop_run World JsString (operation JSON_stringify prompt config)
              3 1000 3 0 w k eq_refl) as (j & Hj & -> & _).
  cbn [fst snd timeline].
  destruct (state_before_calls w j) as (a & Ha & Hk & Hc).
  set (wj := state_before (operation JSON_stringify prompt config) j w) in *.
  assert (Hn : exists n, n <= j + 1
                 /\ calls (snd (operation JSON_stringify prompt config wj))
                    = calls w ++ List.repeat
                        (plain_call (key_text (BYTEZ_KEY w)) prompt config) n).
  { destruct (operation_outcome wj) as [_ [-> | ->]].
    - exists a. split; [lia | exact Hc].
    - exists (S a). split; [lia |].
      cbn [with_call calls]. rewrite Hc, Hk, <- app_assoc.
      now rewrite <- repeat_cons. }
  destruct Hn as (n & Hn & Hcalls).
  exists n, (retries 3 1000 (random k) (drawn k) 0 j ++ [Invoked]).
  rewrite invocations_app, invocations_retries. cbn [invocations].
  split; [lia |]. split; [lia |]. split; [exact Hcalls |].
  split; [reflexivity |].
  rewrite sleeps_app. cbn [sleeps]. rewrite app_nil_r.
  destruct (total_retries_module 3 (random k) Hr j (drawn k) 0 ltac:(lia))
    as (delays & Hd & H).
  exists delays. split; [exact Hd |].
  eapply Qle_trans; [exact H |].
  assert (Hmono : (inject_Z (2 ^ Z.of_nat j) <= inject_Z (2 ^ Z.of_nat 3))%Q).
  { rewrite <- Zle_Qle. apply Z.pow_le_mono_r; lia. }
  change (inject_Z (2 ^ Z.of_nat 0)) with 1%Q.
  change (inject_Z (2 ^ Z.of_nat 3)) with 8%Q in Hmono.
  set (pj := inject_Z (2 ^ Z.of_nat j)) in *. lra.
Qed.

End WithSerializer.

Lemma generateReadme_means_witness :
  exists (n : nat) (events : list TimerEvent),
    n <= invocations events
    /\ invocations events <= 4
    /\ calls (snd (fst (generateReadme Sample.stringify [] empty_config
                          Sample.offline_world (Sample.clock (1 # 2))))) =
       calls Sample.offline_world
       ++ List.repeat (plain_call (key_text (BYTEZ_KEY Sample.offline_world))
                         [] empty_config) n
    /\ timeline (snd (generateReadme Sample.stringify [] empty_config
                        Sample.offline_world (Sample.clock (1 # 2)))) =
       timeline (Sample.clock (1 # 2)) ++ events
    /\ exists delays : list Q,
        sleeps events = finite delays /\ (total delays <= 9100)%Q.
Proof.
  apply (generateReadme_means Sample.stringify [] empty_config
           Sample.offline_world (Sample.clock (1 # 2))).
  intros i. split; [discriminate | reflexivity].
Defined.

(** The offline world, evaluated: four calls, three sleeps. *)
Example offline_means :
  List.length (calls (snd (fst (generateReadme Sample.stringify [] empty_config
                                  Sample.offline_world (Sample.clock (1 # 2))))))
  = 4
  /\ List.length (sleeps (timeline (snd (generateReadme Sample.stringify []
                                           empty_config Sample.offline_world
                                           (Sample.clock (1 # 2))))))
     = 3.
Proof. split; vm_compute; reflexivity. Qed.

End GenerateFacts.

(* ------------------------------------------------------------------ *)
(** ** The orchestrator on any client and any world *)

Module FallbackRuns.
Import Fallback FallbackSpec FallbackFacts Stream Outcome ValidatorSpec.




Section AnyClient.

Context {St : Type}.
Variable generate : JsString -> ReadmeConfig -> St -> Result JsString * St.
Variable models : list JsString.
Variables (prompt : JsString) (config : ReadmeConfig).



End AnyClient.

Section FixedModels.

Variable JSON_stringify : JsValue -> JsString.
Variables (prompt : JsString) (config : ReadmeConfig).




(** X11. Without a credential [generateReadmeWithFallback] attempts the
    first model only: that attempt runs the closure 4 times and sleeps 3
    delays, then the missing-key error, which is not retryable, is
    propagated; no other model is tried, no provider call is made. *)
Theorem generateReadmeWithFallback_missing_key (w : World) (k : Backoff.Clock) :
  present (BYTEZ_KEY w) = false ->
  generateReadmeWithFallback JSON_stringify prompt config w k =
  (Err (Gen missing_key_error),
   (w, {| Backoff.random := Backoff.random k;
          Backoff.drawn := Backoff.drawn k + 3;
          Backoff.timeline :=
            Backoff.timeline k
            ++ Schedule.retries 3 1000 (Backoff.random k) (Backoff.drawn k) 0 3
            ++ [Backoff.Invoked] |}),
   [LogAttempting (Js.lit "openai/gpt-4o")]).
Proof.
  intros Hk. unfold generateReadmeWithFallback, run_fallback.
  change models with (Js.lit "openai/gpt-4o" :: List.tl models).
  apply (@FallbackFacts.attempt_from_propagates _ (client JSON_stringify)
           (Js.lit "openai/gpt-4o" :: List.tl models) prompt config
           (Js.lit "openai/gpt-4o") (List.tl models) (w, k) _ []
           (Gen missing_key_error)).
  - unfold client, generateReadme, Backoff.withExponentialBackoff. cbn [fst snd].
    rewrite (@BackoffFacts.loop_keeps_failing World JsString
               (operation JSON_stringify prompt
                  (with_model config (Js.lit "openai/gpt-4o"))) 3 1000
               (fun w => present (BYTEZ_KEY w) = false)
               (fun s Hs => ex_intro _ (Gen missing_key_error)
                  (ex_intro _ s
                     (conj (@ClientFacts.operation_missing_key JSON_stringify
                              prompt _ s Hs) Hs)))
               3 0 w k Hk eq_refl).
    rewrite (@ClientFacts.state_before_missing_key JSON_stringify prompt _ w 3 Hk).
    now rewrite (@ClientFacts.operation_missing_key JSON_stringify prompt _ w Hk).
  - reflexivity.
Qed.

End FixedModels.

Lemma generateReadmeWithFallback_missing_key_witness :
  generateReadmeWithFallback Sample.stringify [] empty_config
    Sample.no_key_world (Sample.clock (1 # 2)) =
  (Err (Gen missing_key_error),
   (Sample.no_key_world,
    {| Backoff.random := Backoff.random (Sample.clock (1 # 2));
       Backoff.drawn := Backoff.drawn (Sample.clock (1 # 2)) + 3;
       Backoff.timeline :=
         Backoff.timeline (Sample.clock (1 # 2))
         ++ Schedule.retries 3 1000 (Backoff.random (Sample.clock (1 # 2)))
              (Backoff.drawn (Sample.clock (1 # 2))) 0 3
         ++ [Backoff.Invoked] |}),
   [LogAttempting (Js.lit "openai/gpt-4o")]).
Proof.
  apply (generateReadmeWithFallback_missing_key Sample.stringify []
           empty_config Sample.no_key_world (Sample.clock (1 # 2))).
  reflexivity.
Defined.

End FallbackRuns.


(* ------------------------------------------------------------------ *)
(** ** The URL of the repository *)

Module RouteFacts.
Import Replace Route RouteSpec ValidatorSpec.

(** *** The ssh prefix *)

Lemma singles_match (fl : Regex.Flags) (rest : JsString)
    (atoms : list Regex.Atom) (p : JsString) :
  Forall2 (fun a c => exists cls,
             a = Regex.one cls /\ Regex.class_matches fl cls c = true)
          atoms p ->
  forall prev,
    Regex.match_atoms fl atoms prev (p ++ rest) = Some (List.length p).
Proof.
  induction 1 as [|a c atoms p (cls & -> & Hc) _ IH]; intros prev;
    [reflexivity |].
  cbn [app Regex.match_atoms Regex.one]. rewrite ValidatorFacts.rep_one, Hc, IH.
  reflexivity.
Qed.

Lemma ssh_prefix_anchored :
  Regex.multiline (Regex.flags ssh_prefix_re) = false
  /\ Forall (fun alt => exists r, alt = Regex.Bol :: r)
            (Regex.alternatives ssh_prefix_re).
Proof. split; [reflexivity |]. constructor; [eexists; reflexivity | constructor]. Qed.

Lemma ssh_prefix_replaced (d : N) (rest : JsString) :
  Js.is_line_terminator d = false ->
  replace_first ssh_prefix_re github (ssh_with d ++ rest) = github ++ rest.
Proof.
  intros Hd. unfold replace_first.
  assert (H : Regex.match_here ssh_prefix_re None (ssh_with d ++ rest)
              = Some 15).
  { unfold Regex.match_here.
    cbn [ssh_prefix_re Regex.alternatives Regex.flags Regex.match_alts
         Regex.match_atoms Regex.at_bol].
    rewrite (singles_match _ rest _ (ssh_with d)); [reflexivity |].
    unfold ssh_with, Regex.str. cbn [Js.lit List.map app].
    repeat (constructor;
            [eexists; split; [reflexivity |];
             first [reflexivity | cbn [Regex.class_matches]; now rewrite Hd] |]).
    constructor. }
  assert (Hs : Regex.search ssh_prefix_re None (ssh_with d ++ rest)
               = Some (0, 15)).
  { destruct (ssh_with d ++ rest); cbn [Regex.search]; now rewrite H. }
  rewrite Hs. reflexivity.
Qed.

Lemma ssh_prefix_absent (c : N) (rest : JsString) :
  c <> 103%N ->
  replace_first ssh_prefix_re github (c :: rest) = c :: rest.
Proof.
  intros Hc. unfold replace_first. cbn [Regex.search].
  assert (H : Regex.match_here ssh_prefix_re None (c :: rest) = None).
  { unfold Regex.match_here.
    cbn [ssh_prefix_re Regex.alternatives Regex.flags Regex.match_alts
         Regex.match_atoms Regex.at_bol].
    change (Regex.str "git@github")
      with (Regex.one (Regex.Chr 103) :: Regex.str "it@github").
    cbn [app Regex.match_atoms Regex.one]. rewrite ValidatorFacts.rep_one.
    cbn [Regex.class_matches Regex.ignoreCase].
    destruct (N.eqb_spec 103 c) as [E |_]; [now subst | reflexivity]. }
  rewrite H.
  destruct ssh_prefix_anchored as [Hm Hall].
  now rewrite (CleanupFacts.anchored_search ssh_prefix_re rest Hm Hall).
Qed.

Lemma prefix_replaced (p rest : JsString) :
  accepted_prefix p ->
  replace_first ssh_prefix_re github (p ++ rest) = github ++ rest.
Proof.
  intros [-> | (d & Hd & ->)].
  - apply ssh_prefix_absent. discriminate.
  - now apply ssh_prefix_replaced.
Qed.

(** *** The slashes at the end *)

Lemma slashes_rep (fl : Regex.Flags) (t : JsString) :
  Regex.ignoreCase fl = false -> Regex.multiline fl = false ->
  forall lo prev, lo <= 1 ->
    Regex.rep fl (Regex.Chr 47) (Regex.match_atoms fl [Regex.Eol]) lo None prev t
    = if forallb is_slash t && (lo <=? List.length t)
      then Some (List.length t) else None.
Proof.
  intros Hi Hm. induction t as [|c t IH]; intros lo prev Hlo.
  - cbn [Regex.rep forallb List.length andb].
    destruct lo as [|[|lo]]; [reflexivity | reflexivity | lia].
  - cbn [Regex.rep Regex.hi_allows andb option_map Regex.class_matches
         forallb List.length].
    rewrite Hi. unfold is_slash at 1. rewrite (N.eqb_sym c 47).
    destruct (47 =? c)%N.
    + rewrite (IH (pred lo) (Some c)) by lia.
      replace (pred lo <=? List.length t) with true
        by (symmetry; apply Nat.leb_le; lia).
      replace (lo <=? S (List.length t)) with true
        by (symmetry; apply Nat.leb_le; lia).
      rewrite !andb_true_r. cbn [andb].
      destruct (forallb is_slash t); [reflexivity |].
      destruct lo; [| reflexivity].
      cbn [Regex.match_atoms Regex.at_eol]. now rewrite Hm.
    + cbn [andb]. destruct lo; [| reflexivity].
      cbn [Regex.match_atoms Regex.at_eol]. now rewrite Hm.
Qed.

Lemma trailing_slashes_here (prev : option N) (c : N) (t : JsString) :
  Regex.match_here trailing_slashes_re prev (c :: t)
  = if forallb is_slash (c :: t) then Some (S (List.length t)) else None.
Proof.
  unfold Regex.match_here.
  cbn [trailing_slashes_re Regex.alternatives Regex.flags Regex.match_alts
       Regex.match_atoms Regex.plus].
  rewrite slashes_rep by (reflexivity || lia).
  cbn [List.length Nat.leb]. rewrite andb_true_r.
  now destruct (forallb is_slash (c :: t)).
Qed.

Lemma remove_all_skipped (re : Regex.t) (s : JsString) :
  forall skip prev, List.length s <= skip -> remove_all re skip prev s = [].
Proof.
  induction s as [|c s IH]; intros skip prev H.
  - now destruct skip.
  - destruct skip as [|skip]; [cbn in H; lia |].
    cbn [remove_all]. apply IH. cbn in H. lia.
Qed.

(** The third step of [cleaned] removes the slashes at the end. *)
Lemma trailing_slashes_removed (s : JsString) :
  forall prev,
    remove_all trailing_slashes_re 0 prev s = without_trailing_slashes s.
Proof.
  induction s as [|c s IH]; intros prev; [reflexivity |].
  cbn [remove_all without_trailing_slashes].
  rewrite trailing_slashes_here.
  destruct (forallb is_slash (c :: s)).
  - now apply remove_all_skipped.
  - now rewrite IH.
Qed.

Lemma only_slashes_removed (s : JsString) :
  forallb is_slash s = true -> without_trailing_slashes s = [].
Proof.
  destruct s as [|c s]; [reflexivity |].
  cbn [without_trailing_slashes]. now intros ->.
Qed.

(** What ends with another character is kept. *)
Lemma without_trailing_slashes_app (x : JsString) (c : N) (v : JsString) :
  c <> 47%N ->
  without_trailing_slashes ((x ++ [c]) ++ v)
  = (x ++ [c]) ++ without_trailing_slashes v.
Proof.
  intros Hc.
  assert (Hno : forall y, forallb is_slash ((y ++ [c]) ++ v) = false).
  { intros y. rewrite !forallb_app. cbn [forallb]. unfold is_slash at 2.
    destruct (N.eqb_spec c 47) as [E |_]; [contradiction |].
    cbn [andb]. now rewrite andb_false_r. }
  induction x as [|a x IH].
  - cbn [app without_trailing_slashes].
    specialize (Hno []). cbn [app] in Hno. now rewrite Hno.
  - specialize (Hno (a :: x)). cbn [app] in Hno |- *.
    cbn [without_trailing_slashes]. rewrite Hno. f_equal. exact IH.
Qed.

Lemma without_trailing_slashes_shape (v : JsString) :
  without_trailing_slashes (47%N :: v) = []
  \/ exists w, without_trailing_slashes (47%N :: v) = 47%N :: w.
Proof.
  cbn [without_trailing_slashes].
  destruct (forallb is_slash (47%N :: v)); [now left | right; eauto].
Qed.

(** *** The three steps together *)

Lemma cleaned_steps (p rest : JsString) :
  accepted_prefix p ->
  cleaned (p ++ rest)
  = without_trailing_slashes
      (without_suffix_ci (Js.lit ".git") (github ++ rest)).
Proof.
  intros Hp. unfold cleaned.
  now rewrite (prefix_replaced p rest Hp), ReplaceFacts.git_suffix_removed,
    trailing_slashes_removed.
Qed.

Lemma plain_name_last (r : JsString) :
  plain_name r -> exists r' c, r = r' ++ [c] /\ c <> 47%N.
Proof.
  intros [Hne Hno]. destruct (exists_last Hne) as (r' & c & ->).
  exists r', c. split; [reflexivity |]. intros ->. apply Hno.
  apply in_or_app. right. now left.
Qed.

Lemma parse_cleaned (u o r tail : JsString) :
  plain_name o -> plain_name r ->
  tail = [] \/ (exists w, tail = 47%N :: w) ->
  cleaned u = github ++ o ++ 47%N :: r ++ tail ->
  parse u = Repository o r.
Proof.
  intros [Hoe Ho] [Hre Hr] Htail Hc. unfold parse, parts. rewrite Hc.
  rewrite ReplaceFacts.remove_first_occurrence_head,
    (ReplaceFacts.split_first 47 o _ Ho).
  assert (Hparts : exists l, split 47 (r ++ tail) = r :: l).
  { destruct Htail as [-> | (w & ->)].
    - rewrite app_nil_r, (ReplaceFacts.split_whole 47 r Hr). eauto.
    - rewrite (ReplaceFacts.split_first 47 r w Hr). eauto. }
  destruct Hparts as (l & ->). cbn [nth_error].
  destruct o as [|a o]; [contradiction |].
  destruct r as [|b r]; [contradiction |]. reflexivity.
Qed.

(** The text the steps leave of an accepted URL whose repository is
    followed by [tail], once the ending [.git] has been looked for. *)
Lemma cleaned_names (o r tail : JsString) :
  plain_name o -> plain_name r ->
  without_trailing_slashes (github ++ o ++ 47%N :: r ++ tail)
  = github ++ o ++ 47%N :: r ++ without_trailing_slashes tail.
Proof.
  intros Ho Hr. destruct (plain_name_last r Hr) as (r' & c & -> & Hc).
  replace (github ++ o ++ 47%N :: (r' ++ [c]) ++ tail)
    with (((github ++ o ++ 47%N :: r') ++ [c]) ++ tail)
    by (repeat (rewrite <- app_assoc || cbn [app]); reflexivity).
  rewrite (without_trailing_slashes_app _ c tail Hc).
  repeat (rewrite <- app_assoc || cbn [app]). reflexivity.
Qed.

(** X12.  Whatever text the handlers are given, an owner and a repository
    they go on with are not empty and hold no slash. *)
Theorem parse_names (u o r : JsString) :
  parse u = Repository o r -> plain_name o /\ plain_name r.
Proof.
  unfold parse. set (l := parts u).
  assert (Hall : Forall (fun segment => ~ In 47%N segment) l)
    by apply ReplaceFacts.split_segments.
  destruct (present (nth_error l 0)) eqn:Eo; [| discriminate].
  destruct (present (nth_error l 1)) eqn:Er; [| discriminate].
  cbn [negb orb]. intros [= <- <-].
  assert (Hseg : forall i, present (nth_error l i) = true ->
                           plain_name (key_text (nth_error l i))).
  { intros i Hi. destruct (nth_error l i) as [segment |] eqn:E;
      [| discriminate].
    cbn [key_text]. split.
    - intros ->. discriminate.
    - apply nth_error_In in E. rewrite Forall_forall in Hall.
      now apply Hall. }
  split; [exact (Hseg 0 Eo) | exact (Hseg 1 Er)].
Qed.

Lemma parse_names_witness :
  plain_name (Js.lit "vercel") /\ plain_name (Js.lit "next.js").
Proof.
  apply (parse_names (Js.lit "git@github.com:vercel/next.js.git")).
  vm_compute. reflexivity.
Defined.

(** X13.  Under the prefix [https://github.com/], or the ssh prefix with
    any character but a line terminator for its dot, the text
    [owner/repo] gives back the owner and the repository when the
    repository does not end with [.git], and [owner/repo.git], the ending
    written in any case, gives them back without the ending. *)
Theorem parse_round_trip (p o r : JsString) :
  accepted_prefix p -> plain_name o -> plain_name r ->
  (ends_with_ci (Js.lit ".git") r = false ->
   parse (p ++ o ++ 47%N :: r) = Repository o r)
  /\ (forall g, equal_ci (Js.lit ".git") g = true ->
                parse (p ++ o ++ 47%N :: r ++ g) = Repository o r).
Proof.
  intros Hp Ho Hr.
  assert (Hkeep : forall rest,
             without_suffix_ci (Js.lit ".git") rest = r ->
             parse (p ++ o ++ 47%N :: rest) = Repository o r).
  { intros rest Hrest.
    apply (parse_cleaned _ o r [] Ho Hr); [now left |].
    rewrite (cleaned_steps p _ Hp).
    replace (github ++ o ++ 47%N :: rest)
      with ((github ++ o) ++ 47%N :: rest) by now rewrite <- app_assoc.
    rewrite ReplaceFacts.without_git_slash, Hrest, <- app_assoc.
    rewrite <- (app_nil_r r) at 1.
    now rewrite (cleaned_names o r [] Ho Hr). }
  split.
  - intros He. apply Hkeep. unfold without_suffix_ci. now rewrite He.
  - intros g Hg. apply Hkeep. now apply ReplaceFacts.without_git_suffix.
Qed.

Lemma parse_round_trip_witness :
  (ends_with_ci (Js.lit ".git") (Js.lit "next.js") = false ->
   parse (ssh ++ Js.lit "vercel" ++ 47%N :: Js.lit "next.js")
   = Repository (Js.lit "vercel") (Js.lit "next.js"))
  /\ (forall g, equal_ci (Js.lit ".git") g = true ->
                parse (ssh ++ Js.lit "vercel" ++ 47%N :: Js.lit "next.js" ++ g)
                = Repository (Js.lit "vercel") (Js.lit "next.js")).
Proof.
  apply (parse_round_trip ssh (Js.lit "vercel") (Js.lit "next.js")).
  - right. exists 46%N. split; reflexivity.
  - split; [discriminate |]. vm_compute. intuition discriminate.
  - split; [discriminate |]. vm_compute. intuition discriminate.
Defined.

(** X14.  What follows a slash after the repository is ignored: a path,
    or the slashes at the end; the ending [.git] of the repository is then
    kept, as it is looked for at the end of the whole text before the
    slashes are removed. *)
Theorem parse_ignores_path (p o r rest : JsString) :
  accepted_prefix p -> plain_name o -> plain_name r ->
  parse (p ++ o ++ 47%N :: r ++ 47%N :: rest) = Repository o r.
Proof.
  intros Hp Ho Hr.
  set (tail := without_suffix_ci (Js.lit ".git") rest).
  apply (parse_cleaned _ o r (without_trailing_slashes (47%N :: tail)) Ho Hr).
  - destruct (without_trailing_slashes_shape tail) as [-> | (w & ->)];
      [now left | right; eauto].
  - rewrite (cleaned_steps p _ Hp).
    replace (github ++ o ++ 47%N :: r ++ 47%N :: rest)
      with ((github ++ o ++ 47%N :: r) ++ 47%N :: rest)
      by (repeat (rewrite <- app_assoc || cbn [app]); reflexivity).
    rewrite ReplaceFacts.without_git_slash. fold tail.
    repeat (rewrite <- app_assoc || cbn [app]).
    exact (cleaned_names o r (47%N :: tail) Ho Hr).
Qed.

Lemma parse_ignores_path_witness :
  parse (github ++ Js.lit "vercel" ++ 47%N :: Js.lit "next.js.git"
           ++ 47%N :: [])
  = Repository (Js.lit "vercel") (Js.lit "next.js.git").
Proof.
  apply (parse_ignores_path github (Js.lit "vercel") (Js.lit "next.js.git") []).
  - now left.
  - split; [discriminate |]. vm_compute. intuition discriminate.
  - split; [discriminate |]. vm_compute. intuition discriminate.
Defined.

End RouteFacts.

(* ------------------------------------------------------------------ *)
(** ** The URLs the handlers refuse *)

Module RouteRefusals.
Import Replace Route RouteSpec ValidatorSpec.

Lemma without_suffix_no_slash (p o : JsString) :
  ~ In 47%N o -> ~ In 47%N (without_suffix_ci p o).
Proof.
  intros Ho H. apply Ho. unfold without_suffix_ci in H.
  destruct (ends_with_ci p o); [| exact H].
  rewrite <- (firstn_skipn (List.length o - List.length p) o).
  apply in_or_app. now left.
Qed.

(** X15.  A text that names an owner only is refused: under an accepted
    prefix, a text without a slash gives no repository. *)
Theorem parse_owner_only (p o : JsString) :
  accepted_prefix p -> ~ In 47%N o -> parse (p ++ o) = InvalidUrl.
Proof.
  intros Hp Ho.
  pose proof (without_suffix_no_slash (Js.lit ".git") o Ho) as Ho'.
  assert (Hc : cleaned (p ++ o)
               = without_trailing_slashes
                   (github ++ without_suffix_ci (Js.lit ".git") o)).
  { rewrite (RouteFacts.cleaned_steps p o Hp).
    change (github ++ o) with (Js.lit "https://github.com" ++ 47%N :: o).
    now rewrite ReplaceFacts.without_git_slash. }
  unfold parse, parts. rewrite Hc.
  destruct (without_suffix_ci (Js.lit ".git") o) as [|a o'] eqn:E.
  - reflexivity.
  - destruct (RouteFacts.plain_name_last (a :: o')) as (x & c & Hx & Hcs);
      [split; [discriminate | exact Ho'] |].
    rewrite Hx, app_assoc, <- (app_nil_r ((github ++ x) ++ [c])),
      (RouteFacts.without_trailing_slashes_app (github ++ x) c [] Hcs),
      app_nil_r, <- app_assoc, <- Hx.
    rewrite ReplaceFacts.remove_first_occurrence_head,
      (ReplaceFacts.split_whole 47 (a :: o') Ho').
    reflexivity.
Qed.

Lemma parse_owner_only_witness :
  parse (ssh ++ Js.lit "vercel.git") = InvalidUrl.
Proof.
  apply (parse_owner_only ssh (Js.lit "vercel.git")).
  - right. exists 46%N. split; reflexivity.
  - vm_compute. intuition discriminate.
Defined.

(** X16.  The prefix is accepted with [https] only: whatever follows
    [http://], the text is refused. *)
Theorem parse_http_refused (t : JsString) :
  parse (Js.lit "http://" ++ t) = InvalidUrl.
Proof.
  set (t' := without_suffix_ci (Js.lit ".git") t).
  assert (Hc : cleaned (Js.lit "http://" ++ t)
               = Js.lit "http:" ++ without_trailing_slashes (47%N :: 47%N :: t')).
  { unfold cleaned.
    change (Js.lit "http://" ++ t) with (104%N :: Js.lit "ttp://" ++ t).
    rewrite RouteFacts.ssh_prefix_absent by discriminate.
    rewrite ReplaceFacts.git_suffix_removed, RouteFacts.trailing_slashes_removed.
    change (104%N :: Js.lit "ttp://" ++ t) with (Js.lit "http:/" ++ 47%N :: t).
    rewrite ReplaceFacts.without_git_slash. fold t'.
    change (Js.lit "http:/" ++ 47%N :: t')
      with ((Js.lit "http" ++ [58%N]) ++ 47%N :: 47%N :: t').
    now rewrite RouteFacts.without_trailing_slashes_app by discriminate. }
  unfold parse, parts. rewrite Hc.
  cbn [without_trailing_slashes].
  change (forallb is_slash (47%N :: 47%N :: t'))
    with (forallb is_slash (47%N :: t')).
  destruct (forallb is_slash (47%N :: t')); [reflexivity |].
  set (w := without_trailing_slashes t').
  assert (Hr : remove_first_occurrence github
                 (Js.lit "http:" ++ 47%N :: 47%N :: w)
               = Js.lit "http:" ++ 47%N :: [] ++ 47%N
                   :: remove_first_occurrence github w).
  { reflexivity. }
  rewrite Hr.
  rewrite (ReplaceFacts.split_first 47 (Js.lit "http:"))
    by (vm_compute; intuition discriminate).
  rewrite (ReplaceFacts.split_first 47 []) by (intros []).
  reflexivity.
Qed.

End RouteRefusals.

(* ------------------------------------------------------------------ *)
(** ** The files of the repository *)

Module FilesFacts.
Import Files RouteSpec ValidatorSpec.

Lemma readme_anchored :
  Regex.multiline (Regex.flags readme_re) = false
  /\ Forall (fun alt => exists r, alt = Regex.Bol :: r)
            (Regex.alternatives readme_re).
Proof. split; [reflexivity |]. constructor; [eexists; reflexivity | constructor]. Qed.

Lemma readme_test (name : JsString) :
  Regex.test readme_re name = equal_ci (Js.lit "readme.md") name.
Proof.
  assert (H : Regex.match_here readme_re None name
              = if equal_ci (Js.lit "readme.md") name then Some 9 else None).
  { unfold Regex.match_here.
    cbn [readme_re Regex.alternatives Regex.flags Regex.match_alts
         Regex.match_atoms Regex.at_bol].
    change (Regex.match_atoms _ _ None name)
      with (Regex.match_atoms ci
              (List.map literal (Js.lit "readme.md") ++ [Regex.Eol]) None name).
    rewrite ReplaceFacts.literal_eol.
    now destruct (equal_ci (Js.lit "readme.md") name). }
  unfold Regex.test. destruct readme_anchored as [Hm Hall].
  destruct name as [|c name]; cbn [Regex.search]; rewrite H.
  - reflexivity.
  - destruct (equal_ci (Js.lit "readme.md") (c :: name)); [reflexivity |].
    now rewrite (CleanupFacts.anchored_search readme_re name Hm Hall).
Qed.

(** X17.  A README is found exactly when one of the names is
    [readme.md] written in any case: no other character before or after
    it, and no other extension. *)
Theorem readmeExists_any_case (fileNames : list JsString) :
  readmeExists fileNames = true
  <-> exists name, In name fileNames
                   /\ List.length name = 9
                   /\ starts_with_ci (Js.lit "readme.md") name = true.
Proof.
  unfold readmeExists. rewrite existsb_exists.
  split; intros (name & Hin & H); exists name; (split; [exact Hin |]).
  - rewrite readme_test in H. unfold equal_ci in H.
    apply andb_true_iff in H. destruct H as [Hl Hs].
    now apply Nat.eqb_eq in Hl.
  - rewrite readme_test. unfold equal_ci. destruct H as [Hl Hs].
    rewrite Hs, Hl. reflexivity.
Qed.

Lemma includes_In (fileNames : list JsString) (name : JsString) :
  includes fileNames name = true <-> In name fileNames.
Proof.
  unfold includes. rewrite existsb_exists. split.
  - intros (x & Hin & H). apply Js_eqb_eq in H. now subst.
  - intros H. exists name. split; [exact H | apply Js_eqb_refl].
Qed.

(** X18.  The detected structure is consistent with the list of main
    files: the main files are the listed names among the five well-known
    ones; [package.json] and [tsconfig.json] are among them exactly when
    their flags are set; a [Dockerfile] among them sets the Docker flag,
    which [docker-compose.yml] sets too without being a main file. *)
Theorem structure_consistent (fileNames : list JsString) :
  (forall name, In name (mainFiles (structure fileNames))
                <-> In name fileNames /\ In name well_known)
  /\ (hasPackageJson (structure fileNames) = true
      <-> In (Js.lit "package.json") (mainFiles (structure fileNames)))
  /\ (hasTsConfig (structure fileNames) = true
      <-> In (Js.lit "tsconfig.json") (mainFiles (structure fileNames)))
  /\ (In (Js.lit "Dockerfile") (mainFiles (structure fileNames))
      -> hasDockerfile (structure fileNames) = true)
  /\ (In (Js.lit "docker-compose.yml") fileNames
      -> hasDockerfile (structure fileNames) = true)
  /\ ~ In (Js.lit "docker-compose.yml") (mainFiles (structure fileNames)).
Proof.
  assert (Hmain : forall name,
             In name (mainFiles (structure fileNames))
             <-> In name fileNames /\ In name well_known).
  { intros name. cbn [structure mainFiles]. rewrite filter_In.
    now rewrite includes_In. }
  split; [exact Hmain |].
  cbn [structure hasPackageJson hasTsConfig hasDockerfile].
  repeat split.
  - intros H. apply Hmain. apply includes_In in H.
    split; [exact H | cbn; tauto].
  - intros H. apply Hmain in H. now apply includes_In.
  - intros H. apply Hmain. apply includes_In in H.
    split; [exact H | cbn; tauto].
  - intros H. apply Hmain in H. now apply includes_In.
  - intros H. apply Hmain in H. destruct H as [H _].
    apply includes_In in H. now rewrite H.
  - intros H. apply includes_In in H. rewrite H. apply orb_true_r.
  - intros H. apply Hmain in H. destruct H as [_ H].
    vm_compute in H. intuition discriminate.
Qed.

End FilesFacts.
